(** * append-fs-logger: the bounded append-only log store, embedded in Rocq

    The development follows [src/append-fs-logger.js] (class
    [AppendOnlyFSLogger], the revision with the [try]/[catch] in [_write]
    and the null-descriptor guard in [_flush]) and the [MainLogger] facade
    that guards it ([_log]).

    - Module [JS]: the pieces of the JavaScript platform the logger leans
      on: strings as UTF-16 code units, [Buffer.from] (UTF-8),
      [JSON.stringify], [Date.prototype.toISOString], [Array.prototype.join]
      and [slice].
    - Module [FS]: the file at [logFileLocation], its [.tmp] sibling, the
      trace of file-system calls and the answers of the operating system.
    - Module [AppendOnlyFSLogger]: [open], [_write], [flush], [_flush],
      [_truncate], written with explicit state passing.
    - Module [MainLogger]: the [_log] guard in front of [_write].
    - Module [Teardown]: [destroy]; module [Earlier]: [_flush] and
      [_write] as the earlier revision in the same file has them.
    - Module [Facade]: the constructor of the facade, its console helpers
      ([pad], [shortFormateTime]) and the conversion of error values
      ([stackToString], [errorToObject]).
    - Module [Loop]: the calls of [_write] followed through the event
      loop, for calls made while a flush round is in flight.

    Definitions come first, the lemmas and theorems follow. *)

From Stdlib Require Import ZArith NArith Lia String Ascii DecimalString Sorted Recdef.
From stdpp Require Import base list numbers option.

Local Open Scope Z_scope.
Set Warnings "-register-all".

(** ** The JavaScript platform *)

Module JS.

(** A JavaScript string: a sequence of UTF-16 code units. *)
Definition str := list N.

(** A string literal of the source, written with Rocq's string syntax. *)
Definition lit (s : string) : str := N_of_ascii <$> list_ascii_of_string s.

(** ['\n'], and ['\n'.charCodeAt(0)]. *)
Definition newLineByte : N := 10%N.
Definition NL : str := [newLineByte].

(** Values thrown by the platform or by [throw new Error(..)]. *)
Inductive Exn :=
| TypeError_circular          (* JSON.stringify: Converting circular structure to JSON *)
| RangeError_time             (* toISOString: Invalid time value *)
| RangeError_start            (* fs.createReadStream: start is NaN or negative *)
| TypeError_undefined         (* reading a property of undefined *)
| TypeError_fd                (* fs.close: fd is not a number *)
| Error (message : str).      (* new Error(message) *)

(** How a call ends: with a value, or by throwing. *)
Inductive Completion (A : Type) :=
| Normal (a : A)
| Throw (e : Exn).
Arguments Normal {A} a.
Arguments Throw {A} e.

(** [Array.prototype.join]. *)
Fixpoint join (sep : str) (parts : list str) : str :=
  match parts with
  | [] => []
  | [p] => p
  | p :: rest => p ++ sep ++ join sep rest
  end.

(** [Array.prototype.slice(begin)]: a negative [begin] counts from the
    end of the array. *)
Definition slice_from {A} (l : list A) (begin : Z) : list A :=
  if begin <? 0
  then drop (Z.to_nat (Z.max (Z.of_nat (length l) + begin) 0)) l
  else drop (Z.to_nat begin) l.

(** [String.prototype.slice(0, n)] for [0 <= n]. *)
Definition slice_to (s : str) (n : nat) : str := take n s.

(** *** Surrogates and UTF-8: [Buffer.from(string)] *)

Definition is_high (c : N) : bool := ((55296 <=? c) && (c <=? 56319))%N.
Definition is_low (c : N) : bool := ((56320 <=? c) && (c <=? 57343))%N.

Definition code_point (hi lo : N) : N :=
  (65536 + N.shiftl (hi - 55296) 10 + (lo - 56320))%N.

Definition utf8_encode (cp : N) : list N :=
  if (cp <? 128)%N then [cp]
  else if (cp <? 2048)%N then
    [N.lor 192 (N.shiftr cp 6); N.lor 128 (N.land cp 63)]
  else if (cp <? 65536)%N then
    [N.lor 224 (N.shiftr cp 12);
     N.lor 128 (N.land (N.shiftr cp 6) 63);
     N.lor 128 (N.land cp 63)]
  else
    [N.lor 240 (N.shiftr cp 18);
     N.lor 128 (N.land (N.shiftr cp 12) 63);
     N.lor 128 (N.land (N.shiftr cp 6) 63);
     N.lor 128 (N.land cp 63)].

(** A surrogate pair is one code point; a lone surrogate is written as
    U+FFFD. *)
Fixpoint Buffer_from (s : str) : list N :=
  match s with
  | [] => []
  | c :: r =>
      if is_high c then
        match r with
        | d :: r' =>
            if is_low d
            then utf8_encode (code_point c d) ++ Buffer_from r'
            else utf8_encode 65533 ++ Buffer_from r
        | [] => utf8_encode 65533
        end
      else if is_low c then utf8_encode 65533 ++ Buffer_from r
      else utf8_encode c ++ Buffer_from r
  end.

(** *** [JSON.stringify] *)

(** The values a log call can carry.  [Circular] stands for a reference
    to an object that is still being serialized (one of its own
    ancestors): the one shape of a cyclic object graph, which an
    inductive type cannot hold directly.  Numbers are integers. *)
Inductive value :=
| Undefined
| Null
| Bool (b : bool)
| Num (n : Z)
| Str (s : str)
| Arr (xs : list value)
| Obj (props : list (str * value))
| Circular.

(** ToBoolean, as [info || EMPTY_OBJECT] and [if (info)] use it. *)
Definition truthy (x : value) : bool :=
  match x with
  | Undefined | Null => false
  | Bool b => b
  | Num n => negb (n =? 0)
  | Str s => negb (bool_decide (s = []))
  | Arr _ | Obj _ | Circular => true
  end.

(** [typeof x === 'object']. *)
Definition typeof_object (x : value) : bool :=
  match x with
  | Null | Arr _ | Obj _ | Circular => true
  | _ => false
  end.

Definition decimal (n : Z) : str := lit (NilZero.string_of_int (Z.to_int n)).

Definition hex_digit (d : N) : N :=
  if (d <? 10)%N then (48 + d)%N else (87 + d)%N.

(** [\uXXXX], four lower-case hexadecimal digits. *)
Definition unicode_escape (c : N) : str :=
  [92; 117;
   hex_digit (N.land (N.shiftr c 12) 15);
   hex_digit (N.land (N.shiftr c 8) 15);
   hex_digit (N.land (N.shiftr c 4) 15);
   hex_digit (N.land c 15)]%N.

(** One code unit that is not a surrogate, as QuoteJSONString writes it. *)
Definition quote_unit (c : N) : str :=
  if (c =? 8)%N then [92; 98]%N
  else if (c =? 9)%N then [92; 116]%N
  else if (c =? 10)%N then [92; 110]%N
  else if (c =? 12)%N then [92; 102]%N
  else if (c =? 13)%N then [92; 114]%N
  else if (c =? 34)%N then [92; 34]%N
  else if (c =? 92)%N then [92; 92]%N
  else if (c <? 32)%N then unicode_escape c
  else [c].

Fixpoint quote_body (s : str) : str :=
  match s with
  | [] => []
  | c :: r =>
      if is_high c then
        match r with
        | d :: r' =>
            if is_low d
            then c :: d :: quote_body r'
            else unicode_escape c ++ quote_body r
        | [] => unicode_escape c
        end
      else if is_low c then unicode_escape c ++ quote_body r
      else quote_unit c ++ quote_body r
  end.

Definition QuoteJSONString (s : str) : str := [34%N] ++ quote_body s ++ [34%N].

(** The result of SerializeJSONProperty: a text, [undefined] (the
    property is left out), or an exception. *)
Inductive serialized :=
| Text (s : str)
| Omitted
| Raised (e : Exn).

Fixpoint SerializeJSONProperty (x : value) : serialized :=
  match x with
  | Undefined => Omitted
  | Null => Text (lit "null")
  | Bool true => Text (lit "true")
  | Bool false => Text (lit "false")
  | Num n => Text (decimal n)
  | Str s => Text (QuoteJSONString s)
  | Circular => Raised TypeError_circular
  | Arr xs =>
      let fix elements (xs : list value) : Exn + list str :=
        match xs with
        | [] => inr []
        | x :: xs' =>
            match SerializeJSONProperty x with
            | Raised e => inl e
            | Omitted =>
                match elements xs' with
                | inl e => inl e
                | inr ps => inr (lit "null" :: ps)
                end
            | Text s =>
                match elements xs' with
                | inl e => inl e
                | inr ps => inr (s :: ps)
                end
            end
        end in
      match elements xs with
      | inl e => Raised e
      | inr ps => Text (lit "[" ++ join (lit ",") ps ++ lit "]")
      end
  | Obj props =>
      let fix members (props : list (str * value)) : Exn + list str :=
        match props with
        | [] => inr []
        | (k, x) :: props' =>
            match SerializeJSONProperty x with
            | Raised e => inl e
            | Omitted => members props'
            | Text s =>
                match members props' with
                | inl e => inl e
                | inr ps => inr ((QuoteJSONString k ++ lit ":" ++ s) :: ps)
                end
            end
        end in
      match members props with
      | inl e => Raised e
      | inr ps => Text (lit "{" ++ join (lit ",") ps ++ lit "}")
      end
  end.

(** [JSON.stringify(x)]: a string, [undefined] ([None]), or an
    exception. *)
Definition JSON_stringify (x : value) : Completion (option str) :=
  match SerializeJSONProperty x with
  | Text s => Normal (Some s)
  | Omitted => Normal None
  | Raised e => Throw e
  end.

(** *** [new Date(time).toISOString()] for an integral [time] *)

(** Days since 1970-01-01 to (year, month, day) of the proleptic
    Gregorian calendar. *)
Definition civil_from_days (days : Z) : Z * Z * Z :=
  let z := days + 719468 in
  let era := z / 146097 in
  let doe := z - era * 146097 in
  let yoe := (doe - doe / 1460 + doe / 36524 - doe / 146096) / 365 in
  let doy := doe - (365 * yoe + yoe / 4 - yoe / 100) in
  let mp := (5 * doy + 2) / 153 in
  let d := doy - (153 * mp + 2) / 5 + 1 in
  let m := if mp <? 10 then mp + 3 else mp - 9 in
  let y := yoe + era * 400 in
  (if m <=? 2 then y + 1 else y, m, d).

(** Decimal digits of [n >= 0], left-padded with ['0'] to [width]. *)
Definition pad (width : nat) (n : Z) : str :=
  let digits := decimal n in
  replicate (width - length digits) 48%N ++ digits.

Definition toISOString (time : Z) : Completion str :=
  if 8640000000000000 <? Z.abs time then Throw RangeError_time
  else
    let '(y, m, d) := civil_from_days (time / 86400000) in
    let ms := time mod 86400000 in
    let year :=
      if (0 <=? y) && (y <=? 9999) then pad 4 y
      else (if y <? 0 then lit "-" else lit "+") ++ pad 6 (Z.abs y) in
    Normal (year ++ lit "-" ++ pad 2 m ++ lit "-" ++ pad 2 d ++ lit "T"
            ++ pad 2 (ms / 3600000) ++ lit ":"
            ++ pad 2 (ms / 60000 mod 60) ++ lit ":"
            ++ pad 2 (ms / 1000 mod 60) ++ lit "."
            ++ pad 3 (ms mod 1000) ++ lit "Z").

End JS.

(** ** The file system as the logger sees it *)

Module FS.

(** [cause.code] of a failed call: ['EACCES'], ['ENOENT'], ['EBADF'], ... *)
Definition Errno := string.
Bind Scope string_scope with Errno.

Inductive Syscall :=
| SysMkdir
| SysReadFile
| SysOpen
| SysWrite (fd : Z) (buf : list N)
| SysPipeline (start : Z)
| SysRename
| SysClose (fd : Z).

(** [file] is the content at [logFileLocation] ([None]: no such file),
    [tmp] the content at [logFileLocation + '.tmp'], [trace] the calls
    issued so far, oldest first, and [reported] what the [onError]
    callback has been handed, oldest first. *)
Record World (E : Type) := mkWorld {
  file : option (list N);
  tmp : option (list N);
  trace : list Syscall;
  reported : list E
}.
Arguments mkWorld {E}.
Arguments file {E}.
Arguments tmp {E}.
Arguments trace {E}.
Arguments reported {E}.

(** The answers of the operating system during one call of [open] or one
    flush round; each kind of call is issued at most once there.
    [None] (or [inr]) is success.  [open_r] carries the new descriptor,
    [write_r] the number of bytes the kernel is willing to take. *)
Record Env := mkEnv {
  mkdir_r : option Errno;
  readFile_r : option Errno;
  open_r : Errno + Z;
  write_r : Errno + nat;
  pipeline_r : option Errno;
  rename_r : option Errno;
  close_r : option Errno
}.

(** Modelled from the spec: [resultify] of [resultify.js], which is not
    among the sources: the wrapped call never throws or rejects, it
    answers with [{err}] or with [{data}].  Each function below is one
    such call on the paths of this logger; it appends itself to the
    trace and answers as [Env] says. *)
Section Calls.
Context {E : Type}.

Definition log (c : Syscall) (w : World E) : World E :=
  mkWorld (file w) (tmp w) (trace w ++ [c]) (reported w).

Definition set_file (f : option (list N)) (w : World E) : World E :=
  mkWorld f (tmp w) (trace w) (reported w).

Definition set_tmp (f : option (list N)) (w : World E) : World E :=
  mkWorld (file w) f (trace w) (reported w).

(** The [onError] collaborator: it records the error. *)
Definition onError (err : E) (w : World E) : World E :=
  mkWorld (file w) (tmp w) (trace w) (reported w ++ [err]).

(** [fs.mkdir(dirname, {recursive: true})]. *)
Definition mkdir (env : Env) (w : World E) : option Errno * World E :=
  (mkdir_r env, log SysMkdir w).

(** [fs.readFile(logFileLocation)]: a missing file is ['ENOENT']. *)
Definition readFile (env : Env) (w : World E)
  : (Errno + list N) * World E :=
  let w := log SysReadFile w in
  match readFile_r env, file w with
  | Some e, _ => (inl e, w)
  | None, None => (inl "ENOENT"%string, w)
  | None, Some content => (inr content, w)
  end.

(** [fs.open(logFileLocation, 'a+')]: creates the file when missing. *)
Definition open (env : Env) (w : World E) : (Errno + Z) * World E :=
  let w := log SysOpen w in
  match open_r env with
  | inl e => (inl e, w)
  | inr fd => (inr fd, set_file (Some (default [] (file w))) w)
  end.

(** [fs.write(fd, buf, 0, buf.length, 0)] on a descriptor opened with
    ['a+']: the bytes taken go to the end of the file (the kernel
    ignores the position of a write in append mode).  Returns
    [bytesWritten]. *)
Definition write (env : Env) (fd : Z) (buf : list N) (w : World E)
  : (Errno + Z) * World E :=
  let w := log (SysWrite fd buf) w in
  match write_r env with
  | inl e => (inl e, w)
  | inr n =>
      (inr (Z.of_nat (length (take n buf))),
       set_file ((λ content, content ++ take n buf) <$> file w) w)
  end.

(** [pipeline(createReadStream(logFileLocation, {start}),
    createWriteStream(logFileLocation + '.tmp'))]: on success the
    temp file holds the bytes of the file from [start] on. *)
Definition pipeline (env : Env) (start : Z) (w : World E)
  : option Errno * World E :=
  let w := log (SysPipeline start) w in
  match pipeline_r env, file w with
  | Some e, _ => (Some e, set_tmp (Some []) w)
  | None, None => (Some "ENOENT"%string, set_tmp (Some []) w)
  | None, Some content =>
      (None, set_tmp (Some (drop (Z.to_nat start) content)) w)
  end.

(** [fs.rename(logFileLocation + '.tmp', logFileLocation)]. *)
Definition rename (env : Env) (w : World E) : option Errno * World E :=
  let w := log SysRename w in
  match rename_r env, tmp w with
  | Some e, _ => (Some e, w)
  | None, None => (Some "ENOENT"%string, w)
  | None, Some content => (None, set_tmp None (set_file (Some content) w))
  end.

(** [fs.close(fd)]. *)
Definition close (env : Env) (fd : Z) (w : World E)
  : option Errno * World E :=
  (close_r env, log (SysClose fd) w).

End Calls.

End FS.

(** ** The logger *)

Module AppendOnlyFSLogger.
Import JS FS.

Definition MAX_LOG_FILE_SIZE : Z := 32 * 1024 * 1024.
Definition MAX_LOG_LINE_SIZE : Z := 32 * 1024.
Definition MAX_LOG_LINES : Z := 4096.
Definition EMPTY_OBJECT : value := Obj [].

(** [os.hostname()] and [process.pid]. *)
Record Process := mkProcess { hostname : str; pid : Z }.

(** *** class LogLine *)
Module LogLine.
Record t := mk {
  name : str;
  hostname : str;
  pid : Z;
  level : str;
  msg : str;
  time : str;
  v : Z;
  fields : value;
  truncated : option str
}.

(** The constructor; [new Date(time).toISOString()] can throw. *)
Definition new (proc : Process) (name level msg : str) (info : value)
    (time : Z) (truncated : option str) : Completion t :=
  match toISOString time with
  | Throw e => Throw e
  | Normal iso =>
      Normal (mk name (AppendOnlyFSLogger.hostname proc)
                (AppendOnlyFSLogger.pid proc) level msg iso 1 info truncated)
  end.

(** The own properties of the object, in the order the constructor
    assigns them; an absent [truncated] is [undefined]. *)
Definition to_value (l : t) : value :=
  Obj [(lit "name", Str (name l));
       (lit "hostname", Str (hostname l));
       (lit "pid", Num (pid l));
       (lit "level", Str (level l));
       (lit "msg", Str (msg l));
       (lit "time", Str (time l));
       (lit "v", Num (v l));
       (lit "fields", fields l);
       (lit "truncated",
         match truncated l with Some s => Str s | None => Undefined end)].
End LogLine.

(** *** Errors handed to callers and to [onError] *)

(** Modelled from the spec: [WError], [WError.wrap] and [wrapf] of
    [error.js], which is not among the sources: an error that wraps a
    cause under a message.  The informational fields (file name, product
    name, descriptor) are left out.  [OpenFailError] is the class of the
    source; its constructor sets [shouldBail = false]. *)
Inductive LogError :=
| PlainError (message : string)                    (* new Error(message) *)
| OpenFailError (message : string) (cause : Errno) (shouldBail : bool)
| WError (message : string) (cause : Errno)        (* wrapf(message, cause, info) *)
| WErrorExn (message : string) (cause : Exn).      (* wrapf around a caught exception *)

Definition OpenFailError_wrap (message : string) (cause : Errno) : LogError :=
  OpenFailError message cause false.

(** [Reflect.set(err, 'shouldBail', true)]. *)
Definition set_shouldBail (err : LogError) : LogError :=
  match err with
  | OpenFailError m c _ => OpenFailError m c true
  | e => e
  end.

(** [Reflect.get(err, 'shouldBail')]; [None] is [undefined]. *)
Definition shouldBail (err : LogError) : option bool :=
  match err with
  | OpenFailError _ _ b => Some b
  | _ => None
  end.

(** [err.code] of an [OpenFailError]. *)
Definition code (err : LogError) : option Errno :=
  match err with
  | OpenFailError _ c _ => Some c
  | _ => None
  end.

(** *** The instance *)

(** [pendingFlush] is observed between flush rounds only: it is [null]
    ([None]) or, once a round has thrown, the rejected promise of that
    round ([Some e]). *)
Record t := mk {
  productName : str;
  fd : option Z;
  lines : Z;
  size : Z;
  bytesWritten : Z;
  _writeCalled : Z;
  newLineOffsets : list Z;
  pendingFlush : option Exn;
  pendingWrites : list str;
  hasOpened : bool
}.

Definition constructor (productName : str) : t :=
  mk productName None 0 0 0 0 [] None [] false.

Definition set_fd (x : option Z) (s : t) : t :=
  mk (productName s) x (lines s) (size s) (bytesWritten s) (_writeCalled s)
     (newLineOffsets s) (pendingFlush s) (pendingWrites s) (hasOpened s).
Definition set_lines (x : Z) (s : t) : t :=
  mk (productName s) (fd s) x (size s) (bytesWritten s) (_writeCalled s)
     (newLineOffsets s) (pendingFlush s) (pendingWrites s) (hasOpened s).
Definition set_size (x : Z) (s : t) : t :=
  mk (productName s) (fd s) (lines s) x (bytesWritten s) (_writeCalled s)
     (newLineOffsets s) (pendingFlush s) (pendingWrites s) (hasOpened s).
Definition set_bytesWritten (x : Z) (s : t) : t :=
  mk (productName s) (fd s) (lines s) (size s) x (_writeCalled s)
     (newLineOffsets s) (pendingFlush s) (pendingWrites s) (hasOpened s).
Definition set__writeCalled (x : Z) (s : t) : t :=
  mk (productName s) (fd s) (lines s) (size s) (bytesWritten s) x
     (newLineOffsets s) (pendingFlush s) (pendingWrites s) (hasOpened s).
Definition set_newLineOffsets (x : list Z) (s : t) : t :=
  mk (productName s) (fd s) (lines s) (size s) (bytesWritten s)
     (_writeCalled s) x (pendingFlush s) (pendingWrites s) (hasOpened s).
Definition set_pendingFlush (x : option Exn) (s : t) : t :=
  mk (productName s) (fd s) (lines s) (size s) (bytesWritten s)
     (_writeCalled s) (newLineOffsets s) x (pendingWrites s) (hasOpened s).
Definition set_pendingWrites (x : list str) (s : t) : t :=
  mk (productName s) (fd s) (lines s) (size s) (bytesWritten s)
     (_writeCalled s) (newLineOffsets s) (pendingFlush s) x (hasOpened s).
Definition set_hasOpened (x : bool) (s : t) : t :=
  mk (productName s) (fd s) (lines s) (size s) (bytesWritten s)
     (_writeCalled s) (newLineOffsets s) (pendingFlush s) (pendingWrites s) x.

(** [if (this.fd)]: [null] and the descriptor [0] are falsy. *)
Definition fd_truthy (fd : option Z) : bool :=
  match fd with
  | Some n => negb (n =? 0)
  | None => false
  end.

(** The two scanning loops, [for (i = 0; i < n; i++) if (buf[i] ===
    newLineByte) push(base + i)]: the offsets, counted from [base], of
    the newline bytes of [buf]. *)
Fixpoint scanNewLines (base : Z) (buf : list N) : list Z :=
  match buf with
  | [] => []
  | b :: rest =>
      if (b =? newLineByte)%N
      then base :: scanNewLines (base + 1) rest
      else scanNewLines (base + 1) rest
  end.

Definition Result : Type := option LogError.      (* { err?: Error } *)

(** *** open() *)

(** Lines 161-179: the descriptor-open step that ends [open]. *)
Definition open_descriptor (env : Env) (st : t) (w : World LogError)
  : Result * t * World LogError :=
  let '(r, w) := FS.open env w in
  match r with
  | inl e =>
      let err := OpenFailError_wrap "Could not open log file" e in
      let err :=
        if String.eqb e "EACCES" then set_shouldBail err
        else err in
      (Some err, st, w)
  | inr fd => (None, set_fd (Some fd) (set_hasOpened true st), w)
  end.

Definition open (env : Env) (st : t) (w : World LogError)
  : Result * t * World LogError :=
  if fd_truthy (fd st) then
    (Some (PlainError "Cannot open twice()"), st, w)
  else
    let '(mkdirErr, w) := mkdir env w in
    match mkdirErr with
    | Some e =>
        (Some (OpenFailError_wrap "Could not mkdir for log file" e),
         st, w)
    | None =>
        let '(r, w) := readFile env w in
        match r with
        | inl e =>
            if negb (String.eqb e "ENOENT") then
              (Some (OpenFailError_wrap "Could not read old file" e),
               st, w)
            else
              (* buf is undefined: Buffer.isBuffer(buf) is false *)
              open_descriptor env st w
        | inr buf =>
            let st := set_size (Z.of_nat (length buf)) st in
            let st := set_newLineOffsets (scanNewLines 0 buf) st in
            let st :=
              set_lines (Z.of_nat (length (newLineOffsets st))) st in
            open_descriptor env st w
        end
    end.

(** *** _truncate(position, lineIndex) *)

(** [position] is a JavaScript number: [None] is [NaN], which is what
    [undefined + 1] gives.  [fs.createReadStream] refuses a [start]
    that is not a non-negative integer by throwing, which rejects the
    promise of this [async] function. *)
Definition _truncate (env : Env) (position : option Z) (lineIndex : Z)
    (st : t) (w : World LogError)
  : Completion Result * t * World LogError :=
  match position with
  | None => (Throw RangeError_start, st, w)
  | Some position =>
      if position <? 0 then (Throw RangeError_start, st, w)
      else
        let '(pipeErr, w) := pipeline env position w in
        match pipeErr with
        | Some e =>
            (Normal (Some (WError "_truncate(): could not pipeline" e)),
             st, w)
        | None =>
            let '(renameErr, w) := rename env w in
            match renameErr with
            | Some e =>
                (Normal (Some (WError "_truncate(): could not rename" e)),
                 st, w)
            | None =>
                if lineIndex =? -1 then
                  let st := set_lines 0 st in
                  let st := set_size 0 st in
                  let st := set_newLineOffsets [] st in
                  match fd st with
                  | None => (Throw TypeError_fd, st, w)
                  | Some fdv =>
                      let '(closeErr, w) := close env fdv w in
                      match closeErr with
                      | Some e =>
                          let st := set_fd None st in
                          (Normal (Some (WError
                             "_truncate(): could not close" e)), st, w)
                      | None =>
                          let '(r, st, w) := open env st w in
                          (Normal r, st, w)
                      end
                  end
                else
                  let st := set_lines (lines st - lineIndex - 1) st in
                  let st := set_size (size st - position) st in
                  let st :=
                    set_newLineOffsets
                      ((λ o, o - position)
                         <$> slice_from (newLineOffsets st) (lineIndex + 1))
                      st in
                  let oldFd := fd st in
                  let '(r, w) := FS.open env w in
                  match r with
                  | inl e =>
                      (Normal (Some (WError
                         "_truncate(): could not re open" e)), st, w)
                  | inr fd' =>
                      let st := set_fd (Some fd') st in
                      match oldFd with
                      | None => (Throw TypeError_fd, st, w)
                      | Some old =>
                          let '(closeErr, w) := close env old w in
                          match closeErr with
                          | Some e =>
                              (Normal (Some (WError
                                 "_truncate(): could not close old fd" e)),
                               st, w)
                          | None => (Normal None, st, w)
                          end
                      end
                  end
            end
        end
  end.

(** *** _flush(): one flush round *)

(** Lines 308-322: the first recorded offset above [minimumOffset] and
    its index, or [minimumOffset] and [-1]. *)
Definition findCut (minimumOffset : Z) (offsets : list Z) : Z * Z :=
  match list_find (λ o, minimumOffset < o) offsets with
  | Some (i, o) => (o, Z.of_nat i)
  | None => (minimumOffset, -1)
  end.

(** Lines 280-295: the bookkeeping after a write that took [written]
    bytes of [buf]. *)
Definition account (linesToBeWritten : Z) (buf : list N) (written : Z)
    (st : t) : t :=
  let st :=
    if negb (written =? Z.of_nat (length buf))
    then set_pendingWrites (pendingWrites st ++ [NL]) st
    else st in
  let st :=
    set_newLineOffsets
      (newLineOffsets st
         ++ scanNewLines (size st) (take (Z.to_nat written) buf))
      st in
  let st := set_bytesWritten (bytesWritten st + written) st in
  let st := set_size (size st + written) st in
  (* This is best effort and over estimates in case of partial write. *)
  set_lines (lines st + linesToBeWritten) st.

(** Lines 297-327: the two truncation triggers. *)
Definition rotate (env : Env) (st : t) (w : World LogError)
  : Completion Result * t * World LogError :=
  if MAX_LOG_LINES <=? lines st then
    let lineIndex := MAX_LOG_LINES / 4 in
    let offset := newLineOffsets st !! Z.to_nat lineIndex in
    _truncate env ((λ o, o + 1) <$> offset) lineIndex st w
  else if MAX_LOG_FILE_SIZE <=? size st then
    let minimumOffset := MAX_LOG_FILE_SIZE / 4 in
    let '(offset, lineIndex) := findCut minimumOffset (newLineOffsets st) in
    _truncate env (Some (offset + 1)) lineIndex st w
  else
    (Normal None, st, w).

(** The buffer of a round: the snapshot joined with ['\n'], plus a
    trailing ['\n']. *)
Definition roundBuffer (pending : list str) : list N :=
  Buffer_from (join NL pending ++ NL).

Definition fd_is_null : LogError :=
  PlainError "_flush() could not write, fd is null".

Definition _flush (env : Env) (st : t) (w : World LogError)
  : Completion Result * t * World LogError :=
  let pending := pendingWrites st in
  let st := set_pendingWrites [] st in
  let linesToBeWritten := Z.of_nat (length pending) in
  let buf := roundBuffer pending in
  match fd st with
  | Some fdv =>
      if negb (fd_truthy (Some fdv)) then (Normal (Some fd_is_null), st, w)
      else
        let '(r, w) := write env fdv buf w in
        let st := set__writeCalled (_writeCalled st + 1) st in
        match r with
        | inl e =>
            (Normal (Some (WError "_write() could not write(fd)" e)), st, w)
        | inr written =>
            rotate env (account linesToBeWritten buf written st) w
        end
  | None => (Normal (Some fd_is_null), st, w)
  end.

(** *** flush() and _write() *)

(** What a caller gets back. *)
Inductive Outcome :=
| Returned                    (* a plain value, [null] *)
| Resolved                    (* a promise that resolves *)
| Rejected (e : Exn)          (* a promise that rejects with [e] *)
| Thrown (e : Exn).           (* a synchronous exception *)

(** [flush], called while no round is in flight and run to completion.
    Awaiting a rejected [pendingFlush] throws inside the [async]
    function, so the promise of [flush] rejects and [pendingFlush] is
    never reset. *)
Definition flush (env : Env) (st : t) (w : World LogError)
  : Outcome * t * World LogError :=
  match pendingFlush st with
  | Some e => (Rejected e, st, w)
  | None =>
      if bool_decide (pendingWrites st = []) then (Resolved, st, w)
      else
        let '(r, st, w) := _flush env st w in
        match r with
        | Throw e => (Rejected e, set_pendingFlush (Some e) st, w)
        | Normal r =>
            let st := set_pendingFlush None st in
            match r with
            | Some err => (Resolved, st, onError err w)
            | None => (Resolved, st, w)
            end
        end
  end.

(** [JSON.stringify(new LogLine(..))], and the read of [.length] (or
    the [push]) that follows it. *)
Definition stringifyLine (proc : Process) (productName level msg : str)
    (info : value) (time : Z) (truncated : option str) : Completion str :=
  match LogLine.new proc productName level msg info time truncated with
  | Throw e => Throw e
  | Normal line =>
      match JSON_stringify (LogLine.to_value line) with
      | Throw e => Throw e
      | Normal None => Throw TypeError_undefined
      | Normal (Some str) => Normal str
      end
  end.

Definition isTruncated : value := Obj [(lit "isTruncated", Bool true)].

(** Lines 193-205: the string [_write] is about to queue. *)
Definition encode (proc : Process) (productName level msg : str)
    (info : value) (time : Z) : Completion str :=
  match
    stringifyLine proc productName level msg
      (if truthy info then info else EMPTY_OBJECT) time None
  with
  | Throw e => Throw e
  | Normal str =>
      if MAX_LOG_LINE_SIZE <? Z.of_nat (length str) then
        let truncLevel :=
          if bool_decide (level = lit "info") then lit "warn" else level in
        stringifyLine proc productName truncLevel msg isTruncated time
          (Some (slice_to str (Z.to_nat (MAX_LOG_LINE_SIZE - 3))
                   ++ lit "..."))
      else Normal str
  end.

Definition _write (proc : Process) (env : Env) (level msg : str)
    (info : value) (time : Z) (st : t) (w : World LogError)
  : Outcome * t * World LogError :=
  match encode proc (productName st) level msg info time with
  | Normal str =>
      flush env (set_pendingWrites (pendingWrites st ++ [str]) st) w
  | Throw unexpectedError =>
      (Returned, st,
       onError (WErrorExn "_write() threw an unexpected exception"
                  unexpectedError) w)
  end.

Definition getWriteCalledCounter (st : t) : Z := _writeCalled st.

End AppendOnlyFSLogger.

(** ** The facade *)

Module MainLogger.
Import JS FS AppendOnlyFSLogger.

(** [_log(level, msg, info, timestamp, prefix)].  The state of the
    facade is its [fsLogger]; console output is not part of the model,
    and field values that are [Error] objects are outside [value]. *)
Definition _log (proc : Process) (env : Env) (level : str)
    (msg info : value) (timestamp : Z) (st : t) (w : World LogError)
  : Outcome * t * World LogError :=
  if negb (hasOpened st) then
    (Thrown (Error (lit "Must call open() first.")), st, w)
  else
    match msg with
    | Str (c :: m) =>
        if truthy info && negb (typeof_object info) then
          (Thrown (Error (level ++ lit "(msg, info); info must be object")),
           st, w)
        else _write proc env level (c :: m) info timestamp st w
    | _ =>
        (Thrown (Error (level ++ lit "(msg); msg is mandatory")), st, w)
    end.

(** [info], [warn] and [error]; [now] is [Date.now()]. *)
Definition info (proc : Process) (env : Env) (now : Z) (msg info : value) :=
  _log proc env (lit "info") msg info now.
Definition warn (proc : Process) (env : Env) (now : Z) (msg info : value) :=
  _log proc env (lit "warn") msg info now.
Definition error (proc : Process) (env : Env) (now : Z) (msg info : value) :=
  _log proc env (lit "error") msg info now.

End MainLogger.

(** ** Invariants *)

Import JS FS AppendOnlyFSLogger.

(** The bookkeeping agrees with the file: [size] is its length and
    [newLineOffsets] lists the positions of its newline bytes. *)
Definition Synced (st : t) (w : World LogError) : Prop :=
  ∃ content,
    file w = Some content
    ∧ size st = Z.of_nat (length content)
    ∧ newLineOffsets st = scanNewLines 0 content.

(** [lines] is the number of recorded offsets. *)
Definition Counted (st : t) : Prop :=
  lines st = Z.of_nat (length (newLineOffsets st)).

(** A string without a newline code unit, as [JSON.stringify] returns. *)
Definition newline_free (s : str) : Prop := newLineByte ∉ s.

(** A call of [fs.write] in a trace. *)
Definition is_write (c : Syscall) : Prop :=
  match c with SysWrite _ _ => True | _ => False end.

(** ** Notions used by the statements *)

(** The state and the world right after the write of a round that took
    [n] bytes, before the truncation triggers are looked at. *)
Definition afterWrite (n : nat) (st : t) : t :=
  let buf := roundBuffer (pendingWrites st) in
  account (Z.of_nat (length (pendingWrites st))) buf
    (Z.of_nat (length (take n buf)))
    (set__writeCalled (_writeCalled st + 1) (set_pendingWrites [] st)).

(** What a flush round has done when its truncation step, if any,
    completed without an error: either no trigger fired, or the file was
    cut right after the newline recorded at some index [i]. *)
Definition cutAt (i : nat) (off : Z) (st1 st' : t)
    (w1 w' : World LogError) : Prop :=
  ∃ content fdv fd',
    newLineOffsets st1 !! i = Some off
    ∧ 0 ≤ off + 1
    ∧ file w1 = Some content
    ∧ fd st1 = Some fdv
    ∧ lines st' = lines st1 - Z.of_nat i - 1
    ∧ size st' = size st1 - (off + 1)
    ∧ newLineOffsets st'
      = (λ o, o - (off + 1)) <$> drop (S i) (newLineOffsets st1)
    ∧ fd st' = Some fd'
    ∧ pendingWrites st' = pendingWrites st1
    ∧ _writeCalled st' = _writeCalled st1
    ∧ file w' = Some (drop (Z.to_nat (off + 1)) content)
    ∧ trace w'
      = trace w1 ++ [SysPipeline (off + 1); SysRename; SysOpen; SysClose fdv]
    ∧ reported w' = reported w1.

(** [w'] extends the trace of [w] by calls that are not writes. *)
Definition no_new_write (w w' : World LogError) : Prop :=
  ∃ rest, trace w' = trace w ++ rest ∧ Forall (λ c, ¬ is_write c) rest.

(** ** Sequences of calls on the facade *)

Inductive Call :=
| CallOpen (env : Env)
| CallLog (env : Env) (level : str) (msg info : value) (timestamp : Z).

Definition step (proc : Process) (c : Call) (s : t * World LogError)
  : t * World LogError :=
  match c with
  | CallOpen env => let '(_, st, w) := open env s.1 s.2 in (st, w)
  | CallLog env level msg info timestamp =>
      let '(_, st, w) :=
        MainLogger._log proc env level msg info timestamp s.1 s.2 in
      (st, w)
  end.

Definition run (proc : Process) (calls : list Call) (s : t * World LogError)
  : t * World LogError :=
  foldl (λ s c, step proc c s) s calls.

(** ** Concrete loggers, files and answers of the system *)

Module Ex.

Definition proc : Process := mkProcess (lit "host") 4242.
Definition app : str := lit "electron-main".

(** Every call succeeds; [fs.open] answers descriptor 7 and [fs.write]
    takes up to 4096 bytes. *)
Definition ok : Env :=
  mkEnv None None (inr 7) (inr 4096%nat) None None None.

(** As [ok], but [fs.write] takes [n] bytes only. *)
Definition short_write (n : nat) : Env :=
  mkEnv None None (inr 7) (inr n) None None None.

Definition write_fails : Env :=
  mkEnv None None (inr 7) (inl "EBADF"%string) None None None.

(** As [ok], but [fs.open] fails with [code]. *)
Definition open_fails (code : string) : Env :=
  mkEnv None None (inl code) (inr 4096%nat) None None None.

Definition disk (content : option (list N)) : World LogError :=
  mkWorld content None [] [].

(** The file of the test 'open on existing file': two lines, 43 bytes. *)
Definition text (x : value) : str :=
  match SerializeJSONProperty x with Text s => s | _ => [] end.
Definition two_lines : list N :=
  Buffer_from
    (text (Obj [(lit "some text", Str (lit "thats json"))]) ++ NL
     ++ text (Obj [(lit "more", Str (lit "text"))]) ++ NL).

(** A logger opened on [content], with [pending] queued, and the world
    it lives in. *)
Definition opened_on (content : list N) (pending : list str) : t :=
  set_pendingWrites pending
    (open ok (constructor app) (disk (Some content))).1.2.
Definition world_of (content : list N) : World LogError :=
  (open ok (constructor app) (disk (Some content))).2.


(** 4095 empty lines on disk and one more line queued. *)
Definition nearly_full_file : list N := replicate 4095 newLineByte.
Definition nearly_full : t := opened_on nearly_full_file [lit "x"].
Definition nearly_full_world : World LogError := world_of nearly_full_file.

(** A file of 32 MiB without a single newline, e.g. left behind by
    another program; the logger has opened it and queued one line. *)
Definition blob : list N := replicate (Z.to_nat 33554432) 65%N.
Definition on_blob : t :=
  mk app (Some 7) 0 33554432 0 0 [] None [lit "x"] true.
Definition blob_world : World LogError :=
  mkWorld (Some blob) None [SysMkdir; SysReadFile; SysOpen] [].

Definition cyclic : value := Obj [(lit "self", Circular)].

Definition long_fields : value :=
  Obj [(lit "largeStr", Str (replicate (Z.to_nat 40000) 65%N))].

(** The serialization of an ['info'] line that carries [long_fields]. *)
Definition long_line : str :=
  match
    stringifyLine proc app (lit "info") (lit "a really large msg")
      long_fields 0 None
  with
  | Normal s => s
  | Throw _ => []
  end.

End Ex.

(** ** destroy() *)

Module Teardown.

(** [fs.unlink(logFileLocation)], answered by [unlink_r]; a missing
    file is ['ENOENT'].  [Syscall] lists the calls of [open] and of a
    flush round, so this call is seen through [file] only. *)
Definition unlink (unlink_r : option Errno) (w : World LogError)
  : option Errno * World LogError :=
  match unlink_r, file w with
  | Some e, _ => (Some e, w)
  | None, None => (Some "ENOENT"%string, w)
  | None, Some _ => (None, set_file None w)
  end.

(** Lines 439-464.  As in [_truncate], [fs.close] refuses a descriptor
    that is not a number by throwing. *)
Definition destroy (env : Env) (unlink_r : option Errno) (st : t)
    (w : World LogError)
  : Completion Result * t * World LogError :=
  match fd st with
  | None => (Throw TypeError_fd, st, w)
  | Some fdv =>
      let '(closeErr, w) := close env fdv w in
      match closeErr with
      | Some e =>
          (Normal (Some (WError "destroy(): could not close" e)), st, w)
      | None =>
          let st := set_fd None st in
          let '(unlinkErr, w) := unlink unlink_r w in
          match unlinkErr with
          | Some e =>
              (Normal (Some (WError "destroy(): could not unlink" e)),
               st, w)
          | None => (Normal None, st, w)
          end
      end
  end.

End Teardown.

(** ** The earlier revision of the store *)

(** The second listing of [append-fs-logger.js] differs from the first in
    [_flush] and [_write] only. *)
Module Earlier.

(** Lines 675-757: [_flush] without the guard on [fd].  [fs.write], as
    [fs.close], refuses a descriptor that is not a number by throwing;
    the descriptor [0] is written to. *)
Definition _flush (env : Env) (st : t) (w : World LogError)
  : Completion Result * t * World LogError :=
  let pending := pendingWrites st in
  let st := set_pendingWrites [] st in
  let linesToBeWritten := Z.of_nat (length pending) in
  let buf := roundBuffer pending in
  match fd st with
  | Some fdv =>
      let '(r, w) := write env fdv buf w in
      let st := set__writeCalled (_writeCalled st + 1) st in
      match r with
      | inl e =>
          (Normal (Some (WError "_write() could not write(fd)" e)), st, w)
      | inr written =>
          rotate env (account linesToBeWritten buf written st) w
      end
  | None => (Throw TypeError_fd, st, w)
  end.

(** Lines 659-673. *)
Definition flush (env : Env) (st : t) (w : World LogError)
  : Outcome * t * World LogError :=
  match pendingFlush st with
  | Some e => (Rejected e, st, w)
  | None =>
      if bool_decide (pendingWrites st = []) then (Resolved, st, w)
      else
        let '(r, st, w) := _flush env st w in
        match r with
        | Throw e => (Rejected e, set_pendingFlush (Some e) st, w)
        | Normal r =>
            let st := set_pendingFlush None st in
            match r with
            | Some err => (Resolved, st, onError err w)
            | None => (Resolved, st, w)
            end
        end
  end.

(** Lines 640-657: [_write] without [try]/[catch]. *)
Definition _write (proc : Process) (env : Env) (level msg : str)
    (info : value) (time : Z) (st : t) (w : World LogError)
  : Outcome * t * World LogError :=
  match encode proc (productName st) level msg info time with
  | Normal str =>
      flush env (set_pendingWrites (pendingWrites st ++ [str]) st) w
  | Throw e => (Thrown e, st, w)
  end.

End Earlier.

(** ** Sequences of operations on the store and on the facade *)

(** The methods a holder of the logger can call: [open], [_write],
    [flush] and [destroy] of the store, and the level methods of the
    facade. *)
Inductive Op :=
| OpOpen (env : Env)
| OpWrite (env : Env) (level msg : str) (info : value) (time : Z)
| OpFlush (env : Env)
| OpLog (env : Env) (level : str) (msg info : value) (timestamp : Z)
| OpDestroy (env : Env) (unlink_r : option Errno).

Definition exec (proc : Process) (o : Op) (s : t * World LogError)
  : t * World LogError :=
  match o with
  | OpOpen env => let '(_, st, w) := open env s.1 s.2 in (st, w)
  | OpWrite env level msg info time =>
      let '(_, st, w) := _write proc env level msg info time s.1 s.2 in
      (st, w)
  | OpFlush env => let '(_, st, w) := flush env s.1 s.2 in (st, w)
  | OpLog env level msg info timestamp =>
      let '(_, st, w) :=
        MainLogger._log proc env level msg info timestamp s.1 s.2 in
      (st, w)
  | OpDestroy env unlink_r =>
      let '(_, st, w) := Teardown.destroy env unlink_r s.1 s.2 in (st, w)
  end.

Definition execAll (proc : Process) (ops : list Op) (s : t * World LogError)
  : t * World LogError :=
  foldl (λ s o, exec proc o s) s ops.

(** The [fs.write] calls of a trace, and the bytes they were handed. *)
Fixpoint writeCalls (tr : list Syscall) : Z :=
  match tr with
  | [] => 0
  | SysWrite _ _ :: rest => 1 + writeCalls rest
  | _ :: rest => writeCalls rest
  end.

Fixpoint bytesOffered (tr : list Syscall) : Z :=
  match tr with
  | [] => 0
  | SysWrite _ buf :: rest => Z.of_nat (length buf) + bytesOffered rest
  | _ :: rest => bytesOffered rest
  end.

(** ** Answers under which the bookkeeping stays exact *)



(** What some calls have added: as many counted writes as [fs.write]
    calls in the trace, and no more bytes than those calls were handed. *)
Definition Tally (st st' : t) (w w' : World LogError) : Prop :=
  _writeCalled st' - _writeCalled st
  = writeCalls (trace w') - writeCalls (trace w)
  ∧ 0 ≤ bytesWritten st' - bytesWritten st
      ≤ bytesOffered (trace w') - bytesOffered (trace w).


(** The operations of the write path: everything but [open] and
    [destroy]. *)
Definition on_write_path (o : Op) : Prop :=
  match o with
  | OpWrite _ _ _ _ _ | OpFlush _ | OpLog _ _ _ _ _ => True
  | OpOpen _ | OpDestroy _ _ => False
  end.

(** ** The facade: construction, console helpers, error fields *)

Module Facade.

(** *** Colours *)

(** ['\u001b[32m' + text + '\u001b[39m'] and ['\u001b[35m' + ...]. *)
Definition green (text : str) : str :=
  [27%N] ++ lit "[32m" ++ text ++ [27%N] ++ lit "[39m".
Definition magenta (text : str) : str :=
  [27%N] ++ lit "[35m" ++ text ++ [27%N] ++ lit "[39m".

(** *** The constructor *)

(** [String.prototype.padStart(targetLength, ' ')]. *)
Definition padStart (targetLength : nat) (s : str) : str :=
  replicate (targetLength - length s) 32%N ++ s.

(** The options the constructor reads; [None] is an absent key.  An
    absent string and the empty string are both falsy. *)
Record Options := mkOptions {
  fileName : option str;
  opt_shortName : option str;
  opt_console : bool;
  opt_prefix : option str;
  isMain : bool
}.

Definition given (o : option str) : str := default [] o.
Definition nonempty (s : str) : bool :=
  match s with [] => false | _ :: _ => true end.

Record t := mk {
  fsLogger : AppendOnlyFSLogger.t;
  console : bool;
  shortName : str;
  prefix : str;
  renderPrefix : str
}.

(** [new MainLogger(productName, options)]: the instance, or the
    message of the assertion that failed. *)
Definition constructor (productName : str) (options : Options)
  : string + t :=
  if negb (nonempty productName) then inl "productName required"%string
  else if negb (nonempty (given (fileName options))) then
    inl "options.fileName required"%string
  else if negb (negb (nonempty (given (opt_shortName options)))
                || (length (given (opt_shortName options)) <=? 7)%nat) then
    inl "options.shortName must be 7 char or less"%string
  else
    let fsLogger := AppendOnlyFSLogger.constructor productName in
    let console := opt_console options || false in
    let shortName :=
      if nonempty (given (opt_shortName options))
      then padStart 7 (given (opt_shortName options)) else [] in
    let prefix :=
      if nonempty (given (opt_prefix options))
      then given (opt_prefix options) else [] in
    let prefix :=
      if isMain options then
        let mainPrefix :=
          if nonempty shortName then shortName ++ lit ":main"
          else lit "main" in
        green mainPrefix ++ lit " "
      else prefix in
    let renderPrefix :=
      if nonempty shortName then shortName ++ lit ":rend"
      else lit "rend" in
    inr (mk fsLogger console shortName prefix
            (magenta renderPrefix ++ lit " ")).

(** *** pad and shortFormateTime *)

(** [String(number)] for an integral number; [None] is [NaN]. *)
Definition String_ (number : option Z) : str :=
  match number with
  | Some n => decimal n
  | None => lit "NaN"
  end.

(** [while (str.length < zeros) str = '0' + str]. *)
Function pad_while (zeros : nat) (s : str)
    {measure (λ s : str, (zeros - length s)%nat) s} : str :=
  if (length s <? zeros)%nat then pad_while zeros (48%N :: s) else s.
Proof. intros zeros s H. apply Nat.ltb_lt in H. cbn. lia. Defined.

(** [zeros] is optional: [zeros || 0]. *)
Definition pad (number : option Z) (zeros : option nat) : str :=
  let zeros := default 0%nat zeros in
  pad_while zeros (String_ number).

(** [new Date(timestamp)] for an integral [timestamp], read in local
    time: [tza] is the offset of local time from UTC at that instant,
    in milliseconds.  An invalid date answers [NaN] to every getter. *)
Definition localTime (tza timestamp : Z) : option Z :=
  if 8640000000000000 <? Z.abs timestamp then None
  else Some (timestamp + tza).
Definition getHours (tza timestamp : Z) : option Z :=
  (λ t, t / 3600000 mod 24) <$> localTime tza timestamp.
Definition getMinutes (tza timestamp : Z) : option Z :=
  (λ t, t / 60000 mod 60) <$> localTime tza timestamp.
Definition getSeconds (tza timestamp : Z) : option Z :=
  (λ t, t / 1000 mod 60) <$> localTime tza timestamp.
Definition getMilliseconds (tza timestamp : Z) : option Z :=
  (λ t, t mod 1000) <$> localTime tza timestamp.

Definition shortFormateTime (tza timestamp : Z) : str :=
  pad (getHours tza timestamp) None ++ lit "."
  ++ pad (getMinutes tza timestamp) None ++ lit "."
  ++ pad (getSeconds tza timestamp) None ++ lit "."
  ++ pad (getMilliseconds tza timestamp) (Some 3%nat).

(** *** Error values among the fields *)

(** An error object as [errorToObject] reads it: [name], [message],
    [type] and [stack], a [cause] method when there is one ([Some c]: a
    function that returns the error [c]), and its own enumerable
    properties, which the spread [{ ...err }] copies. *)
Inductive ErrorObject := mkError {
  e_name : str;
  e_message : str;
  e_type : option str;
  e_stack : str;
  e_cause : option ErrorObject;
  e_own : list (str * value)
}.

Fixpoint stackToString (e : ErrorObject) : str :=
  let stack := e_stack e in
  match e_cause e with
  | Some causeError =>
      stack ++ ([10%N] ++ lit "Caused by: ") ++ stackToString causeError
  | None => stack
  end.

(** [ret[key] = v] on an object literal: an existing key keeps its
    place, a new one goes last. *)
Fixpoint assign (key : str) (v : value) (props : list (str * value))
  : list (str * value) :=
  match props with
  | [] => [(key, v)]
  | (k, x) :: rest =>
      if bool_decide (k = key) then (k, v) :: rest
      else (k, x) :: assign key v rest
  end.

Definition errorToObject (err : ErrorObject) : list (str * value) :=
  let ret := e_own err in
  let ret := assign (lit "name") (Str (e_name err)) ret in
  let ret := assign (lit "message") (Str (e_message err)) ret in
  let ret :=
    assign (lit "type")
      (match e_type err with Some s => Str s | None => Undefined end) ret in
  assign (lit "stack") (Str (stackToString err)) ret.

(** [obj[key]] on an object whose keys are distinct. *)
Definition get (key : str) (props : list (str * value)) : option value :=
  (λ r : nat * (str * value), r.2.2) <$> list_find (λ p, p.1 = key) props.

(** The errors of a cause chain, outermost first. *)
Fixpoint causes (e : ErrorObject) : list ErrorObject :=
  e :: match e_cause e with Some c => causes c | None => [] end.

End Facade.

(** ** Further notions used by the statements *)

(** A reference to an object under serialization somewhere in [x]. *)
Fixpoint cyclic (x : value) : bool :=
  match x with
  | Circular => true
  | Arr xs => existsb cyclic xs
  | Obj props => existsb (λ p, cyclic p.2) props
  | _ => false
  end.

(** The number of newline bytes, that is of complete lines, of a file. *)
Definition newlines (content : list N) : Z :=
  Z.of_nat (length (filter (λ b, b = newLineByte) content)).


(** ** Concrete sessions *)

Module Cases.


(** An [open] on an empty disk, then 2048 lines of which [fs.write]
    takes no byte, and the logger these calls leave behind. *)
Definition starving : list Call :=
  CallOpen Ex.ok
  :: replicate 2048
       (CallLog (Ex.short_write 0) (lit "info") (Str (lit "m")) Undefined 0).
Definition starved : t * World LogError :=
  run Ex.proc starving (constructor Ex.app, Ex.disk None).

(** The line of the next call, and the logger after that call. *)
Definition line : str :=
  match encode Ex.proc Ex.app (lit "info") (lit "m") Undefined 0 with
  | Normal s => s
  | Throw _ => []
  end.
Definition wedged : t * World LogError :=
  step Ex.proc (CallLog Ex.ok (lit "info") (Str (lit "m")) Undefined 0)
    starved.

(** A message and a field that hold newlines. *)
Definition two_liner : str := lit "two" ++ NL ++ lit "lines".
Definition noted : value := Obj [(lit "note", Str (NL ++ lit "x" ++ NL))].
Definition two_liner_line : str :=
  match encode Ex.proc Ex.app (lit "warn") two_liner noted 0 with
  | Normal s => s
  | Throw _ => []
  end.

End Cases.

(** ** Calls that overlap a round *)

(** The bytes of some lines, each closed by a newline. *)
Definition bytes (ls : list str) : list N :=
  concat ((λ l, Buffer_from l ++ [newLineByte]) <$> ls).

(** [flush] and [_flush] are [async] functions: a call runs up to its
    first [await] and goes on in a later job.  The definitions above take
    a call while no round is in flight and run it to completion; [Loop]
    follows the calls of [_write] through the event loop instead, so that
    a call can find a round in flight.  One step is one task of the loop
    (a run of the caller's code, or a callback of the file system)
    together with the jobs it leaves behind. *)
Module Loop.
Import JS FS AppendOnlyFSLogger.

(** A call of [flush] parked at one of its two awaits: at line 224, on
    the round that was pending when it was called, or at line 230, on
    the round it has started itself. *)
Inductive Parked := AtEntry | Owner.

(** The promise of a round, as long as [this.pendingFlush] holds it.
    - [Writing fdv pending]: [_flush] is parked at line 257, in
      [write(this.fd, buf, ..)] with the descriptor [fdv] and the buffer
      of the snapshot [pending];
    - [Truncating r]: [_flush] is parked inside [_truncate]; nothing
      but the round reads or writes the file and the bookkeeping
      meanwhile, so the state holds them as the truncation leaves them
      and [r] is what the round is going to settle with;
    - [Settled r]: the promise has settled with [r], and the calls
      parked on it have not gone on yet. *)
Inductive Round :=
| Writing (fdv : Z) (pending : list str)
| Truncating (r : Completion Result)
| Settled (r : Completion Result).

(** [parked] lists the calls parked on [round], in the order in which
    they began to wait.  [overlapped] records that [this.pendingFlush]
    has stopped standing for the round in flight: line 229 has started
    a round while another one was in flight, or line 231 has reset the
    field while it held a round started since.  From then on the
    machine does not follow the code any more. *)
Record t := mk {
  logger : AppendOnlyFSLogger.t;
  world : World LogError;
  round : option Round;
  parked : list Parked;
  overlapped : bool
}.

Definition idle (st : AppendOnlyFSLogger.t) (w : World LogError) : t :=
  mk st w None [] false.

Definition in_flight (r : option Round) : bool :=
  match r with
  | Some (Writing _ _) | Some (Truncating _) => true
  | Some (Settled _) | None => false
  end.

(** Lines 229-230 and 240-257: [this.pendingFlush = this._flush()], up
    to the first [await] of [_flush], and the [await] of the caller. *)
Definition start_round (m : t) : t :=
  let pending := pendingWrites (logger m) in
  let st := set_pendingWrites [] (logger m) in
  mk st (world m)
    (Some match fd st with
          | Some fdv =>
              if fd_truthy (Some fdv) then Writing fdv pending
              else Settled (Normal (Some fd_is_null))
          | None => Settled (Normal (Some fd_is_null))
          end)
    [Owner]
    (overlapped m || in_flight (round m)).

(** Lines 225-230: the test of the queue and what follows it. *)
Definition proceed (m : t) : t :=
  if bool_decide (pendingWrites (logger m) = []) then m else start_round m.

(** One call of [_write(level, msg, info, time)]. *)
Record Entry := mkEntry {
  e_level : str;
  e_msg : str;
  e_info : value;
  e_time : Z
}.

(** Lines 188-230: [_write] up to the first [await] of its [flush].
    Awaiting a rejected [pendingFlush] makes [flush] reject in a later
    job, which changes nothing. *)
Definition call (proc : Process) (c : Entry) (m : t) : t :=
  match
    encode proc (productName (logger m)) (e_level c) (e_msg c) (e_info c)
      (e_time c)
  with
  | Throw unexpectedError =>
      mk (logger m)
        (onError (WErrorExn "_write() threw an unexpected exception"
                    unexpectedError) (world m))
        (round m) (parked m) (overlapped m)
  | Normal str =>
      let st := set_pendingWrites (pendingWrites (logger m) ++ [str])
                  (logger m) in
      match round m with
      | Some r =>
          mk st (world m) (Some r) (parked m ++ [AtEntry]) (overlapped m)
      | None =>
          match pendingFlush st with
          | Some _ => mk st (world m) None (parked m) (overlapped m)
          | None =>
              proceed (mk st (world m) None (parked m) (overlapped m))
          end
      end
  end.

(** The round has settled with [r]; the parked call [p] goes on.
    [started] tells whether a call that went on before it in the same
    run of jobs has started a round.
    - line 224 or line 230 throws when [r] is a rejection; at line 230
      [pendingFlush] keeps the rejected promise;
    - otherwise a call parked at line 224 goes on with lines 225-230,
      and one parked at line 230 with lines 231-236. *)
Definition resume (r : Completion Result) (acc : t * bool) (p : Parked)
  : t * bool :=
  let '(m, started) := acc in
  match r, p with
  | Throw e, Owner =>
      (mk (set_pendingFlush (Some e) (logger m)) (world m) None (parked m)
         (overlapped m), started)
  | Throw _, AtEntry => (m, started)
  | Normal res, Owner =>
      let w :=
        match res with
        | Some err => onError err (world m)
        | None => world m
        end in
      if started then (mk (logger m) w (round m) (parked m) true, started)
      else (mk (logger m) w None (parked m) (overlapped m), started)
  | Normal _, AtEntry =>
      if bool_decide (pendingWrites (logger m) = []) then (m, started)
      else if started
        then (mk (logger m) (world m) (round m) (parked m) true, started)
        else (start_round m, true)
  end.

(** The jobs of a settled round: the calls parked on it go on in the
    order in which they began to wait. *)
Definition drain_once (m : t) : t :=
  match round m with
  | Some (Settled r) =>
      (foldl (resume r)
         (mk (logger m) (world m) (round m) [] (overlapped m), false)
         (parked m)).1
  | _ => m
  end.

(** A round started by those jobs settles at once when the descriptor
    is missing; its jobs run in the same turn. *)
Definition drain (m : t) : t := drain_once (drain_once m).

(** Lines 257-327: [fs.write] calls back.  The call is entered in the
    trace here. *)
Definition write_done (env : Env) (m : t) : t :=
  match round m with
  | Some (Writing fdv pending) =>
      let buf := roundBuffer pending in
      let '(r, w) := write env fdv buf (world m) in
      let st := set__writeCalled (_writeCalled (logger m) + 1) (logger m) in
      match r with
      | inl e =>
          mk st w
            (Some (Settled
               (Normal (Some (WError "_write() could not write(fd)" e)))))
            (parked m) (overlapped m)
      | inr written =>
          let st1 := account (Z.of_nat (length pending)) buf written st in
          let '(res, st', w') := rotate env st1 w in
          let due :=
            (MAX_LOG_LINES <=? lines st1)
            || (MAX_LOG_FILE_SIZE <=? size st1) in
          mk st' w'
            (Some (if due then
                     match res with
                     | Throw RangeError_start => Settled res
                     | _ => Truncating res
                     end
                   else Settled res))
            (parked m) (overlapped m)
      end
  | _ => m
  end.

(** The last call of [_truncate] calls back. *)
Definition truncate_done (m : t) : t :=
  match round m with
  | Some (Truncating r) =>
      mk (logger m) (world m) (Some (Settled r)) (parked m) (overlapped m)
  | _ => m
  end.

(** The tasks: a run of the caller's code that makes the given calls of
    [_write], the callback of the [fs.write] in flight (with the
    answers of the file system for the rest of the round), and the
    callback that ends the truncation in flight. *)
Inductive Event :=
| Tick (calls : list Entry)
| WriteDone (env : Env)
| TruncateDone.

Definition step (proc : Process) (m : t) (ev : Event) : t :=
  drain
    match ev with
    | Tick calls => foldl (λ m c, call proc c m) m calls
    | WriteDone env => write_done env m
    | TruncateDone => truncate_done m
    end.

Definition run (proc : Process) (events : list Event) (m : t) : t :=
  foldl (step proc) m events.

(** The line a call queues, if it gets that far. *)
Definition accepted (proc : Process) (productName : str) (c : Entry)
  : list str :=
  match
    encode proc productName (e_level c) (e_msg c) (e_info c) (e_time c)
  with
  | Normal str => [str]
  | Throw _ => []
  end.

(** The lines that the calls of some tasks queue, in the order of the
    calls. *)
Definition offered (proc : Process) (productName : str)
    (events : list Event) : list str :=
  events ≫= λ ev,
    match ev with
    | Tick calls => calls ≫= accepted proc productName
    | _ => []
    end.

(** [fs.write] never fails in these tasks and takes [n] bytes or more
    at a time. *)
Definition takes (n : nat) (ev : Event) : bool :=
  match ev with
  | WriteDone env =>
      match write_r env with
      | inr k => bool_decide (n ≤ k)%nat
      | inl _ => false
      end
  | _ => true
  end.

(** The snapshot of the round in flight. *)
Definition snapshot (m : t) : list str :=
  match round m with
  | Some (Writing _ pending) => pending
  | _ => []
  end.



(** Every line that a call has queued is waited for: a queue that no
    parked call stands behind holds repair newlines only. *)
Definition Attended (m : t) : Prop :=
  match round m with
  | None =>
      pendingFlush (logger m) = None →
      Forall (λ l, l = NL) (pendingWrites (logger m))
  | Some _ =>
      ∃ n, parked m = Owner :: replicate n AtEntry
           ∧ (n = 0%nat → Forall (λ l, l = NL) (pendingWrites (logger m)))
  end.

(** A run of tasks in which every write is whole and no truncation
    comes due: the lines [queued] so far are those that have reached
    the file, then the snapshot of the round in flight, then the queue,
    and every line of the queue has a call parked at line 224. *)
Definition Flow (fdv : Z) (st0 : AppendOnlyFSLogger.t) (content : list N)
    (queued : list str) (m : t) : Prop :=
  ∃ done,
    queued = done ++ snapshot m ++ pendingWrites (logger m)
    ∧ file (world m) = Some (content ++ bytes done)
    ∧ fd (logger m) = Some fdv
    ∧ pendingFlush (logger m) = None
    ∧ productName (logger m) = productName st0
    ∧ lines (logger m) = lines st0 + Z.of_nat (length done)
    ∧ size (logger m) = size st0 + Z.of_nat (length (bytes done))
    ∧ overlapped m = false
    ∧ match round m with
      | None => parked m = [] ∧ pendingWrites (logger m) = []
      | Some (Writing fdv' pending) =>
          fdv' = fdv ∧ pending ≠ []
          ∧ parked m
            = Owner :: replicate (length (pendingWrites (logger m))) AtEntry
      | Some _ => False
      end.

End Loop.

(** ** Concrete schedules *)

Module Bursts.

(** The call of the test 'concurrent writes are batched', and its
    line. *)
Definition entry : Loop.Entry :=
  Loop.mkEntry (lit "info") (lit "a simple msg")
    (Obj [(lit "with", Str (lit "a field"))]) 0.
Definition line : str :=
  match
    encode Ex.proc Ex.app (lit "info") (lit "a simple msg")
      (Obj [(lit "with", Str (lit "a field"))]) 0
  with
  | Normal s => s
  | Throw _ => []
  end.

(** A logger opened on the two lines of [Ex.two_lines]. *)
Definition opened : t := Ex.opened_on Ex.two_lines [].
Definition disk : World LogError := Ex.world_of Ex.two_lines.

(** The five calls of that test, and the callbacks of the two rounds
    they take. *)
Definition batched : list Loop.Event :=
  [Loop.Tick (replicate 5 entry); Loop.WriteDone Ex.ok;
   Loop.WriteDone Ex.ok].

(** Two calls, a callback, a third call while the second round is in
    flight, and the callback of that round. *)
Definition staggered : list Loop.Event :=
  [Loop.Tick [entry; entry]; Loop.WriteDone Ex.ok; Loop.Tick [entry];
   Loop.WriteDone Ex.ok].

(** Three calls, a write that fails, and the callback of the round
    that follows. *)
Definition failing : list Loop.Event :=
  [Loop.Tick (replicate 3 entry); Loop.WriteDone Ex.write_fails;
   Loop.WriteDone Ex.ok].

(** A call whose write takes ten bytes only. *)
Definition short : list Loop.Event :=
  [Loop.Tick [entry]; Loop.WriteDone (Ex.short_write 10)].

(** A call, two more while its write is in flight, a write that takes
    ten bytes only, and the callback of the next round. *)
Definition torn : list Loop.Event :=
  [Loop.Tick [entry]; Loop.Tick [entry; entry];
   Loop.WriteDone (Ex.short_write 10); Loop.WriteDone Ex.ok].

End Bursts.

(** ** Proof automation for the frame lemmas *)

Ltac nnw :=
  unfold no_new_write; cbn; rewrite <- ?app_assoc; cbn;
  first
    [ by (exists []; rewrite app_nil_r)
    | eexists; split; [reflexivity|];
      repeat (constructor; [cbn; tauto|]); by constructor ].

Ltac ffile :=
  let c := fresh "c" in
  let Hc := fresh "Hc" in
  intros c Hc; simplify_eq; cbn in *; simplify_eq;
  first [ by exists 0%nat | by eauto ].

Ltac frame := split_and!; [done | done | nnw | done | ffile | done].

(** * Lemmas and theorems *)

(** ** Facts about the scanning loop *)

Section ScanNewLines.
Implicit Types (base off : Z) (buf : list N).

Lemma scanNewLines_app base buf1 buf2 :
  scanNewLines base (buf1 ++ buf2)
  = scanNewLines base buf1
      ++ scanNewLines (base + Z.of_nat (length buf1)) buf2.
Proof.
  revert base. induction buf1 as [|b buf1 IH]; intros base; simpl.
  - by rewrite Z.add_0_r.
  - rewrite IH. replace (base + 1 + Z.of_nat (length buf1))
      with (base + Z.pos (Pos.of_succ_nat (length buf1))) by lia.
    by destruct (b =? newLineByte)%N.
Qed.

Lemma scanNewLines_shift base d buf :
  scanNewLines (base + d) buf = (λ o, o + d) <$> scanNewLines base buf.
Proof.
  revert base. induction buf as [|b buf IH]; intros base; simpl; [done|].
  replace (base + d + 1) with (base + 1 + d) by lia. rewrite IH.
  by destruct (b =? newLineByte)%N.
Qed.

Lemma scanNewLines_lower base buf off :
  off ∈ scanNewLines base buf → base ≤ off < base + Z.of_nat (length buf).
Proof.
  revert base. induction buf as [|b buf IH]; intros base; simpl.
  - by intros ?%elem_of_nil.
  - destruct (b =? newLineByte)%N.
    + intros [->|H%IH]%elem_of_cons; lia.
    + intros H%IH; lia.
Qed.

Lemma scanNewLines_sorted base buf :
  StronglySorted Z.lt (scanNewLines base buf).
Proof.
  revert base. induction buf as [|b buf IH]; intros base; simpl.
  - constructor.
  - destruct (b =? newLineByte)%N; [|apply IH].
    constructor; [apply IH|]. apply list.Forall_forall. intros o Ho.
    apply scanNewLines_lower in Ho. lia.
Qed.

(** The recorded offsets are exactly the positions of the newline bytes. *)
Lemma scanNewLines_elem base buf off :
  off ∈ scanNewLines base buf
  ↔ base ≤ off ∧ buf !! Z.to_nat (off - base) = Some newLineByte.
Proof.
  revert base. induction buf as [|b buf IH]; intros base; simpl.
  - split; [by intros ?%elem_of_nil | by intros [_ ?]].
  - destruct (N.eqb_spec b newLineByte) as [->|Hb].
    + rewrite elem_of_cons, IH. split.
      * intros [->|[Hle Hl]].
        -- split; [lia|]. by rewrite Z.sub_diag.
        -- split; [lia|].
           replace (Z.to_nat (off - base))
             with (S (Z.to_nat (off - (base + 1)))) by lia. done.
      * intros [Hle Hl]. destruct (decide (off = base)) as [->|Hne]; [by left|].
        right. split; [lia|].
        replace (Z.to_nat (off - base))
          with (S (Z.to_nat (off - (base + 1)))) in Hl by lia. done.
    + rewrite IH. split.
      * intros [Hle Hl]. split; [lia|].
        replace (Z.to_nat (off - base))
          with (S (Z.to_nat (off - (base + 1)))) by lia. done.
      * intros [Hle Hl]. destruct (decide (off = base)) as [->|Hne].
        -- rewrite Z.sub_diag in Hl. simpl in Hl. congruence.
        -- split; [lia|].
           replace (Z.to_nat (off - base))
             with (S (Z.to_nat (off - (base + 1)))) in Hl by lia. done.
Qed.

(** Cutting right after the newline recorded at index [i] leaves
    [i + 1] newlines before the cut. *)
Lemma scanNewLines_cut base buf i off :
  scanNewLines base buf !! i = Some off →
  length (scanNewLines base (take (Z.to_nat (off - base + 1)) buf)) = S i
  ∧ (Z.to_nat (off - base + 1) ≤ length buf)%nat.
Proof.
  revert base i. induction buf as [|b buf IH]; intros base i; simpl; [done|].
  destruct (N.eqb_spec b newLineByte) as [->|Hb].
  - destruct i as [|i]; simpl.
    + intros [= ->]. rewrite Z.sub_diag. simpl. split; [done|lia].
    + intros Hi. pose proof Hi as Hin%list_elem_of_lookup_2%scanNewLines_lower.
      destruct (IH _ _ Hi) as [Hlen Hle].
      replace (Z.to_nat (off - base + 1))
        with (S (Z.to_nat (off - (base + 1) + 1))) by lia.
      simpl. rewrite Hlen. split; [done|lia].
  - intros Hi. pose proof Hi as Hin%list_elem_of_lookup_2%scanNewLines_lower.
    destruct (IH _ _ Hi) as [Hlen Hle].
    replace (Z.to_nat (off - base + 1))
      with (S (Z.to_nat (off - (base + 1) + 1))) by lia.
    simpl. destruct (N.eqb_spec b newLineByte); [done|].
    rewrite Hlen. split; [done|lia].
Qed.

(** What the non-degenerate branch of [_truncate] computes is the scan
    of the retained tail of the file. *)
Lemma scanNewLines_drop content i off :
  scanNewLines 0 content !! i = Some off →
  scanNewLines 0 (drop (Z.to_nat (off + 1)) content)
  = (λ o, o - (off + 1)) <$> drop (S i) (scanNewLines 0 content).
Proof.
  intros Hi. pose proof Hi as Hin%list_elem_of_lookup_2%scanNewLines_lower.
  destruct (scanNewLines_cut _ _ _ _ Hi) as [Hlen Hle].
  rewrite Z.sub_0_r in Hlen, Hle.
  rewrite <- (take_drop (Z.to_nat (off + 1)) content) at 2.
  rewrite scanNewLines_app, drop_app_length'; [|done].
  rewrite length_take, Nat.min_l by lia.
  rewrite Z.add_0_l, Z2Nat.id by lia.
  rewrite <- (Z.add_0_l (off + 1)) at 2. rewrite scanNewLines_shift.
  rewrite <- list_fmap_compose. rewrite <- (list_fmap_id (scanNewLines 0 _)) at 1.
  apply list_fmap_ext. intros _ o _. simpl. lia.
Qed.

End ScanNewLines.

(** ** Facts about [Buffer.from] and the buffer of a round *)

Section BufferFrom.
Implicit Types (s t : str) (c d : N).

(** Induction that follows the recursion of [Buffer_from] and
    [quote_body], which look at two code units at a time. *)
Lemma str_pair_ind (P : str → Prop) :
  P [] → (∀ c, P [c]) → (∀ c d s, P s → P (d :: s) → P (c :: d :: s)) →
  ∀ s, P s.
Proof.
  intros Hnil Hone Hstep s.
  cut (P s ∧ ∀ c, P (c :: s)); [tauto|].
  induction s as [|d s [IH1 IH2]]; split; auto.
Qed.

Lemma lor_high_bit_ne_newline (a b : N) :
  N.testbit a 7 = true → N.lor a b ≠ newLineByte.
Proof.
  intros Ha Heq. apply (f_equal (λ x, N.testbit x 7)) in Heq.
  rewrite N.lor_spec, Ha in Heq. discriminate.
Qed.

Lemma utf8_encode_newline_free cp :
  cp ≠ newLineByte → newLineByte ∉ utf8_encode cp.
Proof.
  intros Hcp. unfold utf8_encode.
  repeat case_match; rewrite ?not_elem_of_cons; repeat split;
    try apply not_elem_of_nil; try congruence;
    apply not_eq_sym, lor_high_bit_ne_newline; reflexivity.
Qed.

Lemma Buffer_from_newline_free s :
  newline_free s → newLineByte ∉ Buffer_from s.
Proof.
  unfold newline_free. induction s as [|c|c d s IH1 IH2] using str_pair_ind.
  - intros _. apply not_elem_of_nil.
  - intros [Hc _]%not_elem_of_cons. cbn [Buffer_from].
    repeat case_match; rewrite ?app_nil_r; apply utf8_encode_newline_free;
      done.
  - intros [Hc [Hd Hs]%not_elem_of_cons]%not_elem_of_cons.
    assert (newLineByte ∉ d :: s) as Hds by (apply not_elem_of_cons; done).
    change (Buffer_from (c :: d :: s)) with
      (if is_high c then
         if is_low d then utf8_encode (code_point c d) ++ Buffer_from s
         else utf8_encode 65533 ++ Buffer_from (d :: s)
       else if is_low c then utf8_encode 65533 ++ Buffer_from (d :: s)
       else utf8_encode c ++ Buffer_from (d :: s)).
    repeat case_match; rewrite not_elem_of_app; split; auto;
      apply utf8_encode_newline_free; try done.
    unfold code_point, newLineByte. lia.
Qed.

(** A newline code unit is one newline byte, whatever surrounds it. *)
Lemma Buffer_from_newline s t :
  Buffer_from (s ++ newLineByte :: t)
  = Buffer_from s ++ newLineByte :: Buffer_from t.
Proof.
  induction s as [|c|c d s IH1 IH2] using str_pair_ind.
  - reflexivity.
  - cbn [Buffer_from app].
    replace (is_low newLineByte) with false by reflexivity.
    replace (is_high newLineByte) with false by reflexivity.
    change (utf8_encode newLineByte) with [newLineByte].
    repeat case_match; by rewrite <- ?app_assoc, ?app_nil_r.
  - change (Buffer_from (c :: d :: s)) with
      (if is_high c then
         if is_low d then utf8_encode (code_point c d) ++ Buffer_from s
         else utf8_encode 65533 ++ Buffer_from (d :: s)
       else if is_low c then utf8_encode 65533 ++ Buffer_from (d :: s)
       else utf8_encode c ++ Buffer_from (d :: s)).
    change (Buffer_from ((c :: d :: s) ++ newLineByte :: t)) with
      (if is_high c then
         if is_low d
         then utf8_encode (code_point c d) ++ Buffer_from (s ++ newLineByte :: t)
         else utf8_encode 65533 ++ Buffer_from ((d :: s) ++ newLineByte :: t)
       else if is_low c
         then utf8_encode 65533 ++ Buffer_from ((d :: s) ++ newLineByte :: t)
       else utf8_encode c ++ Buffer_from ((d :: s) ++ newLineByte :: t)).
    rewrite IH1, IH2. repeat case_match; by rewrite <- ?app_assoc.
Qed.

(** [l1 + '\n' + l2 + '\n' + ... + ln + '\n']. *)
Lemma join_NL_trailing (pending : list str) :
  pending ≠ [] → join NL pending ++ NL = concat ((λ l, l ++ NL) <$> pending).
Proof.
  induction pending as [|l [|l' pending] IH]; intros Hne; [done| |].
  - simpl. by rewrite app_nil_r.
  - change (join NL (l :: l' :: pending))
      with (l ++ NL ++ join NL (l' :: pending)).
    rewrite fmap_cons, concat_cons, <- IH by done.
    by rewrite <- !app_assoc.
Qed.

Lemma roundBuffer_concat (pending : list str) :
  pending ≠ [] →
  roundBuffer pending
  = concat ((λ l, Buffer_from l ++ [newLineByte]) <$> pending).
Proof.
  intros Hne. unfold roundBuffer. rewrite join_NL_trailing by done.
  clear Hne. induction pending as [|l pending IH]; [done|].
  rewrite !fmap_cons, !concat_cons, <- IH. unfold NL.
  rewrite <- app_assoc. simpl. rewrite Buffer_from_newline.
  by rewrite <- app_assoc.
Qed.

Lemma scanNewLines_newline_free base (buf : list N) :
  newLineByte ∉ buf → scanNewLines base buf = [].
Proof.
  revert base. induction buf as [|b buf IH]; intros base; [done|].
  intros [Hb Hbuf]%not_elem_of_cons. simpl.
  destruct (N.eqb_spec b newLineByte); [congruence|]. by apply IH.
Qed.

(** A round whose lines are free of newlines writes one newline byte
    per line. *)
Lemma roundBuffer_newlines base (pending : list str) :
  pending ≠ [] → Forall newline_free pending →
  length (scanNewLines base (roundBuffer pending)) = length pending.
Proof.
  intros Hne Hfree. rewrite roundBuffer_concat by done. clear Hne.
  revert base. induction Hfree as [|l pending Hl _ IH]; intros base; [done|].
  rewrite fmap_cons, concat_cons, <- app_assoc, !scanNewLines_app.
  rewrite (scanNewLines_newline_free _ (Buffer_from l))
    by by apply Buffer_from_newline_free.
  simpl. by rewrite IH.
Qed.

End BufferFrom.

Lemma scanNewLines_length base (buf : list N) :
  length (scanNewLines base buf)
  = length (filter (λ b, b = newLineByte) buf).
Proof.
  revert base. induction buf as [|b buf IH]; intros base; [done|]. simpl.
  rewrite filter_cons. destruct (N.eqb_spec b newLineByte), (decide _);
    try done; simpl; by rewrite IH.
Qed.

(** ** open() *)

(** The four ways in which [open] fails. *)
Lemma open_fails (env : Env) (st : t) (w : World LogError) (err : LogError) :
  (open env st w).1.1 = Some err →
  let w' := (open env st w).2 in
  (fd_truthy (fd st) = true
     ∧ err = PlainError "Cannot open twice()" ∧ trace w' = trace w ++ [])
  ∨ (fd_truthy (fd st) = false ∧ ∃ e,
       mkdir_r env = Some e
       ∧ err = OpenFailError "Could not mkdir for log file" e false
       ∧ trace w' = trace w ++ [SysMkdir])
  ∨ (fd_truthy (fd st) = false ∧ mkdir_r env = None ∧ ∃ e,
       (readFile env (log SysMkdir w)).1 = inl e ∧ e ≠ "ENOENT"%string
       ∧ err = OpenFailError "Could not read old file" e false
       ∧ trace w' = trace w ++ [SysMkdir; SysReadFile])
  ∨ (fd_truthy (fd st) = false ∧ mkdir_r env = None
       ∧ (∀ e, (readFile env (log SysMkdir w)).1 = inl e → e = "ENOENT"%string)
       ∧ ∃ e,
       open_r env = inl e
       ∧ err = OpenFailError "Could not open log file" e (String.eqb e "EACCES")
       ∧ trace w' = trace w ++ [SysMkdir; SysReadFile; SysOpen]).
Proof.
  assert (∀ st0 w0, (open_descriptor env st0 w0).1.1 = Some err →
    ∃ e, open_r env = inl e
      ∧ err = OpenFailError "Could not open log file" e (String.eqb e "EACCES")
      ∧ trace (open_descriptor env st0 w0).2 = trace w0 ++ [SysOpen]) as Hstep.
  { intros st0 w0. unfold open_descriptor, FS.open.
    destruct (open_r env) as [e|fd']; cbn; [|done]. intros [= <-].
    exists e. by destruct (String.eqb e "EACCES"). }
  unfold open, mkdir.
  destruct (fd_truthy (fd st)) eqn:Hfd; cbn.
  { intros [= <-]. left. by rewrite app_nil_r. }
  destruct (mkdir_r env) as [e0|] eqn:Hmk; cbn.
  { intros [= <-]. right; left. eauto. }
  unfold readFile. cbn.
  destruct (readFile_r env) as [e1|] eqn:Hrd; cbn.
  - destruct (String.eqb_spec e1 "ENOENT") as [->|Hne]; cbn.
    + intros (e & He & -> & Htr)%Hstep. do 3 right.
      split_and!; try done; [by intros ? [= <-]|].
      exists e. split_and!; try done. rewrite Htr. cbn. by rewrite <- !app_assoc.
    + intros [= <-]. right; right; left. split_and!; try done.
      exists e1. split_and!; try done. cbn. by rewrite <- !app_assoc.
  - destruct (file w) as [B|] eqn:HB; cbn.
    + intros (e & He & -> & Htr)%Hstep. do 3 right.
      split_and!; try done.
      exists e. split_and!; try done. rewrite Htr. cbn. by rewrite <- !app_assoc.
    + intros (e & He & -> & Htr)%Hstep. do 3 right.
      split_and!; try done; [by intros ? [= <-]|].
      exists e. split_and!; try done. rewrite Htr. cbn. by rewrite <- !app_assoc.
Qed.


(** C8: a failing [open] returns an error with [shouldBail = true]
    exactly when the descriptor-open step was reached and failed with
    [EACCES]; a failing [mkdir] or a failing read of the old file gives an
    [OpenFailError] around the cause with [shouldBail = false], and so does
    every other failure of the descriptor-open step. *)
Theorem C8_shouldBail_iff_descriptor_open_EACCES
    (env : Env) (st : t) (w : World LogError) (err : LogError) :
  (open env st w).1.1 = Some err →
  let w' := (open env st w).2 in
  let reached_open := trace w' = trace w ++ [SysMkdir; SysReadFile; SysOpen] in
  (shouldBail err = Some true
   ↔ reached_open ∧ open_r env = inl "EACCES"%string)
  ∧ (∀ e, fd_truthy (fd st) = false → mkdir_r env = Some e →
          err = OpenFailError "Could not mkdir for log file" e false)
  ∧ (∀ e, fd_truthy (fd st) = false → mkdir_r env = None →
          (readFile env (log SysMkdir w)).1 = inl e → e ≠ "ENOENT"%string →
          err = OpenFailError "Could not read old file" e false)
  ∧ (∀ e, reached_open → open_r env = inl e → e ≠ "EACCES"%string →
          err = OpenFailError "Could not open log file" e false).
Proof.
  intros Herr. cbn zeta.
  destruct (open_fails _ _ _ _ Herr)
    as [(Hfd & -> & Htr)
       |[(Hfd & e0 & Hmk & -> & Htr)
        |[(Hfd & Hmk & e0 & Hrd & Hne & -> & Htr)
         |(Hfd & Hmk & Hrd & e0 & Hop & -> & Htr)]]];
    rewrite Htr; cbn.
  - split_and!.
    + split; [done|]. by intros [?%app_inv_head _].
    + congruence.
    + congruence.
    + by intros e ?%app_inv_head.
  - split_and!.
    + split; [done|]. by intros [?%app_inv_head _].
    + congruence.
    + congruence.
    + by intros e ?%app_inv_head.
  - split_and!.
    + split; [done|]. by intros [?%app_inv_head _].
    + congruence.
    + congruence.
    + by intros e ?%app_inv_head.
  - split_and!.
    + rewrite Hop. destruct (String.eqb_spec e0 "EACCES") as [Heq|Hne].
      * by rewrite Heq.
      * split; [done|]. intros [_ [= Heq]]. done.
    + congruence.
    + intros e _ _ He Hne. apply Hrd in He. done.
    + intros e _ He Hne. rewrite Hop in He. injection He as ->.
      by destruct (String.eqb_spec e "EACCES").
Qed.

(** ** One flush round, step by step *)

Lemma fd_truthy_Some fdv : fdv ≠ 0 → fd_truthy (Some fdv) = true.
Proof. intros H. unfold fd_truthy. by destruct (Z.eqb_spec fdv 0). Qed.

Lemma _flush_written env st w fdv n :
  fd st = Some fdv → fdv ≠ 0 → write_r env = inr n →
  _flush env st w
  = rotate env (afterWrite n st)
      (write env fdv (roundBuffer (pendingWrites st)) w).2.
Proof.
  intros Hfd Hne Hw. unfold _flush, afterWrite, write. cbn.
  rewrite Hfd, Hw. cbn. destruct (Z.eqb_spec fdv 0); done.
Qed.

Lemma write_world env fdv buf (w : World LogError) n :
  write_r env = inr n →
  let w1 := (write env fdv buf w).2 in
  file w1 = (λ c, c ++ take n buf) <$> file w
  ∧ tmp w1 = tmp w
  ∧ trace w1 = trace w ++ [SysWrite fdv buf]
  ∧ reported w1 = reported w.
Proof. intros Hw. unfold write. rewrite Hw. done. Qed.

Lemma afterWrite_fields n st :
  let buf := roundBuffer (pendingWrites st) in
  let st1 := afterWrite n st in
  fd st1 = fd st
  ∧ lines st1 = lines st + Z.of_nat (length (pendingWrites st))
  ∧ size st1 = size st + Z.of_nat (length (take n buf))
  ∧ bytesWritten st1 = bytesWritten st + Z.of_nat (length (take n buf))
  ∧ _writeCalled st1 = _writeCalled st + 1
  ∧ newLineOffsets st1
    = newLineOffsets st ++ scanNewLines (size st) (take n buf)
  ∧ pendingWrites st1 = (if decide (length buf ≤ n)%nat then [] else [NL])
  ∧ pendingFlush st1 = pendingFlush st
  ∧ hasOpened st1 = hasOpened st
  ∧ productName st1 = productName st.
Proof.
  unfold afterWrite, account. cbn zeta.
  set (buf := roundBuffer (pendingWrites st)).
  rewrite Nat2Z.id.
  assert (take (length (take n buf)) buf = take n buf) as Htake.
  { rewrite length_take. destruct (decide (n ≤ length buf)%nat).
    - by rewrite Nat.min_l.
    - rewrite Nat.min_r by lia. rewrite !take_ge by lia. done. }
  rewrite Htake.
  destruct (Z.eqb_spec (Z.of_nat (length (take n buf))) (Z.of_nat (length buf)))
    as [Heq|Hneq]; cbn; split_and!; try done.
  - rewrite length_take in Heq. case_decide; [done|lia].
  - rewrite length_take in Hneq. case_decide; [lia|done].
Qed.

(** The successful run of the non-degenerate branch of [_truncate]. *)
Lemma _truncate_ok env pos idx st w content fdv fd' :
  0 ≤ pos → 0 ≤ idx → file w = Some content → fd st = Some fdv →
  pipeline_r env = None → rename_r env = None →
  open_r env = inr fd' → close_r env = None →
  ∃ st' w',
    _truncate env (Some pos) idx st w = (Normal None, st', w')
    ∧ lines st' = lines st - idx - 1
    ∧ size st' = size st - pos
    ∧ newLineOffsets st'
      = (λ o, o - pos) <$> drop (Z.to_nat (idx + 1)) (newLineOffsets st)
    ∧ fd st' = Some fd'
    ∧ pendingWrites st' = pendingWrites st
    ∧ _writeCalled st' = _writeCalled st
    ∧ file w' = Some (drop (Z.to_nat pos) content)
    ∧ trace w'
      = trace w ++ [SysPipeline pos; SysRename; SysOpen; SysClose fdv]
    ∧ reported w' = reported w.
Proof.
  intros Hpos Hidx Hfile Hfd Hpipe Hren Hopen Hclose.
  unfold _truncate, pipeline, rename, FS.open, close, slice_from. cbn.
  destruct (Z.ltb_spec pos 0); [lia|].
  rewrite Hpipe, Hfile. cbn. rewrite Hren. cbn.
  destruct (Z.eqb_spec idx (-1)); [lia|].
  rewrite Hopen. cbn. rewrite Hfd, Hclose.
  destruct (Z.ltb_spec (idx + 1) 0); [lia|].
  eexists _, _. split; [reflexivity|]. cbn. split_and!; try done.
  by rewrite <- !app_assoc.
Qed.

(** Conversely, a [_truncate] that completes without an error ran the
    non-degenerate branch, as long as the descriptor is truthy. *)
Lemma _truncate_completed env position idx st w st' w' :
  fd_truthy (fd st) = true → -1 ≤ idx →
  _truncate env position idx st w = (Normal None, st', w') →
  ∃ pos content fdv fd',
    position = Some pos ∧ 0 ≤ pos ∧ 0 ≤ idx
    ∧ file w = Some content ∧ fd st = Some fdv
    ∧ pipeline_r env = None ∧ rename_r env = None
    ∧ open_r env = inr fd' ∧ close_r env = None.
Proof.
  intros Hfd Hidx. unfold _truncate.
  destruct position as [pos|]; [|done].
  destruct (Z.ltb_spec pos 0); [done|].
  unfold pipeline. cbn.
  destruct (pipeline_r env) eqn:Hpipe; [done|].
  destruct (file w) as [content|] eqn:Hfile; [|done]. cbn.
  unfold rename. cbn. destruct (rename_r env) eqn:Hren; [done|]. cbn.
  destruct (fd st) as [fdv|] eqn:Hfdv; [|done].
  destruct (Z.eqb_spec idx (-1)) as [->|Hne].
  - cbn. unfold close.
    destruct (close_r env); [done|]. unfold open. cbn in *. rewrite Hfdv. cbn. rewrite Hfd. done.
  - unfold FS.open. cbn.
    destruct (open_r env) as [e|fd'] eqn:Hopen; [done|]. cbn.
    unfold close. destruct (close_r env) eqn:Hclose; [done|].
    intros _. exists pos, content, fdv, fd'. split_and!; try done; lia.
Qed.

(** ** The truncation triggers *)

Lemma findCut_spec (minimumOffset : Z) (offsets : list Z) :
  (findCut minimumOffset offsets = (minimumOffset, -1)
    ∧ ∀ o, o ∈ offsets → o ≤ minimumOffset)
  ∨ (∃ (i : nat) (o : Z),
       findCut minimumOffset offsets = (o, Z.of_nat i)
       ∧ offsets !! i = Some o ∧ minimumOffset < o
       ∧ ∀ (j : nat) (y : Z),
           offsets !! j = Some y → (j < i)%nat → y ≤ minimumOffset).
Proof.
  unfold findCut.
  destruct (list_find _ offsets) as [[i o]|] eqn:Hfind.
  - right. apply list_find_Some in Hfind as (Hi & Ho & Hfirst).
    exists i, o. split_and!; try done.
    intros j y Hj Hlt. specialize (Hfirst j y Hj Hlt). lia.
  - left. split; [done|]. intros o Ho.
    apply list_find_None in Hfind.
    rewrite list.Forall_forall in Hfind. specialize (Hfind o Ho). lia.
Qed.

Lemma _truncate_cutAt env (i : nat) off st1 w1 st' w' :
  fd_truthy (fd st1) = true →
  newLineOffsets st1 !! i = Some off →
  _truncate env (Some (off + 1)) (Z.of_nat i) st1 w1 = (Normal None, st', w') →
  cutAt i off st1 st' w1 w'.
Proof.
  intros Hfd Hi Hrun.
  assert (-1 ≤ Z.of_nat i) as Hidx by lia.
  destruct (_truncate_completed _ _ _ _ _ _ _ Hfd Hidx Hrun)
    as (pos & content & fdv & fd' & [= <-] & Hpos & _ & Hfile & Hfdv
        & Hpipe & Hren & Hopen & Hclose).
  destruct (_truncate_ok env (off + 1) (Z.of_nat i) st1 w1 content fdv fd')
    as (st'' & w'' & Hrun' & Hl & Hs & Ho & Hf & Hp & Hwc & Hfile' & Htr & Hrep);
    try done; [lia|].
  rewrite Hrun in Hrun'. injection Hrun' as <- <-.
  exists content, fdv, fd'.
  replace (Z.to_nat (Z.of_nat i + 1)) with (S i) in Ho by lia.
  split_and!; done.
Qed.

Lemma rotate_completed env st1 w1 st' w' :
  fd_truthy (fd st1) = true →
  rotate env st1 w1 = (Normal None, st', w') →
  (lines st1 < MAX_LOG_LINES ∧ size st1 < MAX_LOG_FILE_SIZE
     ∧ st' = st1 ∧ w' = w1)
  ∨ (MAX_LOG_LINES ≤ lines st1
     ∧ ∃ off, cutAt 1024 off st1 st' w1 w')
  ∨ (lines st1 < MAX_LOG_LINES ∧ MAX_LOG_FILE_SIZE ≤ size st1
     ∧ ∃ i off,
         cutAt i off st1 st' w1 w'
         ∧ MAX_LOG_FILE_SIZE / 4 < off
         ∧ ∀ (j : nat) y, newLineOffsets st1 !! j = Some y → (j < i)%nat →
                          y ≤ MAX_LOG_FILE_SIZE / 4).
Proof.
  intros Hfd. unfold rotate.
  destruct (Z.leb_spec MAX_LOG_LINES (lines st1)) as [Hlines|Hlines].
  - intros Hrun. right; left. split; [done|].
    change (MAX_LOG_LINES / 4) with (Z.of_nat 1024) in Hrun.
    rewrite Nat2Z.id in Hrun.
    destruct (newLineOffsets st1 !! 1024%nat) as [off|] eqn:Hoff; [|done].
    exists off. by eapply _truncate_cutAt.
  - destruct (Z.leb_spec MAX_LOG_FILE_SIZE (size st1)) as [Hsize|Hsize].
    + intros Hrun. right; right. split_and!; try done.
      destruct (findCut_spec (MAX_LOG_FILE_SIZE / 4) (newLineOffsets st1))
        as [[Hcut _]|(i & o & Hcut & Hi & Hlt & Hfirst)];
        rewrite Hcut in Hrun.
      * apply _truncate_completed in Hrun; [|done|lia].
        destruct Hrun as (? & ? & ? & ? & _ & _ & ? & _). lia.
      * exists i, o. split_and!; try done. by eapply _truncate_cutAt.
    + intros [= <- <-]. by left.
Qed.

(** ** The bookkeeping invariant *)

Lemma Synced_nonneg st w o :
  Synced st w → o ∈ newLineOffsets st → 0 ≤ o.
Proof.
  intros (content & _ & _ & ->) Ho%scanNewLines_lower. lia.
Qed.

Lemma Synced_sorted st w :
  Synced st w → StronglySorted Z.lt (newLineOffsets st).
Proof. intros (content & _ & _ & ->). apply scanNewLines_sorted. Qed.

Lemma Synced_positions st w o :
  Synced st w →
  o ∈ newLineOffsets st →
  ∃ content, file w = Some content ∧ 0 ≤ o < size st
             ∧ content !! Z.to_nat o = Some newLineByte.
Proof.
  intros (content & Hfile & Hsize & ->) Ho. exists content.
  pose proof (scanNewLines_lower _ _ _ Ho).
  apply scanNewLines_elem in Ho as [_ Ho]. rewrite Z.sub_0_r in Ho.
  split_and!; try done; lia.
Qed.

Lemma Synced_afterWrite env st w fdv n :
  write_r env = inr n → Synced st w →
  Synced (afterWrite n st)
    (write env fdv (roundBuffer (pendingWrites st)) w).2.
Proof.
  intros Hw (content & Hfile & Hsize & Hoff).
  destruct (write_world env fdv (roundBuffer (pendingWrites st)) w n Hw)
    as (Hfile1 & _).
  destruct (afterWrite_fields n st)
    as (_ & _ & Hsize1 & _ & _ & Hoff1 & _).
  exists (content ++ take n (roundBuffer (pendingWrites st))).
  split_and!.
  - by rewrite Hfile1, Hfile.
  - rewrite Hsize1, Hsize, length_app. lia.
  - rewrite Hoff1, Hoff, Hsize, scanNewLines_app. done.
Qed.

Lemma Synced_cutAt i off st1 st' w1 w' :
  Synced st1 w1 → cutAt i off st1 st' w1 w' → Synced st' w'.
Proof.
  intros (content & Hfile & Hsize & Hoff)
    (content' & fdv & fd' & Hi & Hnn & Hfile' & _ & _ & Hsize' & Hoff'
     & _ & _ & _ & Hfile'' & _).
  rewrite Hfile in Hfile'. injection Hfile' as <-.
  rewrite Hoff in Hi.
  pose proof (list_elem_of_lookup_2 _ _ _ Hi) as Hin%scanNewLines_lower.
  exists (drop (Z.to_nat (off + 1)) content). split_and!; try done.
  - rewrite Hsize', Hsize, length_drop. lia.
  - rewrite Hoff', Hoff. by rewrite (scanNewLines_drop _ i).
Qed.

Lemma Counted_cutAt i off st1 st' w1 w' :
  Counted st1 → cutAt i off st1 st' w1 w' → Counted st'.
Proof.
  unfold Counted.
  intros Hc (content' & fdv & fd' & Hi & _ & _ & _ & Hl & _ & Hoff' & _).
  apply lookup_lt_Some in Hi.
  rewrite Hl, Hoff', length_fmap, length_drop, Hc. lia.
Qed.

Lemma Counted_afterWrite st n :
  Counted st → pendingWrites st ≠ [] →
  Forall newline_free (pendingWrites st) →
  (length (roundBuffer (pendingWrites st)) ≤ n)%nat →
  Counted (afterWrite n st).
Proof.
  unfold Counted. intros Hc Hne Hfree Hfull.
  destruct (afterWrite_fields n st) as (_ & Hl & _ & _ & _ & Ho & _).
  rewrite Hl, Ho, length_app, take_ge by done.
  rewrite roundBuffer_newlines by done. lia.
Qed.

(** A round that returns [{}] wrote through a truthy descriptor. *)
Lemma _flush_completed env st w st' w' :
  _flush env st w = (Normal None, st', w') →
  ∃ fdv n, fd st = Some fdv ∧ fdv ≠ 0 ∧ write_r env = inr n.
Proof.
  unfold _flush, write. cbn.
  destruct (fd st) as [fdv|]; [|done].
  destruct (Z.eqb_spec fdv 0) as [|Hne]; [done|]. cbn.
  destruct (write_r env) as [e|k]; [done|]. eauto.
Qed.

(** The invariant of a flush round: a round that completes keeps the
    offsets in step with the file, and keeps [lines] equal to their
    number when it wrote the whole buffer of newline-free lines. *)
Lemma _flush_invariant
    (env : Env) (st st' : t) (w w' : World LogError) :
  Synced st w →
  _flush env st w = (Normal None, st', w') →
  Synced st' w'
  ∧ StronglySorted Z.lt (newLineOffsets st')
  ∧ (∀ o, o ∈ newLineOffsets st' →
          ∃ content, file w' = Some content ∧ 0 ≤ o < size st'
                     ∧ content !! Z.to_nat o = Some newLineByte)
  ∧ (Counted st →
     pendingWrites st ≠ [] →
     Forall newline_free (pendingWrites st) →
     (∀ n, write_r env = inr n →
           (length (roundBuffer (pendingWrites st)) ≤ n)%nat) →
     Counted st').
Proof.
  intros Hsync Hrun.
  destruct (_flush_completed _ _ _ _ _ Hrun) as (fdv & n & Hfd & Hne & Hw).
  rewrite (_flush_written _ _ _ fdv n) in Hrun by done.
  pose proof (Synced_afterWrite env st w fdv n Hw Hsync) as Hsync1.
  destruct (afterWrite_fields n st) as (Hfd1 & _).
  assert (fd_truthy (fd (afterWrite n st)) = true) as Htruthy.
  { rewrite Hfd1, Hfd. by apply fd_truthy_Some. }
  assert (Synced st' w' ∧ (Counted (afterWrite n st) → Counted st'))
    as [Hsync' Hcount'].
  { apply rotate_completed in Hrun; [|done].
    destruct Hrun as [(_ & _ & -> & ->)|[(_ & off & Hcut)
                     |(_ & _ & i & off & Hcut & _)]].
    - done.
    - split; [by eapply Synced_cutAt|]. intros. by eapply Counted_cutAt.
    - split; [by eapply Synced_cutAt|]. intros. by eapply Counted_cutAt. }
  split_and!.
  - done.
  - by eapply Synced_sorted.
  - intros o. by apply Synced_positions.
  - intros Hc Hnil Hfree Hfull. apply Hcount'.
    apply Counted_afterWrite; auto.
Qed.

(** C6 (amended): after every completed flush round, truncation
    included and partial writes included, [newLineOffsets] is strictly
    increasing and each entry is the position of a newline byte of the
    file, whose length is [size]; [newLineOffsets.length] equals [lines]
    when, in addition, it did before the round, the lines of the round
    hold no newline and the write took the whole buffer. *)
Theorem C6_offsets_follow_the_file
    (env : Env) (st st' : t) (w w' : World LogError) :
  Synced st w →
  _flush env st w = (Normal None, st', w') →
  Synced st' w'
  ∧ StronglySorted Z.lt (newLineOffsets st')
  ∧ (∀ o, o ∈ newLineOffsets st' →
          ∃ content, file w' = Some content ∧ 0 ≤ o < size st'
                     ∧ content !! Z.to_nat o = Some newLineByte)
  ∧ (Counted st →
     pendingWrites st ≠ [] →
     Forall newline_free (pendingWrites st) →
     (∀ n, write_r env = inr n →
           (length (roundBuffer (pendingWrites st)) ≤ n)%nat) →
     Counted st').
Proof. apply _flush_invariant. Qed.

(** ** Rotation *)

Lemma rotate_lines env st1 w1 :
  MAX_LOG_LINES ≤ lines st1 →
  rotate env st1 w1
  = _truncate env ((λ o, o + 1) <$> newLineOffsets st1 !! 1024%nat) 1024 st1 w1.
Proof.
  intros H. unfold rotate. by destruct (Z.leb_spec MAX_LOG_LINES (lines st1)); [|lia].
Qed.

Lemma rotate_size env st1 w1 :
  lines st1 < MAX_LOG_LINES → MAX_LOG_FILE_SIZE ≤ size st1 →
  rotate env st1 w1
  = _truncate env (Some ((findCut 8388608 (newLineOffsets st1)).1 + 1))
      (findCut 8388608 (newLineOffsets st1)).2 st1 w1.
Proof.
  intros Hl Hs. unfold rotate.
  destruct (Z.leb_spec MAX_LOG_LINES (lines st1)); [lia|].
  destruct (Z.leb_spec MAX_LOG_FILE_SIZE (size st1)); [|lia].
  change (MAX_LOG_FILE_SIZE / 4) with 8388608.
  by destruct (findCut 8388608 (newLineOffsets st1)).
Qed.

(** The bytes before a cut placed after the newline recorded at index [i]
    hold exactly [i + 1] newlines and end with one. *)
Lemma Synced_removed_prefix i off st1 w1 content :
  Synced st1 w1 → file w1 = Some content →
  newLineOffsets st1 !! i = Some off →
  length (filter (λ b, b = newLineByte) (take (Z.to_nat (off + 1)) content))
  = S i
  ∧ content !! Z.to_nat off = Some newLineByte.
Proof.
  intros (content' & Hfile & _ & Hoff) Hfile' Hi.
  rewrite Hfile in Hfile'. injection Hfile' as ->. rewrite Hoff in Hi.
  destruct (scanNewLines_cut _ _ _ _ Hi) as [Hlen _].
  rewrite Z.sub_0_r in Hlen. rewrite <- scanNewLines_length with (base := 0).
  split; [done|].
  apply list_elem_of_lookup_2, scanNewLines_elem in Hi as [_ Hi].
  by rewrite Z.sub_0_r in Hi.
Qed.

(** C1: when the flush leaves [lines] at 4096 or more, the round hands
    over to [_truncate] with line index 1024 and position
    [newLineOffsets[1024] + 1]; when that succeeds, [lines] drops by 1025,
    [size] by the cut position, the first 1025 offsets are dropped (the
    others re-based by the cut position), and the file keeps exactly its
    bytes from the cut position on.  On a state whose bookkeeping agrees
    with the file, the bytes removed are exactly 1025 whole lines. *)
Theorem C1_line_count_rotation
    (env : Env) (st : t) (w : World LogError) (fdv : Z) (n : nat) :
  fd st = Some fdv → fdv ≠ 0 → write_r env = inr n →
  let st1 := afterWrite n st in
  let w1 := (write env fdv (roundBuffer (pendingWrites st)) w).2 in
  MAX_LOG_LINES ≤ lines st1 →
  _flush env st w
  = _truncate env ((λ o, o + 1) <$> newLineOffsets st1 !! 1024%nat)
      (MAX_LOG_LINES / 4) st1 w1
  ∧ MAX_LOG_LINES / 4 = 1024
  ∧ ∀ st' w',
      _flush env st w = (Normal None, st', w') →
      ∃ off content,
        newLineOffsets st1 !! 1024%nat = Some off
        ∧ file w1 = Some content
        ∧ lines st' = lines st1 - 1025
        ∧ size st' = size st1 - (off + 1)
        ∧ newLineOffsets st'
          = (λ o, o - (off + 1)) <$> drop 1025 (newLineOffsets st1)
        ∧ file w' = Some (drop (Z.to_nat (off + 1)) content)
        ∧ (Synced st w →
           length (filter (λ b, b = newLineByte)
                     (take (Z.to_nat (off + 1)) content)) = 1025%nat
           ∧ content !! Z.to_nat off = Some newLineByte
           ∧ Synced st' w').
Proof.
  intros Hfd Hne Hw st1 w1 Hlines.
  rewrite (_flush_written _ _ _ fdv n) by done. fold st1 w1.
  split; [by apply rotate_lines|]. split; [done|].
  intros st' w' Hrun.
  assert (fd_truthy (fd st1) = true) as Htruthy.
  { destruct (afterWrite_fields n st) as (Hfd1 & _).
    unfold st1. rewrite Hfd1, Hfd. by apply fd_truthy_Some. }
  apply rotate_completed in Hrun; [|done].
  destruct Hrun as [(? & _)|[(_ & off & Hcut)|(? & _)]]; [lia| |lia].
  pose proof Hcut as (content & ? & ? & Hi & _ & Hfile & _ & Hl & Hs & Ho
                      & _ & _ & _ & Hfile' & _).
  exists off, content. split_and!; try done; [lia|].
  intros Hsync.
  pose proof (Synced_afterWrite env st w fdv n Hw Hsync) as Hsync1.
  fold st1 w1 in Hsync1.
  destruct (Synced_removed_prefix 1024 off st1 w1 content) as [? ?]; try done.
  split_and!; try done. by eapply Synced_cutAt.
Qed.

(** The size trigger away from its degenerate case: the cut is placed
    right after the first recorded offset above 8388608, whose index is
    the line index of the cut, and every surviving offset is re-based by
    the cut position. *)
Lemma size_rotation_cut
    (env : Env) (st : t) (w : World LogError) (fdv : Z) (n : nat) :
  fd st = Some fdv → fdv ≠ 0 → write_r env = inr n →
  let st1 := afterWrite n st in
  let w1 := (write env fdv (roundBuffer (pendingWrites st)) w).2 in
  lines st1 < MAX_LOG_LINES → MAX_LOG_FILE_SIZE ≤ size st1 →
  ∀ (i : nat) (off : Z),
    newLineOffsets st1 !! i = Some off → 8388608 < off →
    (∀ (j : nat) y, newLineOffsets st1 !! j = Some y → (j < i)%nat →
                    y ≤ 8388608) →
    _flush env st w = _truncate env (Some (off + 1)) (Z.of_nat i) st1 w1
    ∧ ∀ st' w',
        _flush env st w = (Normal None, st', w') →
        lines st' = lines st1 - Z.of_nat i - 1
        ∧ size st' = size st1 - (off + 1)
        ∧ newLineOffsets st'
          = (λ o, o - (off + 1)) <$> drop (S i) (newLineOffsets st1)
        ∧ (Synced st w → Synced st' w').
Proof.
  intros Hfd Hne Hw st1 w1 Hlines Hsize i off Hi Hlt Hfirst.
  rewrite (_flush_written _ _ _ fdv n) by done. fold st1 w1.
  rewrite rotate_size by done.
  assert (findCut 8388608 (newLineOffsets st1) = (off, Z.of_nat i)) as ->.
  { unfold findCut.
    destruct (list_find _ _) as [[i' o']|] eqn:Hfind.
    - apply list_find_Some in Hfind as (Hi' & Ho' & Hfirst').
      destruct (Nat.lt_trichotomy i i') as [Hc|[<-|Hc]].
      + specialize (Hfirst' _ _ Hi Hc). lia.
      + rewrite Hi in Hi'. by injection Hi' as <-.
      + specialize (Hfirst _ _ Hi' Hc). lia.
    - apply list_find_None in Hfind. rewrite list.Forall_forall in Hfind.
      apply list_elem_of_lookup_2, Hfind in Hi. lia. }
  split; [done|]. cbn [fst snd]. intros st' w' Hrun.
  assert (fd_truthy (fd st1) = true) as Htruthy.
  { destruct (afterWrite_fields n st) as (Hfd1 & _).
    unfold st1. rewrite Hfd1, Hfd. by apply fd_truthy_Some. }
  apply _truncate_cutAt in Hrun; [|done..].
  pose proof Hrun as (content & ? & ? & _ & _ & Hfile & _ & Hl & Hs & Ho & _).
  split_and!; try done. intros Hsync.
  eapply Synced_cutAt; [|done]. by apply Synced_afterWrite.
Qed.

(** The degenerate branch of [_truncate] on a truthy descriptor, when
    the copy, the rename and the close succeed. *)
Lemma _truncate_degenerate env pos st w fdv content :
  0 ≤ pos → fd st = Some fdv → fdv ≠ 0 → file w = Some content →
  pipeline_r env = None → rename_r env = None → close_r env = None →
  ∃ st' w',
    _truncate env (Some pos) (-1) st w
    = (Normal (Some (PlainError "Cannot open twice()")), st', w')
    ∧ lines st' = 0 ∧ size st' = 0 ∧ newLineOffsets st' = []
    ∧ fd st' = Some fdv
    ∧ file w' = Some (drop (Z.to_nat pos) content)
    ∧ trace w' = trace w ++ [SysPipeline pos; SysRename; SysClose fdv].
Proof.
  intros Hpos Hfd Hne Hfile Hpipe Hren Hclose.
  unfold _truncate, pipeline, rename, close, open. cbn.
  destruct (Z.ltb_spec pos 0); [lia|].
  rewrite Hpipe, Hfile. cbn. rewrite Hren. cbn. rewrite Hfd, Hclose.
  cbn. destruct (Z.eqb_spec fdv 0); [done|]. cbn.
  eexists _, _. split; [reflexivity|]. cbn. split_and!; try done.
  by rewrite <- !app_assoc.
Qed.

(** C2: the size trigger with no recorded offset above 8388608.  The
    round takes the degenerate branch of [_truncate] (line index [-1], cut
    at 8388609) and resets the counters, but the [open()] it then calls
    stops at its double-open guard, because [fd] still holds the closed
    descriptor: nothing is re-read, the call returns
    ['Cannot open twice()'], and the counters stay at zero over a file
    that is not empty. *)
Theorem C2_degenerate_cut_does_not_reopen
    (env : Env) (st : t) (w : World LogError) (fdv : Z) (n : nat)
    (content : list N) :
  fd st = Some fdv → fdv ≠ 0 → write_r env = inr n →
  file w = Some content →
  pipeline_r env = None → rename_r env = None → close_r env = None →
  let buf := roundBuffer (pendingWrites st) in
  let st1 := afterWrite n st in
  let w1 := (write env fdv buf w).2 in
  lines st1 < MAX_LOG_LINES → MAX_LOG_FILE_SIZE ≤ size st1 →
  (∀ o, o ∈ newLineOffsets st1 → o ≤ 8388608) →
  _flush env st w = _truncate env (Some 8388609) (-1) st1 w1
  ∧ ∃ st' w',
      _flush env st w
      = (Normal (Some (PlainError "Cannot open twice()")), st', w')
      ∧ lines st' = 0 ∧ size st' = 0 ∧ newLineOffsets st' = []
      ∧ fd st' = Some fdv
      ∧ file w' = Some (drop (Z.to_nat 8388609) (content ++ take n buf))
      ∧ trace w'
        = trace w ++ [SysWrite fdv buf; SysPipeline 8388609; SysRename;
                      SysClose fdv]
      ∧ (Synced st w → ¬ Synced st' w').
Proof.
  intros Hfd Hne Hw Hfile Hpipe Hren Hclose buf st1 w1 Hlines Hsize Hnone.
  rewrite (_flush_written _ _ _ fdv n) by done. fold buf st1 w1.
  rewrite rotate_size by done.
  assert (findCut 8388608 (newLineOffsets st1) = (8388608, -1)) as ->.
  { unfold findCut. destruct (list_find _ _) as [[i o]|] eqn:Hfind; [|done].
    apply list_find_Some in Hfind as (Hi & Ho & _).
    apply list_elem_of_lookup_2, Hnone in Hi. lia. }
  cbn [fst snd]. change (8388608 + 1) with 8388609. split; [done|].
  destruct (write_world env fdv buf w n Hw) as (Hfile1 & Htmp1 & Htr1 & Hrep1).
  fold w1 in Hfile1, Htmp1, Htr1, Hrep1. rewrite Hfile in Hfile1.
  destruct (afterWrite_fields n st) as (Hfd1 & _ & Hsize1 & _).
  fold st1 buf in Hfd1, Hsize1. rewrite Hfd in Hfd1.
  destruct (_truncate_degenerate env 8388609 st1 w1 fdv
              (content ++ take n buf))
    as (st' & w' & Hrun & Hl & Hs & Ho & Hf & Hfile' & Htr'); try done.
  exists st', w'. split_and!; try done.
  - rewrite Htr', Htr1. by rewrite <- !app_assoc.
  - intros (c0 & Hc0 & Hs0 & _) (c' & Hc' & Hs' & _).
    rewrite Hfile' in Hc'. injection Hc' as <-.
    rewrite Hfile in Hc0. injection Hc0 as <-.
    rewrite length_drop, length_app in Hs'.
    unfold MAX_LOG_FILE_SIZE in Hsize. lia.
Qed.

(** ** Failures of the truncation *)

Lemma flush_reports env st w err st' w' :
  pendingFlush st = None → pendingWrites st ≠ [] →
  _flush env st w = (Normal (Some err), st', w') →
  flush env st w = (Resolved, set_pendingFlush None st', onError err w').
Proof.
  intros Hpf Hne Hrun. unfold flush. rewrite Hpf, Hrun.
  by rewrite bool_decide_eq_false_2.
Qed.

(** C9 (amended): every failing step of the truncation comes back as an
    error value, which [flush] hands to [onError]; a failing copy or
    rename leaves the counters and the file as they were, while a failing
    reopen or close comes after the rename and finds the counters already
    moved to the truncated file (or reset, in the degenerate branch). *)
Theorem C9_truncation_failures
    (env : Env) (pos idx : Z) (st st' : t) (w w' : World LogError)
    (err : LogError) :
  fd_truthy (fd st) = true → -1 ≤ idx →
  _truncate env (Some pos) idx st w = (Normal (Some err), st', w') →
  ((∃ e, err = WError "_truncate(): could not pipeline" e
         ∧ st' = st ∧ file w' = file w)
   ∨ (∃ e, err = WError "_truncate(): could not rename" e
         ∧ st' = st ∧ file w' = file w)
   ∨ (∃ e content, err = WError "_truncate(): could not re open" e
         ∧ 0 ≤ idx ∧ file w = Some content
         ∧ file w' = Some (drop (Z.to_nat pos) content)
         ∧ lines st' = lines st - idx - 1
         ∧ size st' = size st - pos
         ∧ newLineOffsets st'
           = (λ o, o - pos) <$> drop (Z.to_nat (idx + 1)) (newLineOffsets st)
         ∧ fd st' = fd st)
   ∨ (∃ e content fd', err = WError "_truncate(): could not close old fd" e
         ∧ 0 ≤ idx ∧ file w = Some content
         ∧ file w' = Some (drop (Z.to_nat pos) content)
         ∧ lines st' = lines st - idx - 1
         ∧ size st' = size st - pos
         ∧ newLineOffsets st'
           = (λ o, o - pos) <$> drop (Z.to_nat (idx + 1)) (newLineOffsets st)
         ∧ fd st' = Some fd')
   ∨ (∃ e, err = WError "_truncate(): could not close" e
         ∧ idx = -1
         ∧ lines st' = 0 ∧ size st' = 0 ∧ newLineOffsets st' = []
         ∧ fd st' = None)
   ∨ (err = PlainError "Cannot open twice()"
         ∧ idx = -1
         ∧ lines st' = 0 ∧ size st' = 0 ∧ newLineOffsets st' = []
         ∧ fd st' = fd st))
  ∧ (∀ env0 st0 w0,
       pendingFlush st0 = None → pendingWrites st0 ≠ [] →
       _flush env0 st0 w0 = _truncate env (Some pos) idx st w →
       flush env0 st0 w0
       = (Resolved, set_pendingFlush None st', onError err w')).
Proof.
  intros Hfd Hidx Hrun. split.
  2:{ intros env0 st0 w0 Hpf Hne Heq. rewrite <- Heq in Hrun.
      by apply flush_reports. }
  revert Hrun. unfold _truncate.
  destruct (Z.ltb_spec pos 0); [done|].
  unfold pipeline. cbn.
  destruct (pipeline_r env) as [e|] eqn:Hpipe.
  { intros [= <- <- <-]. left. by exists e. }
  destruct (file w) as [content|] eqn:Hfile.
  2:{ intros [= <- <- <-]. left. by exists "ENOENT"%string. }
  cbn. unfold rename. cbn.
  destruct (rename_r env) as [e|] eqn:Hren.
  { intros [= <- <- <-]. right; left. by exists e. }
  cbn. destruct (fd st) as [fdv|] eqn:Hfdv; [|done].
  destruct (Z.eqb_spec idx (-1)) as [->|Hne].
  - cbn. unfold close.
    destruct (close_r env) as [e|] eqn:Hclose.
    + intros [= <- <- <-]. do 4 right; left. by exists e.
    + unfold open. cbn. rewrite Hfdv. cbn in Hfd |- *. rewrite Hfd.
      intros [= <- <- <-]. do 5 right. done.
  - unfold FS.open, slice_from. cbn.
    destruct (Z.ltb_spec (idx + 1) 0); [lia|].
    destruct (open_r env) as [e|fd'] eqn:Hopen; cbn.
    + intros [= <- <- <-]. do 2 right; left. exists e, content.
      split_and!; try done. lia.
    + unfold close.
      destruct (close_r env) as [e|] eqn:Hclose; [|done].
      intros [= <- <- <-]. do 3 right; left. exists e, content, fd'.
      split_and!; try done. lia.
Qed.

(** ** What [open] and [_truncate] leave alone *)

Lemma no_new_write_refl w : no_new_write w w.
Proof. exists []. by rewrite app_nil_r. Qed.

Lemma no_new_write_log c w w' :
  ¬ is_write c → no_new_write (log c w) w' → no_new_write w w'.
Proof.
  intros Hc (rest & Htr & Hrest). exists (c :: rest). cbn in Htr.
  rewrite Htr, <- app_assoc. split; [done|]. by constructor.
Qed.

Lemma open_descriptor_frame env st w :
  let '(r, st', w') := open_descriptor env st w in
  _writeCalled st' = _writeCalled st
  ∧ pendingWrites st' = pendingWrites st
  ∧ no_new_write w w'
  ∧ reported w' = reported w
  ∧ (∀ c, file w = Some c → file w' = Some c)
  ∧ (hasOpened st = true → hasOpened st' = true).
Proof.
  unfold open_descriptor, FS.open.
  destruct (open_r env) as [e|fd']; cbn; split_and!; try done;
    try (apply (no_new_write_log SysOpen); [tauto|]; exists []; cbn;
         by rewrite app_nil_r).
  by intros c ->.
Qed.

Lemma open_frame env st w :
  let '(r, st', w') := open env st w in
  _writeCalled st' = _writeCalled st
  ∧ pendingWrites st' = pendingWrites st
  ∧ no_new_write w w'
  ∧ reported w' = reported w
  ∧ (∀ c, file w = Some c → file w' = Some c)
  ∧ (hasOpened st = true → hasOpened st' = true).
Proof.
  unfold open, mkdir.
  destruct (fd_truthy (fd st)).
  { split_and!; try done. apply no_new_write_refl. }
  cbn. destruct (mkdir_r env).
  { split_and!; try done. apply (no_new_write_log SysMkdir); [tauto|].
    apply no_new_write_refl. }
  assert (∀ st0,
    _writeCalled st0 = _writeCalled st → pendingWrites st0 = pendingWrites st →
    hasOpened st0 = hasOpened st →
    let '(r, st', w') :=
      open_descriptor env st0 (log SysReadFile (log SysMkdir w)) in
    _writeCalled st' = _writeCalled st
    ∧ pendingWrites st' = pendingWrites st
    ∧ no_new_write w w'
    ∧ reported w' = reported w
    ∧ (∀ c, file w = Some c → file w' = Some c)
    ∧ (hasOpened st = true → hasOpened st' = true)) as Hstep.
  { intros st0 H1 H2 H3.
    pose proof (open_descriptor_frame env st0
                  (log SysReadFile (log SysMkdir w))) as H.
    destruct (open_descriptor _ _ _) as [[r st'] w'].
    destruct H as (? & ? & ? & ? & ? & ?).
    split_and!; try congruence; try done; [|rewrite <- H3; done].
    apply (no_new_write_log SysMkdir); [tauto|].
    by apply (no_new_write_log SysReadFile); [tauto|]. }
  unfold readFile. cbn.
  destruct (readFile_r env) as [e|].
  - destruct (negb _).
    + split_and!; try done.
      apply (no_new_write_log SysMkdir); [tauto|].
      apply (no_new_write_log SysReadFile); [tauto|]. apply no_new_write_refl.
    + by apply Hstep.
  - destruct (file w); cbn; by apply Hstep.
Qed.

Lemma _truncate_frame env position idx st w :
  let '(r, st', w') := _truncate env position idx st w in
  _writeCalled st' = _writeCalled st
  ∧ pendingWrites st' = pendingWrites st
  ∧ no_new_write w w'
  ∧ reported w' = reported w
  ∧ (∀ c, file w = Some c → ∃ k, file w' = Some (drop k c))
  ∧ (hasOpened st = true → hasOpened st' = true).
Proof.
  unfold _truncate.
  destruct position as [pos|]; [|frame].
  destruct (pos <? 0); [frame|].
  unfold pipeline. cbn.
  destruct (pipeline_r env); [frame|].
  destruct (file w) as [content|] eqn:Hfile; [|frame].
  cbn. unfold rename. cbn.
  destruct (rename_r env); [frame|].
  cbn. destruct (idx =? -1).
  - cbn. destruct (fd st) as [fdv|]; [|frame].
    unfold close. destruct (close_r env); [frame|].
    match goal with |- context [open env ?s ?w0] =>
      pose proof (open_frame env s w0) as H;
      destruct (open env s w0) as [[r st'] w']
    end.
    destruct H as (H1 & H2 & H3 & H4 & H5 & H6). split_and!; try done.
    + destruct H3 as (rest & Htr & Hrest).
      exists (SysPipeline pos :: SysRename :: SysClose fdv :: rest).
      cbn in Htr |- *. rewrite Htr, <- !app_assoc. split; [done|].
      repeat (constructor; [cbn; tauto|]). done.
    + intros c [= <-]. exists (Z.to_nat pos). by apply H5.
  - unfold FS.open. cbn. destruct (open_r env) as [e|fd']; [frame|].
    cbn. destruct (fd st) as [fdv|]; [|frame].
    unfold close. destruct (close_r env); frame.
Qed.

(** ** Line encoding *)

Lemma stringifyLine_time proc productName level msg info time truncated str :
  stringifyLine proc productName level msg info time truncated = Normal str →
  ∃ iso, toISOString time = Normal iso.
Proof.
  unfold stringifyLine, LogLine.new.
  destruct (toISOString time) as [iso|e]; [eauto|done].
Qed.

(** The object without its [truncated] key serializes to the same text
    when [truncated] is [undefined]. *)
Lemma to_value_without_truncated (line : LogLine.t) :
  LogLine.truncated line = None →
  JSON_stringify (LogLine.to_value line)
  = JSON_stringify
      (Obj [(lit "name", Str (LogLine.name line));
            (lit "hostname", Str (LogLine.hostname line));
            (lit "pid", Num (LogLine.pid line));
            (lit "level", Str (LogLine.level line));
            (lit "msg", Str (LogLine.msg line));
            (lit "time", Str (LogLine.time line));
            (lit "v", Num (LogLine.v line));
            (lit "fields", LogLine.fields line)]).
Proof.
  intros H. unfold JSON_stringify, LogLine.to_value. rewrite H.
  cbn [SerializeJSONProperty].
  by destruct (SerializeJSONProperty (LogLine.fields line)).
Qed.

(** C5: a line whose serialization is longer than 32768 code units is
    queued re-encoded, with [fields = {isTruncated: true}], the level
    ['warn'] in place of ['info'] and any other level kept, and a
    [truncated] field made of the first 32765 code units of the original
    serialization followed by ["..."], 32768 code units in all; a line at
    or under the cap is queued as it is, with no [truncated] field. *)
Theorem C5_oversized_line_is_truncated
    (proc : Process) (productName level msg : str) (info : value) (time : Z)
    (str : JS.str) :
  stringifyLine proc productName level msg
    (if truthy info then info else EMPTY_OBJECT) time None = Normal str →
  (MAX_LOG_LINE_SIZE < Z.of_nat (length str) →
   let truncated := take (Z.to_nat 32765) str ++ lit "..." in
   ∃ line str',
     encode proc productName level msg info time = Normal str'
     ∧ JSON_stringify (LogLine.to_value line) = Normal (Some str')
     ∧ LogLine.fields line = Obj [(lit "isTruncated", Bool true)]
     ∧ (level = lit "info" → LogLine.level line = lit "warn")
     ∧ (level ≠ lit "info" → LogLine.level line = level)
     ∧ LogLine.truncated line = Some truncated
     ∧ length truncated = Z.to_nat 32768
     ∧ drop (Z.to_nat 32765) truncated = lit "..."
     ∧ LogLine.name line = productName
     ∧ LogLine.msg line = msg)
  ∧ (Z.of_nat (length str) ≤ MAX_LOG_LINE_SIZE →
     ∃ line,
       encode proc productName level msg info time = Normal str
       ∧ JSON_stringify (LogLine.to_value line) = Normal (Some str)
       ∧ LogLine.truncated line = None
       ∧ LogLine.level line = level
       ∧ LogLine.fields line = (if truthy info then info else EMPTY_OBJECT))
  ∧ (∀ env st w s,
       encode proc (AppendOnlyFSLogger.productName st) level msg info time
       = Normal s →
       _write proc env level msg info time st w
       = flush env (set_pendingWrites (pendingWrites st ++ [s]) st) w).
Proof.
  intros Hstr. split_and!.
  - intros Hlong truncated.
    destruct (stringifyLine_time _ _ _ _ _ _ _ _ Hstr) as [iso Hiso].
    unfold encode. rewrite Hstr.
    destruct (Z.ltb_spec MAX_LOG_LINE_SIZE (Z.of_nat (length str))); [|lia].
    unfold stringifyLine, LogLine.new. rewrite Hiso.
    change (Z.to_nat (MAX_LOG_LINE_SIZE - 3)) with (Z.to_nat 32765).
    unfold slice_to. fold truncated.
    set (line := LogLine.mk productName (hostname proc) (pid proc)
                   (if bool_decide (level = lit "info") then lit "warn"
                    else level)
                   msg iso 1 isTruncated (Some truncated)).
    assert (∃ s', JSON_stringify (LogLine.to_value line) = Normal (Some s'))
      as [s' Hs'] by (eexists; reflexivity).
    exists line, s'. rewrite Hs'. split_and!; try done.
    + intros ->. done.
    + intros Hne. cbn. by rewrite bool_decide_eq_false_2.
    + unfold truncated. rewrite length_app, length_take.
      unfold MAX_LOG_LINE_SIZE in Hlong. cbn [length lit fmap list_fmap list_ascii_of_string].
      lia.
    + unfold truncated. rewrite drop_app_length'; [done|].
      rewrite length_take. unfold MAX_LOG_LINE_SIZE in Hlong. lia.
  - intros Hshort. unfold encode. rewrite Hstr.
    destruct (Z.ltb_spec MAX_LOG_LINE_SIZE (Z.of_nat (length str))); [lia|].
    revert Hstr. unfold stringifyLine, LogLine.new.
    destruct (toISOString time) as [iso|]; [|done].
    destruct (JSON_stringify _) as [[s|]|] eqn:Hjson; try done.
    intros [= ->]. eexists. split; [done|]. split; [exact Hjson|]. done.
  - intros env st w s Hs. unfold _write. by rewrite Hs.
Qed.

Lemma rotate_frame env st w :
  let '(r, st', w') := rotate env st w in
  _writeCalled st' = _writeCalled st
  ∧ pendingWrites st' = pendingWrites st
  ∧ no_new_write w w'
  ∧ reported w' = reported w
  ∧ (∀ c, file w = Some c → ∃ k, file w' = Some (drop k c))
  ∧ (hasOpened st = true → hasOpened st' = true).
Proof.
  unfold rotate.
  destruct (MAX_LOG_LINES <=? lines st); [apply _truncate_frame|].
  destruct (MAX_LOG_FILE_SIZE <=? size st).
  - destruct (findCut _ _). apply _truncate_frame.
  - frame.
Qed.

Lemma rotate_idle env st w :
  lines st < MAX_LOG_LINES → size st < MAX_LOG_FILE_SIZE →
  rotate env st w = (Normal None, st, w).
Proof.
  intros Hl Hs. unfold rotate.
  destruct (Z.leb_spec MAX_LOG_LINES (lines st)); [lia|].
  by destruct (Z.leb_spec MAX_LOG_FILE_SIZE (size st)); [lia|].
Qed.

(** ** Write coalescing *)

Lemma _flush_one_write
    (env : Env) (st : t) (w : World LogError) (fdv : Z) :
  fd st = Some fdv → fdv ≠ 0 → pendingWrites st ≠ [] →
  let pending := pendingWrites st in
  let buf := roundBuffer pending in
  let '(r, st', w') := _flush env st w in
  buf = Buffer_from (concat ((λ l, l ++ NL) <$> pending))
  ∧ buf = concat ((λ l, Buffer_from l ++ [newLineByte]) <$> pending)
  ∧ _writeCalled st' = _writeCalled st + 1
  ∧ (∃ rest,
       trace w' = trace w ++ SysWrite fdv buf :: rest
       ∧ Forall (λ c, ¬ is_write c) rest)
  ∧ (∀ n content,
       write_r env = inr n → (length buf ≤ n)%nat → file w = Some content →
       file (write env fdv buf w).2 = Some (content ++ buf)
       ∧ (∃ k, file w' = Some (drop k (content ++ buf)))
       ∧ (lines st + Z.of_nat (length pending) < MAX_LOG_LINES →
          size st + Z.of_nat (length buf) < MAX_LOG_FILE_SIZE →
          file w' = Some (content ++ buf))).
Proof.
  intros Hfd Hne Hpending pending buf.
  assert (buf = Buffer_from (concat ((λ l, l ++ NL) <$> pending))) as Hbuf1.
  { unfold buf, roundBuffer. by rewrite join_NL_trailing. }
  assert (buf = concat ((λ l, Buffer_from l ++ [newLineByte]) <$> pending))
    as Hbuf2 by by apply roundBuffer_concat.
  destruct (write_r env) as [e|n] eqn:Hw.
  - unfold _flush, write. cbn. rewrite Hfd, Hw. cbn.
    destruct (Z.eqb_spec fdv 0); [done|]. cbn.
    split_and!; try done. exists []. split; [done|constructor].
  - rewrite (_flush_written _ _ _ fdv n) by done. fold pending buf.
    destruct (write_world env fdv buf w n Hw) as (Hfile1 & _ & Htr1 & _).
    destruct (afterWrite_fields n st) as (Hfd1 & Hl1 & Hs1 & _ & Hwc1 & _).
    fold pending buf in Hl1, Hs1.
    set (st1 := afterWrite n st) in *.
    set (w1 := (write env fdv buf w).2) in *.
    pose proof (rotate_frame env st1 w1) as H.
    pose proof (rotate_idle env st1 w1) as Hidle.
    destruct (rotate env st1 w1) as [[r st'] w'].
    destruct H as (Hwc & _ & (rest & Htr & Hrest) & _ & Hfile & _).
    split_and!; try done.
    + by rewrite Hwc, Hwc1.
    + exists rest. rewrite Htr, Htr1, <- app_assoc. done.
    + intros n' content [= <-] Hfull Hcontent.
      rewrite Hcontent in Hfile1. cbn in Hfile1.
      rewrite take_ge in Hfile1, Hs1 by done.
      split_and!; try done; [by apply Hfile|].
      intros Hlines Hsize.
      assert ((r, st', w') = (Normal None, st1, w1)) as [= _ _ ->]
        by (apply Hidle; lia).
      done.
Qed.


(** ** Failures on the write path *)

Lemma _flush_fd_null env st w :
  fd_truthy (fd st) = false →
  _flush env st w = (Normal (Some fd_is_null), set_pendingWrites [] st, w).
Proof.
  intros Hfd. unfold _flush. cbn. destruct (fd st) as [fdv|]; [|done].
  cbn in Hfd. by rewrite Hfd.
Qed.

Lemma _write_fd_null proc env level msg info time st w str :
  pendingFlush st = None →
  encode proc (productName st) level msg info time = Normal str →
  fd_truthy (fd st) = false →
  _write proc env level msg info time st w
  = (Resolved, set_pendingWrites [] st, onError fd_is_null w).
Proof.
  intros Hpf Hstr Hfd. unfold _write, flush. rewrite Hstr. cbn.
  rewrite Hpf. rewrite bool_decide_eq_false_2 by by destruct (pendingWrites st).
  rewrite _flush_fd_null by done.
  unfold set_pendingFlush, set_pendingWrites. cbn. by rewrite Hpf.
Qed.

Lemma _flush_write_error env st w fdv e :
  fd st = Some fdv → fdv ≠ 0 → write_r env = inl e →
  _flush env st w
  = (Normal (Some (WError "_write() could not write(fd)" e)),
     set__writeCalled (_writeCalled st + 1) (set_pendingWrites [] st),
     log (SysWrite fdv (roundBuffer (pendingWrites st))) w).
Proof.
  intros Hfd Hne Hw. unfold _flush, write. cbn. rewrite Hfd, Hw. cbn.
  by destruct (Z.eqb_spec fdv 0).
Qed.

(** A cyclic [fields] makes [JSON.stringify] throw. *)
Lemma encode_circular proc productName level msg key time :
  Z.abs time ≤ 8640000000000000 →
  encode proc productName level msg (Obj [(key, Circular)]) time
  = Throw TypeError_circular.
Proof.
  intros Htime. unfold encode, stringifyLine, LogLine.new, toISOString.
  destruct (Z.ltb_spec 8640000000000000 (Z.abs time)); [lia|].
  cbn [truthy]. unfold civil_from_days. cbv zeta. reflexivity.
Qed.


(** ** Logging before [open] *)

Lemma _log_before_open proc env level msg info timestamp st w :
  hasOpened st = false →
  MainLogger._log proc env level msg info timestamp st w
  = (Thrown (Error (lit "Must call open() first.")), st, w).
Proof. intros H. unfold MainLogger._log. by rewrite H. Qed.

Lemma _flush_hasOpened env st w :
  hasOpened st = true → hasOpened (_flush env st w).1.2 = true.
Proof.
  intros H. unfold _flush. cbn.
  destruct (fd st) as [fdv|]; [|done].
  destruct (negb _); [done|]. unfold write. cbn.
  destruct (write_r env) as [e|n]; [done|]. cbn.
  match goal with |- context [rotate env ?s ?w0] =>
    pose proof (rotate_frame env s w0) as Hr;
    destruct (rotate env s w0) as [[r st'] w']
  end.
  destruct Hr as (_ & _ & _ & _ & _ & Hr). apply Hr.
  unfold account. cbn. by destruct (negb _).
Qed.

Lemma flush_hasOpened env st w :
  hasOpened st = true → hasOpened (flush env st w).1.2 = true.
Proof.
  intros H. unfold flush. destruct (pendingFlush st); [done|].
  destruct (bool_decide _); [done|].
  pose proof (_flush_hasOpened env st w H) as Hf.
  destruct (_flush env st w) as [[[r|e] st'] w']; [|done].
  by destruct r.
Qed.

Lemma step_hasOpened proc c s :
  hasOpened s.1 = true → hasOpened (step proc c s).1 = true.
Proof.
  destruct s as [st w]. intros H. destruct c as [env|env level msg info ts]; cbn.
  - pose proof (open_frame env st w) as Hf.
    destruct (open env st w) as [[r st'] w'].
    destruct Hf as (_ & _ & _ & _ & _ & Hf). by apply Hf.
  - unfold MainLogger._log. cbn in H. rewrite H. cbn.
    destruct msg as [| | | |[|c m]| | |]; try done.
    destruct (_ && _); [done|]. unfold _write.
    destruct (encode _ _ _ _ _ _); [|done].
    match goal with |- context [flush env ?s ?w0] =>
      pose proof (flush_hasOpened env s w0 H) as Hf;
      destruct (flush env s w0) as [[r st'] w']
    end. done.
Qed.

Lemma run_hasOpened proc calls s :
  hasOpened s.1 = true → hasOpened (run proc calls s).1 = true.
Proof.
  revert s. induction calls as [|c calls IH]; intros s H; [done|].
  cbn. apply IH. by apply step_hasOpened.
Qed.

(** A call on a logger that has never opened either leaves it so, with
    its queue, its descriptor and the file untouched, or is the [open]
    that succeeds. *)
Lemma step_before_open proc c st w :
  hasOpened st = false → fd st = None →
  let '(st', w') := step proc c (st, w) in
  hasOpened st' = false →
  fd st' = None
  ∧ pendingFlush st' = pendingFlush st
  ∧ pendingWrites st' = pendingWrites st
  ∧ no_new_write w w'
  ∧ file w' = file w
  ∧ reported w' = reported w.
Proof.
  intros Hop Hfd. destruct c as [env|env level msg info ts]; cbn.
  - unfold open, open_descriptor, mkdir, readFile, FS.open. rewrite Hfd. cbn.
    destruct (mkdir_r env); cbn.
    { intros _. split_and!; try done. nnw. }
    destruct (readFile_r env) as [e|]; cbn.
    + destruct (negb _); cbn.
      { intros _. split_and!; try done. nnw. }
      destruct (open_r env); cbn; [|done].
      intros _. split_and!; try done. nnw.
    + destruct (file w) eqn:Hfile; cbn.
      * destruct (open_r env); cbn; [|done].
        intros _. split_and!; try done. nnw.
      * destruct (open_r env); cbn; [|done].
        intros _. split_and!; try done. nnw.
  - rewrite _log_before_open by done. intros _.
    split_and!; try done. apply no_new_write_refl.
Qed.

(** C10 (amended): on a logger that has not opened, a level method
    ([_log]) throws ['Must call open() first.'] and changes nothing, so
    no sequence of level-method calls and failed [open]s ever queues a
    line or writes to the file; [_write] itself has no such guard: called
    on a logger whose [fd] is null it does not throw, its round drops the
    line and hands ['_flush() could not write, fd is null'] to
    [onError], and the file is left as it was. *)
Theorem C10_logging_before_open (proc : Process) :
  (∀ env level msg info timestamp st w,
     hasOpened st = false →
     MainLogger._log proc env level msg info timestamp st w
     = (Thrown (Error (lit "Must call open() first.")), st, w))
  ∧ (∀ productName calls w st' w',
       run proc calls (constructor productName, w) = (st', w') →
       hasOpened st' = false →
       fd st' = None ∧ pendingWrites st' = []
       ∧ no_new_write w w' ∧ file w' = file w)
  ∧ (∀ env level msg info time st w str,
       fd_truthy (fd st) = false → pendingFlush st = None →
       encode proc (productName st) level msg info time = Normal str →
       _write proc env level msg info time st w
       = (Resolved, set_pendingWrites [] st, onError fd_is_null w)).
Proof.
  split_and!.
  - intros. by apply _log_before_open.
  - intros productName calls w.
    assert (∀ st0 w0 st' w',
      hasOpened st0 = false → fd st0 = None →
      run proc calls (st0, w0) = (st', w') → hasOpened st' = false →
      fd st' = None ∧ pendingWrites st' = pendingWrites st0
      ∧ no_new_write w0 w' ∧ file w' = file w0) as H.
    { clear w. induction calls as [|c calls IH]; intros st0 w0 st' w' Hop Hfd.
      - intros [= <- <-] _. split_and!; try done. apply no_new_write_refl.
      - cbn. pose proof (step_before_open proc c st0 w0 Hop Hfd) as Hs.
        destruct (step proc c (st0, w0)) as [st1 w1] eqn:Hstep.
        intros Hrun Hfinal.
        change (run proc calls (st1, w1) = (st', w')) in Hrun.
        destruct (hasOpened st1) eqn:Hop1.
        { pose proof (run_hasOpened proc calls (st1, w1) Hop1) as Hm.
          rewrite Hrun in Hm. cbn in Hm. congruence. }
        destruct Hs as (Hfd1 & _ & Hpw1 & (rest1 & Htr1 & Hrest1) & Hfile1 & _);
          [done|].
        destruct (IH st1 w1 st' w' Hop1 Hfd1 Hrun Hfinal)
          as (? & ? & (rest & Htr & Hrest) & ?).
        split_and!; try congruence.
        exists (rest1 ++ rest). rewrite Htr, Htr1, <- app_assoc.
        split; [done|]. by apply Forall_app. }
    intros st' w' Hrun Hfinal. by apply (H (constructor productName) w).
  - intros env level msg info time st w str Hfd Hpf Hstr.
    by apply (_write_fd_null _ _ _ _ _ _ _ _ str).
Qed.

(** ** The lines [_write] queues hold no newline *)

Section NewlineFree.
Implicit Types (s t : str) (c : N).

Lemma newline_free_nil : newline_free [].
Proof. apply not_elem_of_nil. Qed.

Lemma newline_free_app s t :
  newline_free s → newline_free t → newline_free (s ++ t).
Proof. unfold newline_free. rewrite not_elem_of_app. tauto. Qed.

Lemma newline_free_cons c s :
  c ≠ newLineByte → newline_free s → newline_free (c :: s).
Proof. unfold newline_free. rewrite not_elem_of_cons. intros ? ?. by split. Qed.

(** Decided by evaluation, for the literals of the source. *)
Lemma newline_free_decide s :
  bool_decide (newLineByte ∉ s) = true → newline_free s.
Proof. apply bool_decide_eq_true_1. Qed.

Lemma hex_digit_ne_newline d : hex_digit d ≠ newLineByte.
Proof. unfold hex_digit, newLineByte. destruct (d <? 10)%N; lia. Qed.

Lemma unicode_escape_newline_free c : newline_free (unicode_escape c).
Proof.
  unfold unicode_escape.
  repeat (apply newline_free_cons; [first [done|apply hex_digit_ne_newline]|]).
  apply newline_free_nil.
Qed.

Lemma quote_unit_newline_free c : newline_free (quote_unit c).
Proof.
  unfold quote_unit.
  repeat (case_match; [by apply newline_free_decide|]).
  case_match; [apply unicode_escape_newline_free|].
  apply newline_free_cons; [|apply newline_free_nil].
  unfold newLineByte. intros ->. done.
Qed.

Lemma is_high_ne_newline c : is_high c = true → c ≠ newLineByte.
Proof. unfold is_high, newLineByte. intros H ->. done. Qed.

Lemma is_low_ne_newline c : is_low c = true → c ≠ newLineByte.
Proof. unfold is_low, newLineByte. intros H ->. done. Qed.

Lemma quote_body_newline_free s : newline_free (quote_body s).
Proof.
  induction s as [|c|c d s IH1 IH2] using str_pair_ind.
  - apply newline_free_nil.
  - cbn [quote_body]. repeat case_match; rewrite ?app_nil_r;
      first [apply unicode_escape_newline_free|apply quote_unit_newline_free].
  - change (quote_body (c :: d :: s)) with
      (if is_high c then
         if is_low d then c :: d :: quote_body s
         else unicode_escape c ++ quote_body (d :: s)
       else if is_low c then unicode_escape c ++ quote_body (d :: s)
       else quote_unit c ++ quote_body (d :: s)).
    destruct (is_high c) eqn:Hc; [destruct (is_low d) eqn:Hd|destruct (is_low c)].
    + apply newline_free_cons; [by apply is_high_ne_newline|].
      apply newline_free_cons; [by apply is_low_ne_newline|done].
    + apply newline_free_app; [apply unicode_escape_newline_free|done].
    + apply newline_free_app; [apply unicode_escape_newline_free|done].
    + apply newline_free_app; [apply quote_unit_newline_free|done].
Qed.

Lemma QuoteJSONString_newline_free s : newline_free (QuoteJSONString s).
Proof.
  unfold QuoteJSONString. apply newline_free_app; [by apply newline_free_decide|].
  apply newline_free_app; [apply quote_body_newline_free|].
  by apply newline_free_decide.
Qed.

Lemma string_of_uint_digits (d : Decimal.uint) :
  newline_free (lit (NilEmpty.string_of_uint d)).
Proof.
  induction d; cbn [NilEmpty.string_of_uint];
    first [apply newline_free_nil
          |apply newline_free_cons; [unfold newLineByte; cbn; lia|done]].
Qed.

Lemma decimal_newline_free (n : Z) : newline_free (decimal n).
Proof.
  unfold decimal, NilZero.string_of_int, NilZero.string_of_uint.
  destruct (Z.to_int n) as [d|d].
  - destruct d; first [by apply newline_free_decide|apply string_of_uint_digits].
  - change (lit (String "-" ?x)) with (45%N :: lit x).
    destruct d;
      first [by apply newline_free_decide
            |apply newline_free_cons; [done|apply string_of_uint_digits]].
Qed.

Lemma join_newline_free sep (parts : list str) :
  newline_free sep → Forall newline_free parts →
  newline_free (join sep parts).
Proof.
  intros Hsep Hparts. induction Hparts as [|p [|q parts] Hp Hrest IH].
  - apply newline_free_nil.
  - done.
  - change (join sep (p :: q :: parts)) with (p ++ sep ++ join sep (q :: parts)).
    apply newline_free_app; [done|]. by apply newline_free_app.
Qed.

(** Splits a goal [newline_free (..)] along [++] and [::], closing the
    parts that are closed terms. *)
Ltac nlf :=
  repeat first
    [ apply newline_free_nil
    | apply newline_free_app
    | apply newline_free_cons; [by vm_compute|] ].

(** Induction on [value] that reaches under the lists. *)
Lemma value_nested_ind (P : value → Prop) :
  P Undefined → P Null → (∀ b, P (Bool b)) → (∀ n, P (Num n)) →
  (∀ s, P (Str s)) →
  (∀ xs, Forall P xs → P (Arr xs)) →
  (∀ props, Forall (λ kx, P kx.2) props → P (Obj props)) →
  P Circular →
  ∀ x, P x.
Proof.
  intros HU HN HB HNum HS HA HO HC.
  fix IH 1.
  intros [| |b|n|s|xs|props|];
    [exact HU|exact HN|apply HB|apply HNum|apply HS| | |exact HC].
  - apply HA. induction xs as [|x xs IHxs]; constructor; [apply IH|done].
  - apply HO. induction props as [|[k x] props IHps]; constructor;
      [apply IH|done].
Qed.

Lemma SerializeJSONProperty_newline_free (x : value) s :
  SerializeJSONProperty x = Text s → newline_free s.
Proof.
  revert s. induction x as [| |b|n|t|xs IH|props IH|] using value_nested_ind;
    intros s; cbn [SerializeJSONProperty]; try done.
  - intros [= <-]. by apply newline_free_decide.
  - destruct b; intros [= <-]; by apply newline_free_decide.
  - intros [= <-]. apply decimal_newline_free.
  - intros [= <-]. apply QuoteJSONString_newline_free.
  - match goal with |- context [?f xs] =>
      assert (∀ ps, f xs = inr ps → Forall newline_free ps) as Hel
    end.
    { induction IH as [|x xs Hx _ IHxs]; intros ps; [by intros [= <-]|].
      destruct (SerializeJSONProperty x) as [t| |e] eqn:Hser; [| |done].
      - match goal with |- context [?f xs] => destruct (f xs) as [e|ps'] end;
          [done|]. intros [= <-]. constructor; [by apply Hx|by apply IHxs].
      - match goal with |- context [?f xs] => destruct (f xs) as [e|ps'] end;
          [done|]. intros [= <-].
        constructor; [nlf|by apply IHxs]. }
    match goal with |- context [?f xs] => destruct (f xs) as [e|ps] end;
      [done|]. intros [= <-]. nlf.
    apply join_newline_free; [nlf|by apply Hel].
  - match goal with |- context [?f props] =>
      assert (∀ ps, f props = inr ps → Forall newline_free ps) as Hel
    end.
    { induction IH as [|[k x] props Hx _ IHps]; intros ps; [by intros [= <-]|].
      cbn [snd] in Hx.
      destruct (SerializeJSONProperty x) as [t| |e] eqn:Hser; [|by apply IHps|done].
      match goal with |- context [?f props] => destruct (f props) as [e|ps'] end;
        [done|]. intros [= <-]. constructor; [|by apply IHps].
      nlf; [apply quote_body_newline_free|by apply Hx]. }
    match goal with |- context [?f props] => destruct (f props) as [e|ps] end;
      [done|]. intros [= <-]. nlf.
    apply join_newline_free; [nlf|by apply Hel].
Qed.

Lemma stringifyLine_newline_free proc productName level msg info time
    truncated s :
  stringifyLine proc productName level msg info time truncated = Normal s →
  newline_free s.
Proof.
  unfold stringifyLine, JSON_stringify.
  destruct (LogLine.new _ _ _ _ _ _ _) as [line|]; [|done].
  destruct (SerializeJSONProperty _) as [t| |e] eqn:Hser; [|done..].
  intros [= <-]. by eapply SerializeJSONProperty_newline_free.
Qed.

(** Every string [_write] queues is free of newlines: one line of the
    file per call. *)
Lemma encode_newline_free proc productName level msg info time s :
  encode proc productName level msg info time = Normal s → newline_free s.
Proof.
  unfold encode.
  destruct (stringifyLine _ _ _ _ _ _ None) as [str|] eqn:Hstr; [|done].
  destruct (_ <? _).
  - apply stringifyLine_newline_free.
  - intros [= <-]. by eapply stringifyLine_newline_free.
Qed.

End NewlineFree.

(** ** [open] establishes the invariant *)

Lemma open_Synced env st w :
  readFile_r env = None →
  (open env st w).1.1 = None →
  (is_Some (file w) ∨ (size st = 0 ∧ newLineOffsets st = [])) →
  Synced (open env st w).1.2 (open env st w).2
  ∧ (is_Some (file w) ∨ lines st = 0 → Counted (open env st w).1.2).
Proof.
  intros Hread. unfold open, open_descriptor, mkdir, readFile, FS.open.
  destruct (fd_truthy (fd st)); [done|].
  destruct (mkdir_r env); [done|]. cbn. rewrite Hread.
  destruct (file w) as [content|] eqn:Hfile; cbn.
  - destruct (open_r env) as [e|fd']; [done|]. cbn. intros _ _. split.
    + exists content. cbn. by rewrite Hfile.
    + intros _. done.
  - destruct (open_r env) as [e|fd']; [done|]. cbn.
    intros _ [[? [=]]|[Hs Ho]]. split.
    + exists []. cbn. by rewrite Hfile.
    + intros [[? [=]]|Hl]. unfold Counted. cbn. by rewrite Ho, Hl.
Qed.

(** ** The invariant along the write path *)

Lemma _flush_reported env st w :
  reported (_flush env st w).2 = reported w.
Proof.
  unfold _flush. cbn. destruct (fd st) as [fdv|]; [|done].
  destruct (negb _); [done|]. unfold write. cbn.
  destruct (write_r env) as [e|n]; [done|]. cbn.
  match goal with |- context [rotate env ?s ?w0] =>
    pose proof (rotate_frame env s w0) as Hr;
    destruct (rotate env s w0) as [[r st'] w']
  end.
  destruct Hr as (_ & _ & _ & Hr & _). cbn. by rewrite Hr.
Qed.

(** A call of [_write] on a logger whose bookkeeping agrees with the
    file, whose queue is empty and whose write takes the whole buffer,
    leaves it so whenever it reports no error. *)
Lemma _write_keeps_invariant proc env level msg info time st w st' w' :
  pendingFlush st = None → pendingWrites st = [] →
  Synced st w → Counted st →
  (∀ n s,
     write_r env = inr n →
     encode proc (productName st) level msg info time = Normal s →
     (length (roundBuffer [s]) ≤ n)%nat) →
  _write proc env level msg info time st w = (Resolved, st', w') →
  reported w' = reported w →
  Synced st' w' ∧ Counted st'.
Proof.
  intros Hpf Hpw Hsync Hcount Hfull. unfold _write.
  destruct (encode _ _ _ _ _ _) as [s|] eqn:Henc; [|done].
  pose proof (encode_newline_free _ _ _ _ _ _ _ Henc) as Hfree.
  unfold flush. cbn. rewrite Hpf, Hpw. cbn.
  pose proof (_flush_reported env (set_pendingWrites [s] st) w) as Hrep.
  destruct (_flush env (set_pendingWrites [s] st) w) as [[[r|e] st1] w1] eqn:Hrun;
    [|done].
  cbn in Hrep. destruct r as [err|].
  - intros [= <- <-]. cbn. rewrite Hrep. intros Habs.
    apply (f_equal length) in Habs. rewrite length_app in Habs. cbn in Habs. lia.
  - intros [= <- <-] _.
    destruct (_flush_invariant env (set_pendingWrites [s] st) st1 w w1)
      as (Hsync1 & _ & _ & Hcount1); [done..|].
    split; [done|]. apply Hcount1; cbn; try done.
    + by constructor.
    + intros n Hn. by apply Hfull.
Qed.

(** ** The theorems at concrete inputs *)


(** C1 on 4095 lines plus one: the round cuts 1025 lines. *)
Lemma C1_witness :
  let st := Ex.nearly_full in
  let w := Ex.nearly_full_world in
  (fd st = Some 7 ∧ write_r Ex.ok = inr 4096%nat
   ∧ MAX_LOG_LINES ≤ lines (afterWrite 4096 st))
  ∧ ∃ st' w',
      _flush Ex.ok st w = (Normal None, st', w')
      ∧ lines (afterWrite 4096 st) = 4096
      ∧ lines st' = lines (afterWrite 4096 st) - 1025
      ∧ size st' = size (afterWrite 4096 st) - 1025
      ∧ file w' = Some (replicate 3070 newLineByte ++ [120; 10]%N).
Proof.
  intros st w.
  assert (fd st = Some 7) as Hfd by (vm_compute; reflexivity).
  assert (MAX_LOG_LINES ≤ lines (afterWrite 4096 st)) as Hlines
    by (vm_compute; discriminate).
  split; [by split_and!|].
  destruct (C1_line_count_rotation Ex.ok st w 7 4096 Hfd ltac:(done) eq_refl
              Hlines) as (_ & _ & Hsucc).
  exists (_flush Ex.ok st w).1.2, (_flush Ex.ok st w).2.
  assert (_flush Ex.ok st w
          = (Normal None, (_flush Ex.ok st w).1.2, (_flush Ex.ok st w).2))
    as Hrun by (vm_compute; reflexivity).
  destruct (Hsucc _ _ Hrun) as (off & content & Hoff & Hfile & Hl & Hs & _).
  assert (off = 1024) as -> by (vm_compute in Hoff; congruence).
  split; [exact Hrun|]. split; [vm_compute; reflexivity|].
  split; [exact Hl|]. split; [exact Hs|]. vm_compute. reflexivity.
Defined.

(** C2 on a 32 MiB file without newlines and a write that takes no byte. *)
Lemma C2_witness :
  let env := Ex.short_write 0 in
  let st := Ex.on_blob in
  let w := Ex.blob_world in
  (fd st = Some 7 ∧ write_r env = inr 0%nat ∧ file w = Some Ex.blob
   ∧ lines (afterWrite 0 st) < MAX_LOG_LINES
   ∧ MAX_LOG_FILE_SIZE ≤ size (afterWrite 0 st)
   ∧ newLineOffsets (afterWrite 0 st) = []
   ∧ Synced st w)
  ∧ ∃ st' w',
      _flush env st w
      = (Normal (Some (PlainError "Cannot open twice()")), st', w')
      ∧ size st' = 0 ∧ fd st' = Some 7
      ∧ file w'
        = Some (drop (Z.to_nat 8388609)
                  (Ex.blob ++ take 0 (roundBuffer (pendingWrites st))))
      ∧ ¬ Synced st' w'.
Proof.
  intros env st w.
  assert (fd st = Some 7) as Hfd by reflexivity.
  assert (write_r env = inr 0%nat) as Hw by reflexivity.
  assert (file w = Some Ex.blob) as Hfile by reflexivity.
  assert (lines (afterWrite 0 st) < MAX_LOG_LINES) as Hlines
    by (vm_compute; reflexivity).
  assert (MAX_LOG_FILE_SIZE ≤ size (afterWrite 0 st)) as Hsize
    by (vm_compute; discriminate).
  assert (newLineOffsets (afterWrite 0 st) = []) as Hoff
    by (vm_compute; reflexivity).
  assert (Synced st w) as Hsync.
  { exists Ex.blob. split; [exact Hfile|]. split.
    - change (size st) with 33554432. unfold Ex.blob.
      rewrite length_replicate, Z2Nat.id; [reflexivity|lia].
    - change (newLineOffsets st) with (@nil Z). symmetry.
      apply scanNewLines_newline_free. unfold Ex.blob.
      intros [Heq _]%elem_of_replicate. discriminate Heq. }
  assert (∀ o, o ∈ newLineOffsets (afterWrite 0 st) → o ≤ 8388608) as Hnone.
  { rewrite Hoff. intros o Ho. apply elem_of_nil in Ho. destruct Ho. }
  assert (7 ≠ 0) as Hne by (clear; lia).
  destruct (C2_degenerate_cut_does_not_reopen env st w 7 0 Ex.blob
              Hfd Hne Hw Hfile eq_refl eq_refl eq_refl Hlines Hsize Hnone)
    as (_ & st' & w' & Hrun & _ & Hs & _ & Hfd' & Hfile' & _ & Hbroken).
  split; [exact (conj Hfd (conj Hw (conj Hfile (conj Hlines
                   (conj Hsize (conj Hoff Hsync))))))|].
  exists st', w'. split; [exact Hrun|]. split; [exact Hs|].
  split; [exact Hfd'|]. split; [exact Hfile'|]. exact (Hbroken Hsync).
Defined.



Lemma Normal_inv {A} (c : Completion A) (d : A) :
  match c with Normal _ => true | Throw _ => false end = true →
  c = Normal (match c with Normal a => a | Throw _ => d end).
Proof. by destruct c. Qed.

(** C5 on an [info] line that carries a string of 40000 code units. *)
Lemma C5_witness :
  stringifyLine Ex.proc Ex.app (lit "info") (lit "a really large msg")
    Ex.long_fields 0 None
  = Normal Ex.long_line
  ∧ MAX_LOG_LINE_SIZE < Z.of_nat (length Ex.long_line)
  ∧ ∃ line str',
      encode Ex.proc Ex.app (lit "info") (lit "a really large msg")
        Ex.long_fields 0 = Normal str'
      ∧ JSON_stringify (LogLine.to_value line) = Normal (Some str')
      ∧ LogLine.level line = lit "warn"
      ∧ LogLine.fields line = isTruncated
      ∧ LogLine.truncated line
        = Some (take (Z.to_nat 32765) Ex.long_line ++ lit "...")
      ∧ length (take (Z.to_nat 32765) Ex.long_line ++ lit "...")
        = Z.to_nat 32768.
Proof.
  assert (stringifyLine Ex.proc Ex.app (lit "info") (lit "a really large msg")
            Ex.long_fields 0 None = Normal Ex.long_line) as Hstr.
  { apply (Normal_inv
             (stringifyLine Ex.proc Ex.app (lit "info")
                (lit "a really large msg") Ex.long_fields 0 None) []).
    vm_compute. reflexivity. }
  assert (MAX_LOG_LINE_SIZE < Z.of_nat (length Ex.long_line)) as Hlong
    by (vm_compute; reflexivity).
  split; [exact Hstr|]. split; [exact Hlong|].
  destruct (C5_oversized_line_is_truncated Ex.proc Ex.app (lit "info")
              (lit "a really large msg") Ex.long_fields 0 Ex.long_line Hstr)
    as (Hbig & _).
  destruct (Hbig Hlong)
    as (line & str' & Henc & Hjson & Hfields & Hinfo & _ & Htrunc & Hlen & _).
  exists line, str'. split_and!; [exact Henc|exact Hjson|by apply Hinfo|exact Hfields|exact Htrunc|exact Hlen].
Defined.

(** C6, as stated, fails after a partial write: one byte of ["ab\n"]
    is taken, [lines] becomes 1 and no offset is recorded. *)
Lemma C6_counterexample :
  let st := Ex.opened_on [] [lit "ab"] in
  let w := Ex.world_of [] in
  Counted st
  ∧ lines st = 0 ∧ newLineOffsets st = [] ∧ file w = Some []
  ∧ (_flush (Ex.short_write 1) st w).1.1 = Normal None
  ∧ file (_flush (Ex.short_write 1) st w).2 = Some [97%N]
  ∧ lines (_flush (Ex.short_write 1) st w).1.2 = 1
  ∧ newLineOffsets (_flush (Ex.short_write 1) st w).1.2 = []
  ∧ ¬ Counted (_flush (Ex.short_write 1) st w).1.2.
Proof.
  unfold Counted. vm_compute. split_and!; try reflexivity. discriminate.
Qed.

(** C6 on a round of two lines over the two-line file. *)
Lemma C6_witness :
  let st := Ex.opened_on Ex.two_lines [lit "a"; lit "b"] in
  let w := Ex.world_of Ex.two_lines in
  let st' := (_flush Ex.ok st w).1.2 in
  let w' := (_flush Ex.ok st w).2 in
  (Synced st w ∧ _flush Ex.ok st w = (Normal None, st', w'))
  ∧ Synced st' w'
  ∧ newLineOffsets st' = [26; 42; 44; 46]
  ∧ Counted st'.
Proof.
  intros st w st' w'.
  assert (Synced st w) as Hsync.
  { exists Ex.two_lines. by vm_compute. }
  assert (_flush Ex.ok st w = (Normal None, st', w')) as Hrun
    by (vm_compute; reflexivity).
  destruct (C6_offsets_follow_the_file Ex.ok st st' w w' Hsync Hrun)
    as (Hsync' & _ & _ & Hcount).
  split; [done|]. split; [exact Hsync'|]. split; [vm_compute; reflexivity|].
  apply Hcount.
  - by vm_compute.
  - done.
  - unfold newline_free. apply (bool_decide_unpack _). by vm_compute.
  - intros n [= <-]. vm_compute. lia.
Defined.


(** C8 on a descriptor-open step that fails with [EACCES], and with
    [ENOSPC]. *)
Lemma C8_witness :
  let st := constructor Ex.app in
  let w := Ex.disk (Some Ex.two_lines) in
  let err := OpenFailError "Could not open log file" "EACCES" true in
  (open (Ex.open_fails "EACCES") st w).1.1 = Some err
  ∧ shouldBail err = Some true
  ∧ open_r (Ex.open_fails "EACCES") = inl "EACCES"%string
  ∧ (open (Ex.open_fails "ENOSPC") st w).1.1
    = Some (OpenFailError "Could not open log file" "ENOSPC" false).
Proof.
  intros st w err.
  assert ((open (Ex.open_fails "EACCES") st w).1.1 = Some err) as Herr
    by reflexivity.
  destruct (C8_shouldBail_iff_descriptor_open_EACCES
              (Ex.open_fails "EACCES") st w err Herr) as ([_ Hbail] & _).
  assert ((open (Ex.open_fails "ENOSPC") st w).1.1
          = Some (OpenFailError "Could not open log file" "ENOSPC"
                    (String.eqb "ENOSPC" "EACCES"))) as Herr'
    by reflexivity.
  destruct (C8_shouldBail_iff_descriptor_open_EACCES
              (Ex.open_fails "ENOSPC") st w _ Herr') as (_ & _ & _ & Hother).
  split; [exact Herr|]. split; [by apply Hbail|]. split; [reflexivity|].
  rewrite Herr'. apply (f_equal Some).
  apply Hother; [reflexivity|reflexivity|discriminate].
Defined.

(** C9, as stated, fails when the reopen fails: the counters are those
    of the truncated file, not the ones before the truncation. *)
Lemma C9_counterexample :
  let env := Ex.open_fails "EMFILE" in
  let st1 := afterWrite 4096 Ex.nearly_full in
  let res := _flush env Ex.nearly_full Ex.nearly_full_world in
  res.1.1 = Normal (Some (WError "_truncate(): could not re open" "EMFILE"))
  ∧ lines st1 = 4096 ∧ size st1 = 4097
  ∧ lines res.1.2 = 3071 ∧ size res.1.2 = 3072
  ∧ length (newLineOffsets st1) = 4096%nat
  ∧ length (newLineOffsets res.1.2) = 3071%nat.
Proof. vm_compute. split_and!; reflexivity. Qed.

(** C9 on the same failing reopen. *)
Lemma C9_witness :
  let env := Ex.open_fails "EMFILE" in
  let st1 := afterWrite 4096 Ex.nearly_full in
  let w1 := (write env 7 (roundBuffer (pendingWrites Ex.nearly_full))
               Ex.nearly_full_world).2 in
  let err := WError "_truncate(): could not re open" "EMFILE" in
  let st' := (_truncate env (Some 1025) 1024 st1 w1).1.2 in
  let w' := (_truncate env (Some 1025) 1024 st1 w1).2 in
  (fd_truthy (fd st1) = true
   ∧ _truncate env (Some 1025) 1024 st1 w1 = (Normal (Some err), st', w'))
  ∧ lines st' = lines st1 - 1024 - 1
  ∧ size st' = size st1 - 1025
  ∧ flush env Ex.nearly_full Ex.nearly_full_world
    = (Resolved, set_pendingFlush None st', onError err w').
Proof.
  intros env st1 w1 err st' w'.
  assert (fd_truthy (fd st1) = true) as Hfd by (vm_compute; reflexivity).
  assert (_truncate env (Some 1025) 1024 st1 w1 = (Normal (Some err), st', w'))
    as Hrun by (vm_compute; reflexivity).
  assert (-1 ≤ 1024) as Hidx by lia.
  destruct (C9_truncation_failures env 1025 1024 st1 st' w1 w' err Hfd Hidx Hrun)
    as (Hcases & Hflush).
  split; [exact (conj Hfd Hrun)|].
  destruct Hcases
    as [(e & He & _)|[(e & He & _)|[Hreopen|[(e & c & f & He & _)
       |[(e & He & _)|(He & _)]]]]]; try discriminate He.
  destruct Hreopen as (e & content & _ & _ & _ & _ & Hl & Hs & _).
  split; [exact Hl|]. split; [exact Hs|].
  apply Hflush.
  - vm_compute. reflexivity.
  - vm_compute. discriminate.
  - vm_compute. reflexivity.
Defined.

(** C10, as stated, fails for [_write] on a logger that never opened:
    nothing is thrown, the error goes to [onError]. *)
Lemma C10_counterexample :
  let st := constructor Ex.app in
  let res := _write Ex.proc Ex.ok (lit "info") (lit "hello") (Obj []) 0 st
               (Ex.disk None) in
  hasOpened st = false
  ∧ res.1.1 = Resolved
  ∧ reported res.2 = [fd_is_null]
  ∧ ∀ e, res.1.1 ≠ Thrown e.
Proof. vm_compute. split_and!; try reflexivity. discriminate. Qed.

(** ** The bookkeeping along any sequence of facade calls *)

Lemma Synced_ext st st' w w' :
  file w' = file w → size st' = size st →
  newLineOffsets st' = newLineOffsets st →
  Synced st w → Synced st' w'.
Proof.
  intros Hf Hs Ho (content & ? & ? & ?). exists content.
  rewrite Hf, Hs, Ho. done.
Qed.

Lemma Counted_ext st st' :
  lines st' = lines st → newLineOffsets st' = newLineOffsets st →
  Counted st → Counted st'.
Proof. unfold Counted. intros -> ->. done. Qed.

(** The state after the cut of a non-degenerate truncation agrees with
    the retained tail of the file, whatever happens to the descriptors
    afterwards. *)
Lemma Synced_moved i off st1 st' w1 w' content :
  Synced st1 w1 → file w1 = Some content →
  newLineOffsets st1 !! i = Some off →
  size st' = size st1 - (off + 1) →
  newLineOffsets st'
  = (λ o, o - (off + 1)) <$> drop (S i) (newLineOffsets st1) →
  file w' = Some (drop (Z.to_nat (off + 1)) content) →
  Synced st' w'.
Proof.
  intros (content' & Hfile & Hsize & Hoff) Hfile' Hi Hsize' Hoff' Hfile''.
  rewrite Hfile in Hfile'. injection Hfile' as ->.
  rewrite Hoff in Hi.
  pose proof (list_elem_of_lookup_2 _ _ _ Hi) as Hin%scanNewLines_lower.
  exists (drop (Z.to_nat (off + 1)) content). split_and!; try done.
  - rewrite Hsize', Hsize, length_drop. lia.
  - rewrite Hoff', Hoff. by rewrite (scanNewLines_drop _ i).
Qed.



(** A buffer of a non-empty round ends with a newline byte. *)
Lemma roundBuffer_ends_with_newline (pending : list str) :
  pending ≠ [] → ∃ body, roundBuffer pending = body ++ [newLineByte].
Proof.
  intros Hne. rewrite roundBuffer_concat by done.
  destruct pending as [|l pending _] using rev_ind; [done|].
  rewrite fmap_app, concat_app. cbn. rewrite app_nil_r, app_assoc. eauto.
Qed.








(** [open] and [_truncate] leave the name and the byte counter alone. *)
Lemma open_keeps env st w :
  productName (open env st w).1.2 = productName st
  ∧ bytesWritten (open env st w).1.2 = bytesWritten st.
Proof.
  unfold open, open_descriptor, mkdir, readFile, FS.open.
  destruct (fd_truthy (fd st)); [done|].
  destruct (mkdir_r env); [done|]. cbn.
  destruct (readFile_r env); cbn.
  - destruct (negb _); [done|]. by destruct (open_r env).
  - destruct (file w); cbn; by destruct (open_r env).
Qed.

Lemma _truncate_keeps env pos idx st w :
  productName (_truncate env pos idx st w).1.2 = productName st
  ∧ bytesWritten (_truncate env pos idx st w).1.2 = bytesWritten st.
Proof.
  unfold _truncate. destruct pos as [pos|]; [|done].
  destruct (pos <? 0); [done|]. unfold pipeline. cbn.
  destruct (pipeline_r env); [done|].
  destruct (file w); [|done]. cbn. unfold rename. cbn.
  destruct (rename_r env); [done|]. cbn.
  destruct (idx =? -1); cbn.
  - destruct (fd st); [|done]. unfold close.
    destruct (close_r env); [done|].
    match goal with |- context [open env ?s ?w0] =>
      pose proof (open_keeps env s w0) as H;
      destruct (open env s w0) as [[r st'] w']
    end. done.
  - unfold FS.open. cbn. destruct (open_r env); [done|]. cbn.
    destruct (fd st); [|done]. unfold close.
    by destruct (close_r env).
Qed.

Lemma rotate_keeps env st w :
  productName (rotate env st w).1.2 = productName st
  ∧ bytesWritten (rotate env st w).1.2 = bytesWritten st.
Proof.
  unfold rotate. destruct (_ <=? _); [apply _truncate_keeps|].
  destruct (_ <=? _); [|done].
  destruct (findCut _ _). apply _truncate_keeps.
Qed.








(** ** The counters against the trace *)

Lemma writeCalls_app tr rest :
  writeCalls (tr ++ rest) = writeCalls tr + writeCalls rest.
Proof.
  induction tr as [|c tr IH]; [done|]. cbn. destruct c; rewrite IH; lia.
Qed.

Lemma bytesOffered_app tr rest :
  bytesOffered (tr ++ rest) = bytesOffered tr + bytesOffered rest.
Proof.
  induction tr as [|c tr IH]; [done|]. cbn. destruct c; rewrite IH; lia.
Qed.

Lemma bytesOffered_nonneg tr : 0 ≤ bytesOffered tr.
Proof. induction tr as [|c tr IH]; [done|]. cbn. destruct c; lia. Qed.

Lemma no_write_tally rest :
  Forall (λ c, ¬ is_write c) rest →
  writeCalls rest = 0 ∧ bytesOffered rest = 0.
Proof.
  induction 1 as [|c rest Hc _ [IH1 IH2]]; [done|].
  destruct c; cbn in *; tauto.
Qed.

Lemma Tally_refl st w : Tally st st w w.
Proof. unfold Tally. lia. Qed.

Lemma Tally_trans st1 st2 st3 w1 w2 w3 :
  Tally st1 st2 w1 w2 → Tally st2 st3 w2 w3 → Tally st1 st3 w1 w3.
Proof. unfold Tally. lia. Qed.

(** A step that counts no write, takes no byte and issues no [fs.write]. *)
Lemma Tally_idle st st' w w' :
  _writeCalled st' = _writeCalled st → bytesWritten st' = bytesWritten st →
  no_new_write w w' → Tally st st' w w'.
Proof.
  intros Hc Hb (rest & Htr & Hrest).
  destruct (no_write_tally rest Hrest) as [H1 H2].
  unfold Tally. rewrite Hc, Hb, Htr, writeCalls_app, bytesOffered_app. lia.
Qed.

Ltac tally :=
  unfold Tally; cbn; rewrite ?writeCalls_app, ?bytesOffered_app; cbn; lia.

Lemma open_Tally env st w :
  Tally st (open env st w).1.2 w (open env st w).2.
Proof.
  pose proof (open_frame env st w) as H.
  destruct (open_keeps env st w) as [_ Hb].
  destruct (open env st w) as [[r st'] w'].
  destruct H as (Hc & _ & Hnw & _). by apply Tally_idle.
Qed.

Lemma rotate_Tally env st w :
  Tally st (rotate env st w).1.2 w (rotate env st w).2.
Proof.
  pose proof (rotate_frame env st w) as H.
  destruct (rotate_keeps env st w) as [_ Hb].
  destruct (rotate env st w) as [[r st'] w'].
  destruct H as (Hc & _ & Hnw & _). by apply Tally_idle.
Qed.

Lemma _flush_Tally env st w :
  Tally st (_flush env st w).1.2 w (_flush env st w).2.
Proof.
  unfold _flush. cbn. destruct (fd st) as [fdv|]; [|tally].
  destruct (negb _); [tally|]. unfold write. cbn.
  destruct (write_r env) as [e|n]; cbn.
  - tally.
  - eapply Tally_trans; [|apply rotate_Tally].
    unfold Tally, account. cbn.
    rewrite writeCalls_app, bytesOffered_app. cbn.
    destruct (negb _); cbn; rewrite length_take; lia.
Qed.

Lemma flush_Tally env st w :
  Tally st (flush env st w).1.2 w (flush env st w).2.
Proof.
  unfold flush. destruct (pendingFlush st); [tally|].
  destruct (bool_decide _); [tally|].
  pose proof (_flush_Tally env st w) as H.
  destruct (_flush env st w) as [[[[e|]|e] st'] w']; done.
Qed.

Lemma _write_Tally proc env level msg info time st w :
  Tally st (_write proc env level msg info time st w).1.2
        w (_write proc env level msg info time st w).2.
Proof.
  unfold _write. destruct (encode _ _ _ _ _ _); [|tally].
  match goal with |- context [flush env ?s ?w0] =>
    apply (flush_Tally env s w0)
  end.
Qed.

Lemma _log_Tally proc env level msg info ts st w :
  Tally st (MainLogger._log proc env level msg info ts st w).1.2
        w (MainLogger._log proc env level msg info ts st w).2.
Proof.
  unfold MainLogger._log. destruct (negb (hasOpened st)); [tally|].
  destruct msg as [| | | |[|c m]| | |]; try tally.
  destruct (_ && _); [tally|]. apply _write_Tally.
Qed.

Lemma destroy_Tally env unlink_r st w :
  Tally st (Teardown.destroy env unlink_r st w).1.2
        w (Teardown.destroy env unlink_r st w).2.
Proof.
  unfold Teardown.destroy, Teardown.unlink, close.
  destruct (fd st) as [fdv|]; [|tally].
  destruct (close_r env); cbn.
  - tally.
  - destruct unlink_r; [|destruct (file w)]; tally.
Qed.

Lemma exec_Tally proc o st w :
  Tally st (exec proc o (st, w)).1 w (exec proc o (st, w)).2.
Proof.
  destruct o as [env|env level msg info time|env|env level msg info ts
                |env unlink_r]; cbn.
  - pose proof (open_Tally env st w).
    by destruct (open env st w) as [[r st'] w'].
  - pose proof (_write_Tally proc env level msg info time st w).
    by destruct (_write _ _ _ _ _ _ _ _) as [[r st'] w'].
  - pose proof (flush_Tally env st w).
    by destruct (flush env st w) as [[r st'] w'].
  - pose proof (_log_Tally proc env level msg info ts st w).
    by destruct (MainLogger._log _ _ _ _ _ _ _ _) as [[r st'] w'].
  - pose proof (destroy_Tally env unlink_r st w).
    by destruct (Teardown.destroy _ _ _ _) as [[r st'] w'].
Qed.

Lemma execAll_Tally proc ops st w :
  Tally st (execAll proc ops (st, w)).1 w (execAll proc ops (st, w)).2.
Proof.
  revert st w. induction ops as [|o ops IH]; intros st w; [tally|].
  cbn. pose proof (exec_Tally proc o st w) as H.
  destruct (exec proc o (st, w)) as [st1 w1].
  eapply Tally_trans; [exact H|apply IH].
Qed.

(** X2: whatever is called on the logger ([open], [_write], [flush], the
    level methods, [destroy]) and whatever the file system answers, the
    counter behind [getWriteCalledCounter] grows by exactly the number of
    [fs.write] calls issued: on a fresh logger it is the number of writes
    in the trace. *)
Theorem X2_write_counter_counts_the_writes
    (proc : Process) (ops : list Op) (st : t) (w : World LogError) :
  let st' := (execAll proc ops (st, w)).1 in
  let w' := (execAll proc ops (st, w)).2 in
  getWriteCalledCounter st' - getWriteCalledCounter st
  = writeCalls (trace w') - writeCalls (trace w)
  ∧ (getWriteCalledCounter st = 0 → trace w = [] →
     getWriteCalledCounter st' = writeCalls (trace w')).
Proof.
  cbn. destruct (execAll_Tally proc ops st w) as [H _].
  unfold getWriteCalledCounter. split; [done|].
  intros H0 Htr. rewrite H0, Htr in H. cbn in H. lia.
Qed.

(** X3: [bytesWritten] never decreases, truncations included, and never
    grows by more than the bytes handed to [fs.write] in the meantime. *)
Theorem X3_bytesWritten_is_monotone
    (proc : Process) (ops : list Op) (st : t) (w : World LogError) :
  let st' := (execAll proc ops (st, w)).1 in
  let w' := (execAll proc ops (st, w)).2 in
  bytesWritten st ≤ bytesWritten st'
  ∧ bytesWritten st' - bytesWritten st
    ≤ bytesOffered (trace w') - bytesOffered (trace w).
Proof.
  cbn. destruct (execAll_Tally proc ops st w) as [_ H]. lia.
Qed.

(** ** Partial writes *)

(** The queue a round leaves behind: empty after a write that took the
    whole buffer, a lone ['\n'] after a partial write, whatever the
    truncation step does afterwards. *)
Lemma _flush_queue env st w fdv n :
  fd st = Some fdv → fdv ≠ 0 → write_r env = inr n →
  pendingWrites (_flush env st w).1.2
  = if decide (length (roundBuffer (pendingWrites st)) ≤ n)%nat
    then [] else [NL].
Proof.
  intros Hfd Hne Hw. rewrite (_flush_written _ _ _ fdv n) by done.
  destruct (afterWrite_fields n st) as (_ & _ & _ & _ & _ & _ & Hpw & _).
  match goal with |- context [rotate env ?s ?w0] =>
    pose proof (rotate_frame env s w0) as Hr;
    destruct (rotate env s w0) as [[r st'] w']
  end.
  destruct Hr as (_ & Hq & _). cbn. by rewrite Hq.
Qed.

Lemma roundBuffer_after_partial s :
  roundBuffer ([NL] ++ [s])
  = [newLineByte; newLineByte] ++ Buffer_from s ++ [newLineByte].
Proof.
  rewrite roundBuffer_concat by done.
  change ([NL] ++ [s]) with [NL; s]. rewrite !fmap_cons, !concat_cons.
  change (Buffer_from NL) with [newLineByte]. cbn. by rewrite app_nil_r.
Qed.

(** X4: a round whose [fs.write] took fewer bytes than the buffer leaves
    the lone string ['\n'] in the queue.  The next round therefore hands
    [fs.write] a buffer that starts with two newline bytes: the first
    ends the torn line, the second is an empty line of its own, and the
    new line follows; when that write takes the whole buffer and no
    truncation is due, these are the bytes the file gains. *)
Theorem X4_partial_write_leaves_an_empty_line
    (env : Env) (st : t) (w : World LogError) (fdv : Z) (n : nat) :
  fd st = Some fdv → fdv ≠ 0 → write_r env = inr n →
  (n < length (roundBuffer (pendingWrites st)))%nat →
  let st' := (_flush env st w).1.2 in
  let w' := (_flush env st w).2 in
  pendingWrites st' = [NL]
  ∧ ∀ proc env2 level msg info time s content fdv2 n2,
      let buf2 := [newLineByte; newLineByte] ++ Buffer_from s ++ [newLineByte] in
      pendingFlush st' = None → fd st' = Some fdv2 → fdv2 ≠ 0 →
      encode proc (productName st') level msg info time = Normal s →
      file w' = Some content →
      write_r env2 = inr n2 → (length buf2 ≤ n2)%nat →
      lines st' + 2 < MAX_LOG_LINES →
      size st' + Z.of_nat (length buf2) < MAX_LOG_FILE_SIZE →
      roundBuffer (pendingWrites st' ++ [s]) = buf2
      ∧ file (_write proc env2 level msg info time st' w').2
        = Some (content ++ buf2).
Proof.
  intros Hfd Hne Hw Hshort. cbn zeta.
  assert (pendingWrites (_flush env st w).1.2 = [NL]) as Hq.
  { rewrite (_flush_queue _ _ _ fdv n) by done. rewrite decide_False; [done|lia]. }
  split; [done|].
  destruct (_flush env st w) as [[r st'] w']. cbn in *.
  intros proc env2 level msg info time s content fdv2 n2 Hpf Hfd2 Hne2 Henc
    Hfile Hw2 Hfull Hlines Hsize.
  rewrite Hq. split; [apply roundBuffer_after_partial|].
  unfold _write. rewrite Henc. unfold flush. cbn. rewrite Hpf, Hq. cbn.
  pose proof (_flush_one_write env2 (set_pendingWrites [NL; s] st') w' fdv2
                Hfd2 Hne2) as H.
  cbn zeta in H. cbn [pendingWrites set_pendingWrites] in H.
  change [NL; s] with ([NL] ++ [s]) in H.
  rewrite roundBuffer_after_partial in H.
  change ([NL] ++ [s]) with [NL; s] in H.
  destruct (_flush env2 (set_pendingWrites [NL; s] st') w') as [[r2 st2] w2].
  destruct H as (_ & _ & _ & _ & H); [done|].
  destruct (H n2 content Hw2 Hfull Hfile) as (_ & _ & Hfinal).
  specialize (Hfinal Hlines Hsize).
  destruct r2 as [[err|]|e]; done.
Qed.

(** ** [flush] on an empty queue *)

Lemma _flush_empties_queue env st w :
  (∀ n, write_r env = inr n →
        (length (roundBuffer (pendingWrites st)) ≤ n)%nat) →
  pendingWrites (_flush env st w).1.2 = [].
Proof.
  intros Hfull.
  destruct (fd_truthy (fd st)) eqn:Htruthy.
  2:{ by rewrite _flush_fd_null. }
  destruct (fd st) as [fdv|] eqn:Hfd; [|done].
  assert (fdv ≠ 0) as Hne by (intros ->; done).
  destruct (write_r env) as [e|n] eqn:Hw.
  - by rewrite (_flush_write_error _ _ _ fdv e).
  - rewrite (_flush_queue _ _ _ fdv n) by done.
    rewrite decide_True; [done|]. by apply Hfull.
Qed.

(** X5: [flush] is idempotent.  After a [flush] that resolved and whose
    write, if any, took the whole buffer, a second [flush] finds the
    queue empty: it resolves at once, issues no call and changes
    nothing. *)
Theorem X5_flush_twice_is_flush_once
    (env env2 : Env) (st : t) (w : World LogError) :
  (∀ n, write_r env = inr n →
        (length (roundBuffer (pendingWrites st)) ≤ n)%nat) →
  (flush env st w).1.1 = Resolved →
  let st' := (flush env st w).1.2 in
  let w' := (flush env st w).2 in
  pendingWrites st' = []
  ∧ flush env2 st' w' = (Resolved, st', w').
Proof.
  intros Hfull Hres. cbn zeta.
  assert (pendingFlush (flush env st w).1.2 = None
          ∧ pendingWrites (flush env st w).1.2 = []) as [Hpf' Hq'].
  { revert Hres. unfold flush.
    destruct (pendingFlush st) as [e|] eqn:Hpf; [done|].
    destruct (bool_decide (pendingWrites st = [])) eqn:Hempty.
    { intros _. by apply bool_decide_eq_true_1 in Hempty. }
    pose proof (_flush_empties_queue env st w Hfull) as Hq.
    destruct (_flush env st w) as [[[r|e] st1] w1]; [|done].
    by destruct r. }
  destruct (flush env st w) as [[o st'] w']. cbn in *.
  split; [done|]. unfold flush. rewrite Hpf'.
  by rewrite bool_decide_eq_true_2.
Qed.

(** ** A round that throws *)

Lemma flush_wedged env st w e :
  pendingFlush st = Some e → flush env st w = (Rejected e, st, w).
Proof. intros H. unfold flush. by rewrite H. Qed.

(** X6: when a round leaves [lines] at 4096 or more while fewer than
    1025 offsets are recorded (as partial writes, which over-estimate
    [lines], make possible), [newLineOffsets[1024]] is [undefined], the
    position handed to [_truncate] is [NaN] and the round throws:
    [flush] does not hand the failure to [onError], its promise rejects,
    and [pendingFlush] is left holding the rejected round. *)
Theorem X6_overestimated_lines_make_the_round_throw
    (env : Env) (st : t) (w : World LogError) (fdv : Z) (n : nat) :
  fd st = Some fdv → fdv ≠ 0 → write_r env = inr n →
  pendingFlush st = None → pendingWrites st ≠ [] →
  MAX_LOG_LINES ≤ lines st + Z.of_nat (length (pendingWrites st)) →
  (length (newLineOffsets (afterWrite n st)) ≤ 1024)%nat →
  (_flush env st w).1.1 = Throw RangeError_start
  ∧ (flush env st w).1.1 = Rejected RangeError_start
  ∧ pendingFlush (flush env st w).1.2 = Some RangeError_start
  ∧ reported (flush env st w).2 = reported w.
Proof.
  intros Hfd Hne Hw Hpf Hq Hlines Hshort.
  assert (_flush env st w
          = (Throw RangeError_start, afterWrite n st,
             (write env fdv (roundBuffer (pendingWrites st)) w).2)) as Hrun.
  { rewrite (_flush_written _ _ _ fdv n) by done.
    destruct (afterWrite_fields n st) as (_ & Hl & _).
    rewrite rotate_lines by lia.
    rewrite lookup_ge_None_2 by done. done. }
  unfold flush. rewrite Hpf, bool_decide_eq_false_2 by done.
  rewrite Hrun. cbn. split_and!; try done.
  unfold write. by rewrite Hw.
Qed.

Lemma exec_wedged proc o st w e :
  on_write_path o → pendingFlush st = Some e →
  let st' := (exec proc o (st, w)).1 in
  let w' := (exec proc o (st, w)).2 in
  pendingFlush st' = Some e
  ∧ fd st' = fd st ∧ lines st' = lines st ∧ size st' = size st
  ∧ newLineOffsets st' = newLineOffsets st
  ∧ _writeCalled st' = _writeCalled st
  ∧ bytesWritten st' = bytesWritten st
  ∧ (∃ more, pendingWrites st' = pendingWrites st ++ more)
  ∧ file w' = file w ∧ tmp w' = tmp w ∧ trace w' = trace w.
Proof.
  intros Hpath Hpf.
  assert (∀ env level msg info time,
    let r := _write proc env level msg info time st w in
    pendingFlush r.1.2 = Some e
    ∧ fd r.1.2 = fd st ∧ lines r.1.2 = lines st ∧ size r.1.2 = size st
    ∧ newLineOffsets r.1.2 = newLineOffsets st
    ∧ _writeCalled r.1.2 = _writeCalled st
    ∧ bytesWritten r.1.2 = bytesWritten st
    ∧ (∃ more, pendingWrites r.1.2 = pendingWrites st ++ more)
    ∧ file r.2 = file w ∧ tmp r.2 = tmp w ∧ trace r.2 = trace w) as Hwrite.
  { intros env level msg info time. unfold _write.
    destruct (encode _ _ _ _ _ _) as [s|e'].
    - rewrite (flush_wedged _ _ _ e) by done. cbn.
      split_and!; try done. by exists [s].
    - cbn. split_and!; try done. exists []. by rewrite app_nil_r. }
  assert (pendingFlush st = Some e
    ∧ fd st = fd st ∧ lines st = lines st ∧ size st = size st
    ∧ newLineOffsets st = newLineOffsets st
    ∧ _writeCalled st = _writeCalled st
    ∧ bytesWritten st = bytesWritten st
    ∧ (∃ more, pendingWrites st = pendingWrites st ++ more)
    ∧ file w = file w ∧ tmp w = tmp w ∧ trace w = trace w) as Hsame.
  { split_and!; try done. exists []. by rewrite app_nil_r. }
  destruct o as [env|env level msg info time|env|env level msg info ts
                |env unlink_r]; try done; cbn.
  - specialize (Hwrite env level msg info time).
    by destruct (_write _ _ _ _ _ _ _ _) as [[r st'] w'].
  - by rewrite (flush_wedged _ _ _ e).
  - unfold MainLogger._log. destruct (negb (hasOpened st)); [done|].
    destruct msg as [| | | |[|c m]| | |]; try done.
    destruct (_ && _); [done|].
    specialize (Hwrite env level (c :: m) info ts).
    by destruct (_write _ _ _ _ _ _ _ _) as [[r st'] w'].
Qed.

(** X7: once a round has thrown, the write path is wedged.  Whatever is
    called on it afterwards ([_write], [flush], the level methods), no
    call of the file system is issued again, the file and the counters
    stay as they are, the queue only grows, and every [_write] that
    encodes its line answers with a promise rejected with the exception
    of that round. *)
Theorem X7_a_thrown_round_wedges_the_write_path
    (proc : Process) (ops : list Op) (st : t) (w : World LogError)
    (e : Exn) :
  pendingFlush st = Some e →
  Forall on_write_path ops →
  let st' := (execAll proc ops (st, w)).1 in
  let w' := (execAll proc ops (st, w)).2 in
  (pendingFlush st' = Some e
   ∧ fd st' = fd st ∧ lines st' = lines st ∧ size st' = size st
   ∧ newLineOffsets st' = newLineOffsets st
   ∧ _writeCalled st' = _writeCalled st
   ∧ bytesWritten st' = bytesWritten st
   ∧ (∃ more, pendingWrites st' = pendingWrites st ++ more)
   ∧ file w' = file w ∧ tmp w' = tmp w ∧ trace w' = trace w)
  ∧ ∀ env level msg info time s,
      encode proc (productName st) level msg info time = Normal s →
      _write proc env level msg info time st w
      = (Rejected e, set_pendingWrites (pendingWrites st ++ [s]) st, w).
Proof.
  intros Hpf Hops. cbn zeta. split.
  2:{ intros env level msg info time s Henc. unfold _write. rewrite Henc.
      by apply flush_wedged. }
  revert st w Hpf. induction Hops as [|o ops Ho _ IH]; intros st w Hpf.
  { cbn. split_and!; try done. exists []. by rewrite app_nil_r. }
  change (execAll proc (o :: ops) (st, w))
    with (execAll proc ops (exec proc o (st, w))).
  pose proof (exec_wedged proc o st w e Ho Hpf) as H. cbn zeta in H.
  destruct (exec proc o (st, w)) as [st1 w1]. cbn in H.
  destruct H as (H1 & H2 & H3 & H4 & H5 & H6 & H7 & (m1 & H8) & H9 & H10 & H11).
  destruct (IH st1 w1 H1)
    as (I1 & I2 & I3 & I4 & I5 & I6 & I7 & (m2 & I8) & I9 & I10 & I11).
  do 7 (split; [congruence|]). split; [|split_and!; congruence].
  exists (m1 ++ m2). rewrite I8, H8. by rewrite app_assoc.
Qed.

(** ** The guard of the level methods *)



(** ** One call, one line *)

(** X9: whatever [msg] and [info] hold, the string [_write] queues
    encodes to bytes without a newline: the buffer of its round is these
    bytes followed by the one newline byte that ends the line. *)
Theorem X9_an_encoded_line_is_one_line
    (proc : Process) (productName level msg : str) (info : value) (time : Z)
    (s : str) :
  encode proc productName level msg info time = Normal s →
  newline_free s
  ∧ (newLineByte ∉ Buffer_from s)
  ∧ roundBuffer [s] = Buffer_from s ++ [newLineByte]
  ∧ scanNewLines 0 (roundBuffer [s]) = [Z.of_nat (length (Buffer_from s))].
Proof.
  intros Henc.
  pose proof (encode_newline_free _ _ _ _ _ _ _ Henc) as Hfree.
  pose proof (Buffer_from_newline_free s Hfree) as Hbytes.
  assert (roundBuffer [s] = Buffer_from s ++ [newLineByte]) as Hbuf.
  { rewrite roundBuffer_concat by done. cbn. by rewrite app_nil_r. }
  split_and!; try done.
  rewrite Hbuf, scanNewLines_app, scanNewLines_newline_free by done. done.
Qed.

(** ** What [open] leaves alone *)

(** X10: [open] never issues a write and never changes the bytes of a
    file that is there.  When it fails, the descriptor, [hasOpened] and
    the file are as before, so it can be called again; when it succeeds,
    the file exists, a descriptor is held and [hasOpened] is set. *)
Theorem X10_open_never_touches_existing_content
    (env : Env) (st : t) (w : World LogError) :
  let r := open env st w in
  no_new_write w r.2
  ∧ (∀ c, file w = Some c → file r.2 = Some c)
  ∧ pendingWrites r.1.2 = pendingWrites st
  ∧ reported r.2 = reported w
  ∧ (is_Some r.1.1 →
     fd r.1.2 = fd st ∧ hasOpened r.1.2 = hasOpened st ∧ file r.2 = file w)
  ∧ (r.1.1 = None →
     is_Some (fd r.1.2) ∧ hasOpened r.1.2 = true ∧ is_Some (file r.2)).
Proof.
  cbn zeta. pose proof (open_frame env st w) as H.
  assert ((is_Some (open env st w).1.1 →
           fd (open env st w).1.2 = fd st
           ∧ hasOpened (open env st w).1.2 = hasOpened st
           ∧ file (open env st w).2 = file w)
          ∧ ((open env st w).1.1 = None →
             is_Some (fd (open env st w).1.2)
             ∧ hasOpened (open env st w).1.2 = true
             ∧ is_Some (file (open env st w).2))) as [Hfail Hok].
  { unfold open, open_descriptor, mkdir, readFile, FS.open.
    destruct (fd_truthy (fd st)); [done|].
    destruct (mkdir_r env); [done|]. cbn.
    destruct (readFile_r env); cbn.
    - destruct (negb _); [done|].
      destruct (open_r env); cbn; [done|].
      split; [by intros [? [=]]|]. intros _. split_and!; eauto.
    - destruct (file w) eqn:Hf; cbn;
        (destruct (open_r env); cbn; rewrite ?Hf; [done|]);
        (split; [by intros [? [=]]|]); intros _; split_and!; eauto. }
  destruct (open env st w) as [[r st'] w']. cbn in *.
  destruct H as (_ & Hq & Hnw & Hrep & Hfile & _).
  split_and!; done.
Qed.

(** ** destroy() *)

(** [destroy] only ever touches the descriptor, the trace and the file. *)
Lemma destroy_frame env unlink_r st w :
  let r := Teardown.destroy env unlink_r st w in
  lines r.1.2 = lines st ∧ size r.1.2 = size st
  ∧ newLineOffsets r.1.2 = newLineOffsets st
  ∧ bytesWritten r.1.2 = bytesWritten st
  ∧ _writeCalled r.1.2 = _writeCalled st
  ∧ pendingWrites r.1.2 = pendingWrites st
  ∧ pendingFlush r.1.2 = pendingFlush st
  ∧ hasOpened r.1.2 = hasOpened st
  ∧ productName r.1.2 = productName st
  ∧ no_new_write w r.2
  ∧ reported r.2 = reported w.
Proof.
  unfold Teardown.destroy, Teardown.unlink, close. cbn zeta.
  destruct (fd st) as [fdv|]; [|split_and!; try done; apply no_new_write_refl].
  assert (∀ w0 : World LogError,
    trace w0 = trace w ++ [SysClose fdv] → no_new_write w w0) as Hnw.
  { intros w0 Htr. exists [SysClose fdv]. split; [done|].
    constructor; [cbn; tauto|constructor]. }
  destruct (close_r env); cbn; [split_and!; try done; by apply Hnw|].
  destruct unlink_r; [|destruct (file w)]; cbn;
    split_and!; try done; by apply Hnw.
Qed.

(** X11: [destroy] clears [fd] exactly when the close succeeded, and
    removes the file only then: a failed close keeps the descriptor and
    never reaches [unlink].  It answers without an error exactly when both
    steps succeeded (the file being there to remove).  The counters, the
    queue and [hasOpened] are left as they were, and no write is issued. *)
Theorem X11_destroy_closes_before_it_unlinks
    (env : Env) (unlink_r : option Errno) (st : t) (w : World LogError)
    (fdv : Z) (content : list N) :
  fd st = Some fdv → file w = Some content →
  let r := Teardown.destroy env unlink_r st w in
  (fd r.1.2 = None ↔ close_r env = None)
  ∧ (close_r env ≠ None → fd r.1.2 = Some fdv ∧ file r.2 = Some content)
  ∧ (file r.2 = None ↔ close_r env = None ∧ unlink_r = None)
  ∧ (r.1.1 = Normal None ↔ close_r env = None ∧ unlink_r = None)
  ∧ (∃ res, r.1.1 = Normal res)
  ∧ trace r.2 = trace w ++ [SysClose fdv]
  ∧ lines r.1.2 = lines st ∧ size r.1.2 = size st
  ∧ newLineOffsets r.1.2 = newLineOffsets st
  ∧ pendingWrites r.1.2 = pendingWrites st
  ∧ hasOpened r.1.2 = hasOpened st.
Proof.
  intros Hfd Hfile. cbn zeta.
  destruct (destroy_frame env unlink_r st w)
    as (? & ? & ? & _ & _ & ? & _ & ? & _).
  assert ((fd (Teardown.destroy env unlink_r st w).1.2 = None
           ↔ close_r env = None)
    ∧ (close_r env ≠ None →
       fd (Teardown.destroy env unlink_r st w).1.2 = Some fdv
       ∧ file (Teardown.destroy env unlink_r st w).2 = Some content)
    ∧ (file (Teardown.destroy env unlink_r st w).2 = None
       ↔ close_r env = None ∧ unlink_r = None)
    ∧ ((Teardown.destroy env unlink_r st w).1.1 = Normal None
       ↔ close_r env = None ∧ unlink_r = None)
    ∧ (∃ res, (Teardown.destroy env unlink_r st w).1.1 = Normal res)
    ∧ trace (Teardown.destroy env unlink_r st w).2
      = trace w ++ [SysClose fdv]) as (? & ? & ? & ? & ? & ?).
  { unfold Teardown.destroy, Teardown.unlink, close. rewrite Hfd.
    destruct (close_r env) as [e|]; cbn.
    - rewrite Hfd, Hfile. split_and!; try done; eauto;
        split; try done; by intros [[=] _].
    - rewrite Hfile. destruct unlink_r as [e|]; cbn; rewrite ?Hfile;
        split_and!; try done; eauto; split; try done; by intros [_ [=]]. }
  split_and!; done.
Qed.

(** X12: [destroy] does not reset [hasOpened].  After a [destroy] whose
    close succeeded, a level method with valid arguments is not refused
    with ['Must call open() first.']: the line is encoded and queued, the
    round finds [fd] null, drops the line and hands ['_flush() could not
    write, fd is null'] to [onError]; the promise resolves and the file
    system is not touched. *)
Theorem X12_logging_after_destroy_is_dropped
    (proc : Process) (env env2 : Env) (unlink_r : option Errno)
    (st : t) (w : World LogError) (fdv : Z)
    (level : str) (c : N) (m : str) (info : value) (timestamp : Z)
    (s : str) :
  fd st = Some fdv → close_r env = None →
  hasOpened st = true → pendingFlush st = None →
  truthy info && negb (typeof_object info) = false →
  encode proc (productName st) level (c :: m) info timestamp = Normal s →
  let st1 := (Teardown.destroy env unlink_r st w).1.2 in
  let w1 := (Teardown.destroy env unlink_r st w).2 in
  MainLogger._log proc env2 level (Str (c :: m)) info timestamp st1 w1
  = (Resolved, set_pendingWrites [] st1, onError fd_is_null w1)
  ∧ file (onError fd_is_null w1) = file w1
  ∧ trace (onError fd_is_null w1) = trace w1.
Proof.
  intros Hfd Hclose Hop Hpf Hinfo Henc. cbn zeta.
  destruct (destroy_frame env unlink_r st w)
    as (_ & _ & _ & _ & _ & _ & Hpf1 & Hop1 & Hname1 & _).
  assert (fd (Teardown.destroy env unlink_r st w).1.2 = None) as Hfd1.
  { unfold Teardown.destroy, Teardown.unlink, close. rewrite Hfd, Hclose.
    cbn. destruct unlink_r; [|destruct (file w)]; done. }
  destruct (Teardown.destroy env unlink_r st w) as [[r st1] w1]. cbn in *.
  split; [|done].
  unfold MainLogger._log. rewrite Hop1, Hop. cbn [negb]. rewrite Hinfo.
  apply (_write_fd_null _ _ _ _ _ _ _ _ s).
  - congruence.
  - by rewrite Hname1.
  - by rewrite Hfd1.
Qed.

(** X13: [destroy] does not reset the counters either, and [open] only
    sets them when it finds a file to read.  After a [destroy] that
    removed the file, a successful [open] creates an empty file and holds
    a new descriptor while [size], [lines] and [newLineOffsets] still
    describe the file that was removed: unless it was empty, the
    bookkeeping no longer agrees with the file. *)
Theorem X13_reopening_after_destroy_keeps_the_old_counters
    (env env2 : Env) (st : t) (w : World LogError)
    (fdv fd' : Z) (content : list N) :
  fd st = Some fdv → file w = Some content →
  close_r env = None →
  mkdir_r env2 = None → readFile_r env2 = None → open_r env2 = inr fd' →
  let st1 := (Teardown.destroy env None st w).1.2 in
  let w1 := (Teardown.destroy env None st w).2 in
  let r := open env2 st1 w1 in
  r.1.1 = None
  ∧ fd r.1.2 = Some fd'
  ∧ file r.2 = Some []
  ∧ size r.1.2 = size st
  ∧ lines r.1.2 = lines st
  ∧ newLineOffsets r.1.2 = newLineOffsets st
  ∧ (size st ≠ 0 → ¬ Synced r.1.2 r.2).
Proof.
  intros Hfd Hfile Hclose Hmk Hrd Hop. cbn zeta.
  unfold Teardown.destroy, Teardown.unlink, close. rewrite Hfd, Hclose.
  cbn. rewrite Hfile. cbn.
  unfold open, open_descriptor, mkdir, readFile, FS.open. cbn.
  rewrite Hmk. cbn. rewrite Hrd. cbn. rewrite Hop. cbn.
  split_and!; try done.
  intros Hne (c & Hc & Hs & _). cbn in Hc, Hs.
  injection Hc as <-. cbn in Hs. done.
Qed.

(** ** The console helpers of the facade *)

Lemma pad_while_spec (zeros : nat) (s : str) :
  Facade.pad_while zeros s = replicate (zeros - length s) 48%N ++ s.
Proof.
  functional induction (Facade.pad_while zeros s) as [s H IH|s H].
  - apply Nat.ltb_lt in H. rewrite IH. cbn [length].
    replace (zeros - length s)%nat with (S (zeros - S (length s))) by lia.
    cbn. by rewrite app_comm_cons, replicate_cons_app, <- app_assoc.
  - apply Nat.ltb_ge in H.
    by replace (zeros - length s)%nat with 0%nat by lia.
Qed.

(** X14: [pad] puts ['0'] characters in front of the digits until the
    string is [zeros] long; digits that are already that long, and every
    call without [zeros], come back unchanged. *)
Theorem X14_pad_left_pads_with_zeros
    (number : option Z) (zeros : option nat) :
  let digits := Facade.String_ number in
  let z := default 0%nat zeros in
  Facade.pad number zeros = replicate (z - length digits) 48%N ++ digits
  ∧ length (Facade.pad number zeros) = (z `max` length digits)%nat
  ∧ ((z ≤ length digits)%nat → Facade.pad number zeros = digits)
  ∧ Facade.pad number None = digits.
Proof.
  cbn zeta. unfold Facade.pad. rewrite !pad_while_spec. split_and!.
  - done.
  - rewrite length_app, length_replicate. lia.
  - intros H. by replace (_ - _)%nat with 0%nat by lia.
  - done.
Qed.

Lemma decimal_below_1000 (n : Z) :
  0 ≤ n < 1000 → (1 ≤ length (decimal n) ≤ 3)%nat.
Proof.
  intros Hn.
  assert (forallb (λ k, let l := length (decimal (Z.of_nat k)) in
                        (1 <=? l)%nat && (l <=? 3)%nat) (seq 0 1000) = true)
    as Hall by (vm_compute; reflexivity).
  rewrite forallb_forall in Hall.
  specialize (Hall (Z.to_nat n)). rewrite Z2Nat.id in Hall by lia.
  cbn zeta in Hall.
  assert (In (Z.to_nat n) (seq 0 1000)) as Hin by (apply in_seq; lia).
  apply Hall, andb_true_iff in Hin as [H1 H2].
  apply Nat.leb_le in H1, H2. lia.
Qed.

(** X15: for a valid time stamp, [shortFormateTime] prints the hour, the
    minute and the second of the local time of day as plain decimals,
    without leading zeros, and the millisecond on exactly three digits;
    the four fields determine the time of day. *)
Theorem X15_shortFormateTime_fields (tza timestamp : Z) :
  Z.abs timestamp ≤ 8640000000000000 →
  ∃ h m s ms : Z,
    0 ≤ h < 24 ∧ 0 ≤ m < 60 ∧ 0 ≤ s < 60 ∧ 0 ≤ ms < 1000
    ∧ (timestamp + tza) mod 86400000 = ((h * 60 + m) * 60 + s) * 1000 + ms
    ∧ Facade.shortFormateTime tza timestamp
      = decimal h ++ lit "." ++ decimal m ++ lit "." ++ decimal s ++ lit "."
        ++ replicate (3 - length (decimal ms)) 48%N ++ decimal ms
    ∧ length (replicate (3 - length (decimal ms)) 48%N ++ decimal ms) = 3%nat.
Proof.
  intros Hvalid. set (t := timestamp + tza).
  exists (t / 3600000 mod 24), (t / 60000 mod 60), (t / 1000 mod 60),
         (t mod 1000).
  assert (0 ≤ t mod 1000 < 1000) as Hms by (apply Z.mod_pos_bound; lia).
  split_and!; try (apply Z.mod_pos_bound; lia).
  - clear Hvalid Hms. generalize t. clear. intros t.
    Z.div_mod_to_equations. lia.
  - unfold Facade.shortFormateTime, Facade.getHours, Facade.getMinutes,
      Facade.getSeconds, Facade.getMilliseconds, Facade.localTime.
    destruct (Z.ltb_spec 8640000000000000 (Z.abs timestamp)); [lia|].
    cbn [fmap option_fmap option_map]. fold t.
    unfold Facade.pad. rewrite !pad_while_spec. cbn [default Facade.String_].
    rewrite !Nat.sub_0_l. cbn [replicate app]. reflexivity.
  - rewrite length_app, length_replicate.
    pose proof (decimal_below_1000 _ Hms). lia.
Qed.

(** ** The constructor of the facade *)





(** ** Error values among the fields *)

Lemma ErrorObject_chain_ind (P : Facade.ErrorObject → Prop) :
  (∀ n m t s own, P (Facade.mkError n m t s None own)) →
  (∀ n m t s c own, P c → P (Facade.mkError n m t s (Some c) own)) →
  ∀ e, P e.
Proof.
  intros H0 H1. fix IH 1. intros [n m t s [c|] own].
  - apply H1, IH.
  - apply H0.
Qed.

Lemma stackToString_join (e : Facade.ErrorObject) :
  Facade.stackToString e
  = join ([10%N] ++ lit "Caused by: ") (Facade.e_stack <$> Facade.causes e).
Proof.
  induction e as [n m t s own|n m t s c own IH] using ErrorObject_chain_ind.
  - done.
  - cbn [Facade.stackToString Facade.causes Facade.e_stack Facade.e_cause
         fmap list_fmap].
    rewrite IH. by destruct c.
Qed.

Lemma get_assign_same key v props :
  Facade.get key (Facade.assign key v props) = Some v.
Proof.
  unfold Facade.get. induction props as [|[k x] props IH]; cbn.
  - by rewrite decide_True.
  - case_bool_decide as Hk; cbn.
    + by rewrite decide_True.
    + rewrite decide_False by done.
      destruct (list_find _ (Facade.assign key v props)) as [[i p]|];
        [|done].
      cbn in *. done.
Qed.

Lemma get_assign_other key key' v props :
  key' ≠ key →
  Facade.get key' (Facade.assign key v props) = Facade.get key' props.
Proof.
  intros Hne. unfold Facade.get.
  induction props as [|[k x] props IH]; cbn.
  - by rewrite decide_False by done.
  - case_bool_decide as Hk; cbn.
    + subst k. by rewrite !decide_False by done.
    + destruct (decide (k = key')); [done|].
      destruct (list_find _ (Facade.assign key v props)) as [[i p]|],
               (list_find _ props) as [[j q]|]; cbn in *; congruence.
Qed.

(** X17: the plain object [errorToObject] builds from an error keeps the
    error's own enumerable properties and carries its [name], its
    [message] and a [stack] that joins the stacks of the whole chain of
    causes, outermost first, with ["\nCaused by: "] between them. *)
Theorem X17_errorToObject_carries_the_chain_of_causes
    (err : Facade.ErrorObject) :
  let ret := Facade.errorToObject err in
  Facade.get (lit "stack") ret
  = Some (Str (join ([10%N] ++ lit "Caused by: ")
                 (Facade.e_stack <$> Facade.causes err)))
  ∧ Facade.get (lit "name") ret = Some (Str (Facade.e_name err))
  ∧ Facade.get (lit "message") ret = Some (Str (Facade.e_message err))
  ∧ (∀ s, Facade.e_type err = Some s →
          Facade.get (lit "type") ret = Some (Str s))
  ∧ (∀ key, key ∉ [lit "name"; lit "message"; lit "type"; lit "stack"] →
            Facade.get key ret = Facade.get key (Facade.e_own err)).
Proof.
  cbn zeta. unfold Facade.errorToObject. split_and!.
  - by rewrite get_assign_same, stackToString_join.
  - rewrite !get_assign_other by (by vm_compute). apply get_assign_same.
  - rewrite !get_assign_other by (by vm_compute). apply get_assign_same.
  - intros s ->. rewrite get_assign_other by (by vm_compute).
    apply get_assign_same.
  - intros key Hkey. rewrite !not_elem_of_cons in Hkey.
    destruct Hkey as (? & ? & ? & ? & _).
    by rewrite !get_assign_other by done.
Qed.

(** ** The size trigger after a whole write *)

Lemma afterWrite_last_newline n st :
  pendingWrites st ≠ [] →
  (length (roundBuffer (pendingWrites st)) ≤ n)%nat →
  (size (afterWrite n st) - 1) ∈ newLineOffsets (afterWrite n st).
Proof.
  intros Hq Hfull.
  destruct (afterWrite_fields n st) as (_ & _ & Hs1 & _ & _ & Ho1 & _).
  rewrite take_ge in Hs1, Ho1 by done. rewrite Ho1, Hs1.
  destruct (roundBuffer_ends_with_newline _ Hq) as (body & ->).
  rewrite scanNewLines_app, length_app. cbn.
  rewrite !elem_of_app. right; right. apply list_elem_of_singleton. lia.
Qed.

(** X18: when [fs.write] takes the whole buffer, the last byte of the
    file is the newline that ends the round, and it is recorded.  So a
    size-triggered truncation always finds an offset above 8388608 to
    cut at: the selection loop never leaves [lineIndex] at [-1], and the
    branch of [_truncate] that resets the counters is not taken. *)
Theorem X18_a_whole_write_always_finds_a_cut
    (env : Env) (st : t) (w : World LogError) (fdv : Z) (n : nat) :
  fd st = Some fdv → fdv ≠ 0 → write_r env = inr n →
  pendingWrites st ≠ [] →
  (length (roundBuffer (pendingWrites st)) ≤ n)%nat →
  let st1 := afterWrite n st in
  let w1 := (write env fdv (roundBuffer (pendingWrites st)) w).2 in
  lines st1 < MAX_LOG_LINES → MAX_LOG_FILE_SIZE ≤ size st1 →
  ∃ (i : nat) (off : Z),
    findCut (MAX_LOG_FILE_SIZE / 4) (newLineOffsets st1) = (off, Z.of_nat i)
    ∧ newLineOffsets st1 !! i = Some off
    ∧ MAX_LOG_FILE_SIZE / 4 < off
    ∧ _flush env st w = _truncate env (Some (off + 1)) (Z.of_nat i) st1 w1.
Proof.
  intros Hfd Hne Hw Hq Hfull st1 w1 Hlines Hsize.
  pose proof (afterWrite_last_newline n st Hq Hfull) as Hlast. fold st1 in Hlast.
  destruct (findCut_spec (MAX_LOG_FILE_SIZE / 4) (newLineOffsets st1))
    as [[_ Hall]|(i & off & Hcut & Hi & Hlt & _)].
  - specialize (Hall _ Hlast).
    change (MAX_LOG_FILE_SIZE / 4) with 8388608 in Hall.
    change MAX_LOG_FILE_SIZE with 33554432 in Hsize. lia.
  - exists i, off. split_and!; try done.
    rewrite (_flush_written _ _ _ fdv n) by done. fold st1 w1.
    rewrite rotate_size by done.
    change (MAX_LOG_FILE_SIZE / 4) with 8388608 in Hcut. by rewrite Hcut.
Qed.

(** ** The cap on the length of a line *)

Lemma length_quote_body (s : str) : (length s ≤ length (quote_body s))%nat.
Proof.
  assert (∀ c, (1 ≤ length (quote_unit c))%nat) as Hunit.
  { intros c. unfold quote_unit, unicode_escape.
    repeat case_match; cbn; lia. }
  assert (∀ c, length (unicode_escape c) = 6%nat) as Hesc by done.
  induction s as [|c|c d s IH1 IH2] using str_pair_ind.
  - done.
  - cbn [quote_body]. specialize (Hunit c).
    repeat case_match; rewrite ?length_app, ?Hesc; cbn; lia.
  - change (quote_body (c :: d :: s)) with
      (if is_high c then
         if is_low d then c :: d :: quote_body s
         else unicode_escape c ++ quote_body (d :: s)
       else if is_low c then unicode_escape c ++ quote_body (d :: s)
       else quote_unit c ++ quote_body (d :: s)).
    specialize (Hunit c).
    repeat case_match; rewrite ?length_app, ?Hesc; cbn in *; lia.
Qed.

Lemma length_QuoteJSONString (s : str) :
  (length s + 2 ≤ length (QuoteJSONString s))%nat.
Proof.
  unfold QuoteJSONString. rewrite !length_app. cbn.
  pose proof (length_quote_body s). lia.
Qed.

Lemma length_join_ge (sep : str) (parts : list str) (p : str) :
  p ∈ parts → (length p ≤ length (join sep parts))%nat.
Proof.
  induction parts as [|q [|q' parts] IH]; [by intros ?%elem_of_nil| |].
  - intros ->%list_elem_of_singleton. done.
  - change (join sep (q :: q' :: parts))
      with (q ++ sep ++ join sep (q' :: parts)).
    rewrite !length_app. intros [->|Hin]%elem_of_cons; [lia|].
    specialize (IH Hin). lia.
Qed.

(** X19: the cap of 32768 code units bounds what the line carries of
    [fields], not the line.  A line over the cap is queued re-encoded
    with its [msg] kept whole and a [truncated] field of 32768 code
    units, so the string that is queued is again longer than the cap, and
    at least as long as [msg]. *)
Theorem X19_a_truncated_line_is_still_over_the_cap
    (proc : Process) (productName level msg : str) (info : value) (time : Z)
    (str : JS.str) :
  stringifyLine proc productName level msg
    (if truthy info then info else EMPTY_OBJECT) time None = Normal str →
  MAX_LOG_LINE_SIZE < Z.of_nat (length str) →
  ∃ str',
    encode proc productName level msg info time = Normal str'
    ∧ MAX_LOG_LINE_SIZE < Z.of_nat (length str')
    ∧ (length msg ≤ length str')%nat.
Proof.
  intros Hstr Hlong.
  destruct (stringifyLine_time _ _ _ _ _ _ _ _ Hstr) as [iso Hiso].
  unfold encode. rewrite Hstr.
  destruct (Z.ltb_spec MAX_LOG_LINE_SIZE (Z.of_nat (length str))); [|lia].
  unfold stringifyLine, LogLine.new. rewrite Hiso.
  unfold JSON_stringify, LogLine.to_value, isTruncated.
  cbn -[lit QuoteJSONString decimal join app take slice_to Z.to_nat].
  eexists. split; [reflexivity|].
  set (truncated := slice_to str (Z.to_nat (MAX_LOG_LINE_SIZE - 3)) ++ lit "...").
  assert (length truncated = Z.to_nat 32768) as Htr.
  { unfold truncated, slice_to. rewrite length_app, length_take.
    change (Z.to_nat (MAX_LOG_LINE_SIZE - 3)) with (Z.to_nat 32765).
    change (length (lit "...")) with 3%nat.
    unfold MAX_LOG_LINE_SIZE in Hlong. lia. }
  match goal with |- context [join (lit ",") ?ps] =>
    assert (length (QuoteJSONString truncated) ≤ length (join (lit ",") ps)
            ∧ length (QuoteJSONString msg) ≤ length (join (lit ",") ps))%nat
      as [H1 H2]
  end.
  { split.
    - etrans; [|apply length_join_ge; do 8 right; left].
      rewrite !length_app. lia.
    - etrans; [|apply length_join_ge; do 4 right; left].
      rewrite !length_app. lia. }
  pose proof (length_QuoteJSONString truncated).
  pose proof (length_QuoteJSONString msg).
  rewrite !length_app. unfold MAX_LOG_LINE_SIZE. split; lia.
Qed.

(** ** When encoding throws *)

Lemma cyclic_elements (xs : list value) :
  Forall (λ x, match SerializeJSONProperty x with
               | Raised e => e = TypeError_circular ∧ cyclic x = true
               | _ => cyclic x = false
               end) xs →
  match
    (fix elements (xs : list value) : Exn + list str :=
       match xs with
       | [] => inr []
       | x :: xs' =>
           match SerializeJSONProperty x with
           | Raised e => inl e
           | Omitted =>
               match elements xs' with
               | inl e => inl e
               | inr ps => inr (lit "null" :: ps)
               end
           | Text s =>
               match elements xs' with
               | inl e => inl e
               | inr ps => inr (s :: ps)
               end
           end
       end) xs
  with
  | inl e => e = TypeError_circular ∧ existsb cyclic xs = true
  | inr _ => existsb cyclic xs = false
  end.
Proof.
  induction 1 as [|x xs Hx _ IH]; [done|]. cbn [existsb].
  destruct (SerializeJSONProperty x) as [t| |e].
  - rewrite Hx. cbn [orb]. by destruct (_ xs).
  - rewrite Hx. cbn [orb]. by destruct (_ xs).
  - destruct Hx as [-> ->]. done.
Qed.

Lemma cyclic_members (props : list (str * value)) :
  Forall (λ kx, match SerializeJSONProperty kx.2 with
                | Raised e => e = TypeError_circular ∧ cyclic kx.2 = true
                | _ => cyclic kx.2 = false
                end) props →
  match
    (fix members (props : list (str * value)) : Exn + list str :=
       match props with
       | [] => inr []
       | (k, x) :: props' =>
           match SerializeJSONProperty x with
           | Raised e => inl e
           | Omitted => members props'
           | Text s =>
               match members props' with
               | inl e => inl e
               | inr ps => inr ((QuoteJSONString k ++ lit ":" ++ s) :: ps)
               end
           end
       end) props
  with
  | inl e => e = TypeError_circular ∧ existsb (λ p, cyclic p.2) props = true
  | inr _ => existsb (λ p, cyclic p.2) props = false
  end.
Proof.
  induction 1 as [|[k x] props Hx _ IH]; [done|]. cbn [existsb snd] in *.
  destruct (SerializeJSONProperty x) as [t| |e].
  - rewrite Hx. cbn [orb]. by destruct (_ props).
  - rewrite Hx. cbn [orb]. done.
  - destruct Hx as [-> ->]. done.
Qed.

(** [JSON.stringify] throws exactly on a value that holds a cycle. *)
Lemma serialize_raises (x : value) :
  match SerializeJSONProperty x with
  | Raised e => e = TypeError_circular ∧ cyclic x = true
  | _ => cyclic x = false
  end.
Proof.
  induction x as [| |b|n|t|xs IH|props IH|] using value_nested_ind;
    cbn [SerializeJSONProperty cyclic]; try done.
  - by destruct b.
  - pose proof (cyclic_elements xs IH) as H. by destruct (_ xs).
  - pose proof (cyclic_members props IH) as H. by destruct (_ props).
Qed.

(** An object is never left out. *)
Lemma Obj_not_Omitted (props : list (str * value)) :
  SerializeJSONProperty (Obj props) ≠ Omitted.
Proof.
  cbn [SerializeJSONProperty].
  match goal with |- context [?f props] => by destruct (f props) end.
Qed.

Lemma cyclic_fields (info : value) :
  cyclic (if truthy info then info else EMPTY_OBJECT) = cyclic info.
Proof. by destruct info as [| |[]|n|[|]| | |]; cbn; try destruct (n =? 0). Qed.

Lemma stringifyLine_outcome proc productName level msg fields time truncated :
  match stringifyLine proc productName level msg fields time truncated with
  | Throw e =>
      (8640000000000000 < Z.abs time ∧ e = RangeError_time)
      ∨ (Z.abs time ≤ 8640000000000000 ∧ cyclic fields = true
         ∧ e = TypeError_circular)
  | Normal _ => Z.abs time ≤ 8640000000000000 ∧ cyclic fields = false
  end.
Proof.
  unfold stringifyLine, LogLine.new, toISOString.
  destruct (Z.ltb_spec 8640000000000000 (Z.abs time)) as [Hbad|Hok].
  { left. done. }
  destruct (civil_from_days _) as [[y mo] d].
  unfold JSON_stringify.
  match goal with |- context [SerializeJSONProperty ?v] =>
    pose proof (serialize_raises v) as H
  end.
  match goal with |- context [SerializeJSONProperty ?v] =>
    assert (cyclic v = cyclic fields) as Hc
  end.
  { unfold LogLine.to_value. cbn [cyclic existsb snd LogLine.fields].
    destruct truncated; cbn [cyclic]; by rewrite ?orb_false_r. }
  rewrite Hc in H.
  destruct (SerializeJSONProperty _) as [s| |e] eqn:Hser; [done| |].
  - exfalso. revert Hser. apply Obj_not_Omitted.
  - destruct H as [-> ->]. right. done.
Qed.

(** X20: for fields made of null, booleans, integers, strings, arrays
    and objects, building the line throws in two cases only: a time
    stamp that is no valid date ([RangeError]), and a cycle in the fields
    ([TypeError]); every other call of [_write] gets a line to queue. *)
Theorem X20_encoding_fails_on_a_bad_time_or_a_cycle_only
    (proc : Process) (productName level msg : str) (info : value)
    (time : Z) :
  match encode proc productName level msg info time with
  | Throw e =>
      (8640000000000000 < Z.abs time ∧ e = RangeError_time)
      ∨ (Z.abs time ≤ 8640000000000000 ∧ cyclic info = true
         ∧ e = TypeError_circular)
  | Normal _ => Z.abs time ≤ 8640000000000000 ∧ cyclic info = false
  end.
Proof.
  unfold encode.
  pose proof (stringifyLine_outcome proc productName level msg
                (if truthy info then info else EMPTY_OBJECT) time None) as H1.
  rewrite cyclic_fields in H1.
  destruct (stringifyLine _ _ _ _ _ _ None) as [str|e]; [|done].
  destruct (_ <? _); [|done].
  match goal with |- context [stringifyLine ?a ?b ?c ?d ?f ?g ?h] =>
    pose proof (stringifyLine_outcome a b c d f g h) as H2;
    destruct (stringifyLine a b c d f g h) as [str'|e]
  end; [done|].
  destruct H1 as [Ht Hc]. destruct H2 as [[? _]|(_ & [=] & _)]. lia.
Qed.

(** ** The bound on the number of lines *)








(** ** The further theorems at concrete inputs *)


(** X4: one byte of ["x\n"] is taken; the next line comes after two
    newline bytes. *)
Lemma X4_witness :
  let st := Ex.opened_on Ex.two_lines [lit "x"] in
  let w := Ex.world_of Ex.two_lines in
  let st' := (_flush (Ex.short_write 1) st w).1.2 in
  let w' := (_flush (Ex.short_write 1) st w).2 in
  (fd st = Some 7 ∧ (1 < length (roundBuffer (pendingWrites st)))%nat)
  ∧ pendingWrites st' = [NL]
  ∧ file (_write Ex.proc Ex.ok (lit "info") (lit "m") Undefined 0 st' w').2
    = Some ((Ex.two_lines ++ [120%N])
            ++ [newLineByte; newLineByte] ++ Buffer_from Cases.line
            ++ [newLineByte]).
Proof.
  intros st w st' w'.
  assert (fd st = Some 7) as Hfd by (vm_compute; reflexivity).
  assert (1 < length (roundBuffer (pendingWrites st)))%nat as Hshort
    by (vm_compute; lia).
  destruct (X4_partial_write_leaves_an_empty_line (Ex.short_write 1) st w 7 1
              Hfd ltac:(done) eq_refl Hshort) as [Hq Hnext].
  split; [by split|]. split; [exact Hq|].
  destruct (Hnext Ex.proc Ex.ok (lit "info") (lit "m") Undefined 0 Cases.line
              (Ex.two_lines ++ [120%N]) 7 4096%nat) as [_ Hfile].
  - vm_compute. reflexivity.
  - vm_compute. reflexivity.
  - done.
  - apply (Normal_inv _ []). vm_compute. reflexivity.
  - vm_compute. reflexivity.
  - reflexivity.
  - vm_compute. lia.
  - vm_compute. reflexivity.
  - vm_compute. reflexivity.
  - exact Hfile.
Defined.

(** X5 after a round that wrote one line. *)
Lemma X5_witness :
  let st := Ex.opened_on Ex.two_lines [lit "x"] in
  let w := Ex.world_of Ex.two_lines in
  (flush Ex.ok st w).1.1 = Resolved
  ∧ flush Ex.write_fails (flush Ex.ok st w).1.2 (flush Ex.ok st w).2
    = (Resolved, (flush Ex.ok st w).1.2, (flush Ex.ok st w).2).
Proof.
  intros st w.
  assert ((flush Ex.ok st w).1.1 = Resolved) as Hres
    by (vm_compute; reflexivity).
  split; [exact Hres|].
  refine (proj2 (X5_flush_twice_is_flush_once Ex.ok Ex.write_fails st w _ Hres)).
  intros n Hn. assert (n = 4096%nat) as -> by (cbn in Hn; congruence).
  vm_compute. lia.
Defined.

(** X6 on the logger that 2048 starved writes leave behind: [lines] is
    4095 and no offset is recorded, so the next line, even when its write
    is taken whole, makes the round throw. *)
Lemma X6_witness :
  let st := set_pendingWrites (pendingWrites Cases.starved.1 ++ [Cases.line])
              Cases.starved.1 in
  let w := Cases.starved.2 in
  (lines st = 4095 ∧ newLineOffsets st = [] ∧ pendingWrites st = [NL; Cases.line])
  ∧ (flush Ex.ok st w).1.1 = Rejected RangeError_start
  ∧ pendingFlush (flush Ex.ok st w).1.2 = Some RangeError_start.
Proof.
  intros st w.
  assert (lines st = 4095) as Hl by (vm_compute; reflexivity).
  assert (newLineOffsets st = []) as Ho by (vm_compute; reflexivity).
  assert (pendingWrites st = [NL; Cases.line]) as Hq
    by (vm_compute; reflexivity).
  split; [by split_and!|].
  destruct (X6_overestimated_lines_make_the_round_throw Ex.ok st w 7 4096)
    as (_ & H1 & H2 & _).
  - vm_compute. reflexivity.
  - done.
  - reflexivity.
  - vm_compute. reflexivity.
  - rewrite Hq. done.
  - rewrite Hl, Hq. vm_compute. discriminate.
  - vm_compute. lia.
  - by split.
Defined.

(** X7 on the logger wedged by that round. *)
Lemma X7_witness :
  let ops := [OpWrite Ex.ok (lit "info") (lit "m") Undefined 1;
              OpFlush Ex.ok;
              OpLog Ex.ok (lit "error") (Str (lit "boom")) Undefined 2] in
  let r := execAll Ex.proc ops Cases.wedged in
  pendingFlush Cases.wedged.1 = Some RangeError_start
  ∧ pendingFlush r.1 = Some RangeError_start
  ∧ file r.2 = file Cases.wedged.2
  ∧ trace r.2 = trace Cases.wedged.2.
Proof.
  intros ops r.
  assert (pendingFlush Cases.wedged.1 = Some RangeError_start) as Hpf
    by (vm_compute; reflexivity).
  assert (Forall on_write_path ops) as Hops
    by (repeat (constructor; [exact I|]); constructor).
  destruct (X7_a_thrown_round_wedges_the_write_path Ex.proc ops
              Cases.wedged.1 Cases.wedged.2 RangeError_start Hpf Hops)
    as ((H1 & _ & _ & _ & _ & _ & _ & _ & H2 & _ & H3) & _).
  split; [exact Hpf|].
  replace (Cases.wedged.1, Cases.wedged.2) with Cases.wedged in H1, H2, H3
    by (destruct Cases.wedged; reflexivity).
  exact (conj H1 (conj H2 H3)).
Defined.

(** X9 on a message and a field that hold newlines. *)
Lemma X9_witness :
  encode Ex.proc Ex.app (lit "warn") Cases.two_liner Cases.noted 0
  = Normal Cases.two_liner_line
  ∧ newLineByte ∈ Cases.two_liner
  ∧ (newLineByte ∉ Buffer_from Cases.two_liner_line)
  ∧ roundBuffer [Cases.two_liner_line]
    = Buffer_from Cases.two_liner_line ++ [newLineByte].
Proof.
  assert (encode Ex.proc Ex.app (lit "warn") Cases.two_liner Cases.noted 0
          = Normal Cases.two_liner_line) as Henc.
  { apply (Normal_inv _ []). vm_compute. reflexivity. }
  destruct (X9_an_encoded_line_is_one_line _ _ _ _ _ _ _ Henc)
    as (_ & H1 & H2 & _).
  split; [exact Henc|]. split; [|by split].
  unfold Cases.two_liner, NL. rewrite !elem_of_app. right; left.
  apply list_elem_of_singleton. done.
Defined.

(** X11 to X13 on a logger opened on the file of the test suite. *)
Lemma X11_witness :
  let st := Ex.opened_on Ex.two_lines [] in
  let w := Ex.world_of Ex.two_lines in
  (fd st = Some 7 ∧ file w = Some Ex.two_lines)
  ∧ fd (Teardown.destroy Ex.ok None st w).1.2 = None
  ∧ file (Teardown.destroy Ex.ok None st w).2 = None
  ∧ (Teardown.destroy Ex.ok None st w).1.1 = Normal None
  ∧ hasOpened (Teardown.destroy Ex.ok None st w).1.2 = true.
Proof.
  intros st w.
  assert (fd st = Some 7) as Hfd by (vm_compute; reflexivity).
  assert (file w = Some Ex.two_lines) as Hfile by (vm_compute; reflexivity).
  destruct (X11_destroy_closes_before_it_unlinks Ex.ok None st w 7
              Ex.two_lines Hfd Hfile)
    as (H1 & _ & H3 & H4 & _ & _ & _ & _ & _ & _ & H11).
  split; [by split|]. split_and!.
  - by apply H1.
  - by apply H3.
  - by apply H4.
  - rewrite H11. vm_compute. reflexivity.
Defined.

Lemma X12_witness :
  let st := Ex.opened_on Ex.two_lines [] in
  let w := Ex.world_of Ex.two_lines in
  let st1 := (Teardown.destroy Ex.ok None st w).1.2 in
  let w1 := (Teardown.destroy Ex.ok None st w).2 in
  hasOpened st = true
  ∧ MainLogger._log Ex.proc Ex.ok (lit "info") (Str (lit "m")) Undefined 0
      st1 w1
    = (Resolved, set_pendingWrites [] st1, onError fd_is_null w1).
Proof.
  intros st w st1 w1.
  assert (hasOpened st = true) as Hop by (vm_compute; reflexivity).
  split; [exact Hop|].
  refine (proj1 (X12_logging_after_destroy_is_dropped Ex.proc Ex.ok Ex.ok None
                   st w 7 (lit "info") 109%N [] Undefined 0 Cases.line
                   _ _ Hop _ _ _)).
  - vm_compute. reflexivity.
  - reflexivity.
  - vm_compute. reflexivity.
  - reflexivity.
  - apply (Normal_inv _ []). vm_compute. reflexivity.
Defined.

Lemma X13_witness :
  let st := Ex.opened_on Ex.two_lines [] in
  let w := Ex.world_of Ex.two_lines in
  let st1 := (Teardown.destroy Ex.ok None st w).1.2 in
  let w1 := (Teardown.destroy Ex.ok None st w).2 in
  size st = 43
  ∧ (open Ex.ok st1 w1).1.1 = None
  ∧ file (open Ex.ok st1 w1).2 = Some []
  ∧ size (open Ex.ok st1 w1).1.2 = 43
  ∧ ¬ Synced (open Ex.ok st1 w1).1.2 (open Ex.ok st1 w1).2.
Proof.
  intros st w st1 w1.
  assert (size st = 43) as Hsize by (vm_compute; reflexivity).
  destruct (X13_reopening_after_destroy_keeps_the_old_counters Ex.ok Ex.ok
              st w 7 7 Ex.two_lines)
    as (H1 & _ & H3 & H4 & _ & _ & H7); try reflexivity.
  split; [exact Hsize|]. split; [exact H1|]. split; [exact H3|].
  split; [exact (eq_trans H4 Hsize)|]. apply H7. by rewrite Hsize.
Defined.

(** X15 at 2020-02-12T07:37:05.007Z, read one hour east of Greenwich. *)
Lemma X15_witness :
  Z.abs 1581493025007 ≤ 8640000000000000
  ∧ Facade.shortFormateTime 3600000 1581493025007 = lit "8.37.5.007".
Proof.
  assert (Z.abs 1581493025007 ≤ 8640000000000000) as H by (by vm_compute).
  split; [exact H|].
  destruct (X15_shortFormateTime_fields 3600000 1581493025007 H)
    as (h & m & s & ms & _ & _ & _ & _ & _ & _ & _).
  vm_compute. reflexivity.
Defined.

(** X18 on a file of 32 MiB: the newline of the round is the cut. *)
Lemma X18_witness :
  let st1 := afterWrite 4096 Ex.on_blob in
  (lines st1 < MAX_LOG_LINES ∧ MAX_LOG_FILE_SIZE ≤ size st1)
  ∧ ∃ (i : nat) (off : Z),
      findCut (MAX_LOG_FILE_SIZE / 4) (newLineOffsets st1) = (off, Z.of_nat i)
      ∧ newLineOffsets st1 !! i = Some off.
Proof.
  intros st1.
  assert (lines st1 < MAX_LOG_LINES) as Hl by (vm_compute; reflexivity).
  assert (MAX_LOG_FILE_SIZE ≤ size st1) as Hs by (vm_compute; discriminate).
  split; [by split|].
  destruct (X18_a_whole_write_always_finds_a_cut Ex.ok Ex.on_blob
              Ex.blob_world 7 4096)
    as (i & off & H1 & H2 & _); try done.
  - vm_compute. lia.
  - by exists i, off.
Defined.

(** X19 on the line of 40000 code units of the test suite. *)
Lemma X19_witness :
  MAX_LOG_LINE_SIZE < Z.of_nat (length Ex.long_line)
  ∧ ∃ str',
      encode Ex.proc Ex.app (lit "info") (lit "a really large msg")
        Ex.long_fields 0 = Normal str'
      ∧ MAX_LOG_LINE_SIZE < Z.of_nat (length str').
Proof.
  assert (stringifyLine Ex.proc Ex.app (lit "info") (lit "a really large msg")
            Ex.long_fields 0 None = Normal Ex.long_line) as Hstr.
  { apply (Normal_inv
             (stringifyLine Ex.proc Ex.app (lit "info")
                (lit "a really large msg") Ex.long_fields 0 None) []).
    vm_compute. reflexivity. }
  assert (MAX_LOG_LINE_SIZE < Z.of_nat (length Ex.long_line)) as Hlong
    by (vm_compute; reflexivity).
  split; [exact Hlong|].
  destruct (X19_a_truncated_line_is_still_over_the_cap Ex.proc Ex.app
              (lit "info") (lit "a really large msg") Ex.long_fields 0
              Ex.long_line Hstr Hlong) as (str' & Henc & Hlen & _).
  exists str'. by split.
Defined.


(** ** Rotation by size *)

(** X22: when the file has reached 32 MiB after a write that was taken
    whole, and every step of the truncation succeeds, the round cuts the
    file right after the first newline above offset 8388608: the bytes
    removed end with that newline and are whole lines, [lines] drops by
    their number, [size] by the cut position, the descriptor is swapped
    and the bookkeeping still agrees with the file. *)
Theorem X22_size_rotation_removes_whole_lines
    (env : Env) (st : t) (w : World LogError) (fdv fd' : Z) (n : nat) :
  fd st = Some fdv → fdv ≠ 0 → write_r env = inr n →
  pendingWrites st ≠ [] →
  (length (roundBuffer (pendingWrites st)) ≤ n)%nat →
  Synced st w →
  pipeline_r env = None → rename_r env = None →
  open_r env = inr fd' → close_r env = None →
  let st1 := afterWrite n st in
  let w1 := (write env fdv (roundBuffer (pendingWrites st)) w).2 in
  lines st1 < MAX_LOG_LINES → MAX_LOG_FILE_SIZE ≤ size st1 →
  ∃ (i : nat) (off : Z) (content1 : list N) (st' : t) (w' : World LogError),
    file w1 = Some content1
    ∧ newLineOffsets st1 !! i = Some off
    ∧ 8388608 < off
    ∧ (∀ (j : nat) y, newLineOffsets st1 !! j = Some y → (j < i)%nat →
                      y ≤ 8388608)
    ∧ content1 !! Z.to_nat off = Some newLineByte
    ∧ newlines (take (Z.to_nat (off + 1)) content1) = Z.of_nat i + 1
    ∧ _flush env st w = (Normal None, st', w')
    ∧ file w' = Some (drop (Z.to_nat (off + 1)) content1)
    ∧ lines st' = lines st1 - Z.of_nat i - 1
    ∧ size st' = size st1 - (off + 1)
    ∧ fd st' = Some fd'
    ∧ Synced st' w'.
Proof.
  intros Hfd Hne Hw Hq Hfull Hsync Hpipe Hren Hopen Hclose st1 w1 Hlines Hsize.
  pose proof (afterWrite_last_newline n st Hq Hfull) as Hlast. fold st1 in Hlast.
  pose proof (Synced_afterWrite env st w fdv n Hw Hsync) as Hsync1.
  fold st1 w1 in Hsync1.
  pose proof Hsync1 as (content1 & Hfile1 & _).
  destruct (afterWrite_fields n st) as (Hfd1 & _). fold st1 in Hfd1.
  destruct (findCut_spec (MAX_LOG_FILE_SIZE / 4) (newLineOffsets st1))
    as [[_ Hall]|(i & off & Hcut & Hi & Hlt & Hfirst)].
  { specialize (Hall _ Hlast).
    change (MAX_LOG_FILE_SIZE / 4) with 8388608 in Hall.
    change MAX_LOG_FILE_SIZE with 33554432 in Hsize. lia. }
  change (MAX_LOG_FILE_SIZE / 4) with 8388608 in *.
  pose proof (Synced_nonneg _ _ _ Hsync1 (list_elem_of_lookup_2 _ _ _ Hi)).
  destruct (_truncate_ok env (off + 1) (Z.of_nat i) st1 w1 content1 fdv fd')
    as (st' & w' & Hrun & Hl' & Hs' & Ho' & Hfd' & _ & _ & Hfile' & _);
    try done; try lia; [congruence|].
  destruct (Synced_removed_prefix i off st1 w1 content1) as [Hcount Hnl];
    try done.
  exists i, off, content1, st', w'. split_and!; try done.
  - unfold newlines. rewrite Hcount. lia.
  - rewrite (_flush_written _ _ _ fdv n) by done. fold st1 w1.
    rewrite rotate_size by done. by rewrite Hcut.
  - apply (Synced_moved i off st1 st' w1 w' content1); try done.
    rewrite Ho'. by replace (Z.to_nat (Z.of_nat i + 1)) with (S i) by lia.
Qed.

(** ** The two revisions of the store *)

Lemma Earlier_flush_agrees env st w :
  fd_truthy (fd st) = true → Earlier.flush env st w = flush env st w.
Proof.
  intros Hfd. unfold Earlier.flush, flush, Earlier._flush, _flush.
  destruct (pendingFlush st); [done|].
  destruct (bool_decide _); [done|]. cbn.
  destruct (fd st) as [fdv|]; [|done]. cbn in Hfd |- *. by rewrite Hfd.
Qed.

(** X23: the two revisions of the store differ on two paths only.  On a
    logger that holds a descriptor other than [0], a call of [_write]
    whose line encodes gives the same result, the same logger and the
    same file system in both.  When encoding throws, the earlier
    [_write] lets the exception reach its caller and [onError] hears
    nothing, where the later one returns [null] and reports it. *)
Theorem X23_the_two_revisions_agree_on_a_healthy_logger
    (proc : Process) (env : Env) (level msg : str) (info : value) (time : Z)
    (st : t) (w : World LogError) :
  (∀ s, encode proc (productName st) level msg info time = Normal s →
        fd_truthy (fd st) = true →
        Earlier._write proc env level msg info time st w
        = _write proc env level msg info time st w)
  ∧ (∀ e, encode proc (productName st) level msg info time = Throw e →
          Earlier._write proc env level msg info time st w = (Thrown e, st, w)
          ∧ _write proc env level msg info time st w
            = (Returned, st,
               onError (WErrorExn "_write() threw an unexpected exception" e)
                 w)).
Proof.
  split.
  - intros s Henc Hfd. unfold Earlier._write, _write. rewrite Henc.
    by apply Earlier_flush_agrees.
  - intros e Henc. unfold Earlier._write, _write. by rewrite Henc.
Qed.

(** X22 on a file of 32 MiB without a newline: the newline of the round
    is the first one, and the cut after it leaves an empty file. *)
Lemma X22_witness :
  let st1 := afterWrite 4096 Ex.on_blob in
  (Synced Ex.on_blob Ex.blob_world
   ∧ lines st1 < MAX_LOG_LINES ∧ MAX_LOG_FILE_SIZE ≤ size st1)
  ∧ ∃ (i : nat) (off : Z) st' w',
      newLineOffsets st1 !! i = Some off
      ∧ _flush Ex.ok Ex.on_blob Ex.blob_world = (Normal None, st', w')
      ∧ lines st' = lines st1 - Z.of_nat i - 1
      ∧ Synced st' w'.
Proof.
  intros st1.
  assert (Synced Ex.on_blob Ex.blob_world) as Hsync.
  { exists Ex.blob. split; [reflexivity|]. split.
    - unfold Ex.blob. rewrite length_replicate, Z2Nat.id by lia. reflexivity.
    - symmetry. apply scanNewLines_newline_free. unfold Ex.blob.
      intros [H _]%elem_of_replicate. discriminate H. }
  assert (lines st1 < MAX_LOG_LINES) as Hl by (vm_compute; reflexivity).
  assert (MAX_LOG_FILE_SIZE ≤ size st1) as Hs by (vm_compute; discriminate).
  split; [exact (conj Hsync (conj Hl Hs))|].
  assert (length (roundBuffer (pendingWrites Ex.on_blob)) ≤ 4096)%nat as Hfull
    by (vm_compute; lia).
  assert (pendingWrites Ex.on_blob ≠ []) as Hq by discriminate.
  assert ((7 : Z) ≠ 0) as Hne by discriminate.
  destruct (X22_size_rotation_removes_whole_lines Ex.ok Ex.on_blob
              Ex.blob_world 7 7 4096 eq_refl Hne eq_refl Hq Hfull Hsync
              eq_refl eq_refl eq_refl eq_refl Hl Hs)
    as (i & off & content1 & st' & w' & _ & Hi & _ & _ & _ & _ & Hrun & _
        & Hl' & _ & _ & Hsync').
  exists i, off, st', w'. exact (conj Hi (conj Hrun (conj Hl' Hsync'))).
Defined.

(** ** One round at a time *)

(** A call parked at line 224 that finds the queue empty, or the round
    rejected, changes nothing. *)
Lemma resume_AtEntry_idle r acc n :
  (pendingWrites (Loop.logger acc.1) = [] ∨ ∃ e, r = Throw e) →
  foldl (Loop.resume r) acc (replicate n Loop.AtEntry) = acc.
Proof.
  intros H. induction n as [|n IH]; [done|]. cbn [replicate foldl].
  assert (Loop.resume r acc Loop.AtEntry = acc) as ->; [|done].
  destruct acc as [m started]. cbn in H. unfold Loop.resume.
  destruct r as [res|e]; [|done].
  destruct H as [H|[e H]]; [|done]. by rewrite H.
Qed.

(** The calls parked at line 224 after the round has resolved: the first
    that finds lines in the queue starts the next round with all of
    them. *)
Lemma resume_AtEntry_resolved res m n :
  foldl (Loop.resume (Normal res)) (m, false) (replicate n Loop.AtEntry)
  = if bool_decide (pendingWrites (Loop.logger m) = []) then (m, false)
    else match n with
         | O => (m, false)
         | S _ => (Loop.start_round m, true)
         end.
Proof.
  case_bool_decide as Hq.
  { by rewrite resume_AtEntry_idle by (left; done). }
  destruct n as [|n]; [done|]. cbn [replicate foldl].
  unfold Loop.resume at 2. rewrite bool_decide_eq_false_2 by done.
  by rewrite resume_AtEntry_idle by (left; done).
Qed.

Lemma drain_once_other m :
  (∀ r, Loop.round m ≠ Some (Loop.Settled r)) → Loop.drain_once m = m.
Proof.
  intros H. unfold Loop.drain_once.
  destruct (Loop.round m) as [[fdv pending|r|r]|]; try done.
  by destruct (H r).
Qed.

(** The jobs of a settled round, spelled out. *)
Lemma drain_once_settled m r n :
  Loop.round m = Some (Loop.Settled r) →
  Loop.parked m = Loop.Owner :: replicate n Loop.AtEntry →
  Loop.drain_once m
  = match r with
    | Throw e =>
        Loop.mk (set_pendingFlush (Some e) (Loop.logger m)) (Loop.world m)
          None [] (Loop.overlapped m)
    | Normal res =>
        let m1 :=
          Loop.mk (Loop.logger m)
            match res with
            | Some err => onError err (Loop.world m)
            | None => Loop.world m
            end
            None [] (Loop.overlapped m) in
        if bool_decide (pendingWrites (Loop.logger m) = []) then m1
        else match n with
             | O => m1
             | S _ => Loop.start_round m1
             end
    end.
Proof.
  intros Hr Hp. unfold Loop.drain_once. rewrite Hr, Hp. cbn [foldl].
  destruct r as [res|e].
  - unfold Loop.resume at 2. cbn [Loop.logger Loop.world Loop.parked
      Loop.overlapped Loop.round].
    rewrite resume_AtEntry_resolved. cbn [Loop.logger].
    case_bool_decide; [done|]. by destruct n.
  - unfold Loop.resume at 2. cbn [Loop.logger Loop.world Loop.parked
      Loop.overlapped Loop.round].
    by rewrite resume_AtEntry_idle by (right; by exists e).
Qed.










(** ** Lines that arrive while a round is in flight *)

Lemma bytes_app ls ls' : bytes (ls ++ ls') = bytes ls ++ bytes ls'.
Proof. unfold bytes. by rewrite fmap_app, concat_app. Qed.

Lemma roundBuffer_bytes pending : pending ≠ [] → roundBuffer pending = bytes pending.
Proof. apply roundBuffer_concat. Qed.

Lemma account_fields k buf written st :
  let st1 := account k buf written st in
  fd st1 = fd st
  ∧ lines st1 = lines st + k
  ∧ size st1 = size st + written
  ∧ pendingWrites st1
    = (if negb (written =? Z.of_nat (length buf))
       then pendingWrites st ++ [NL] else pendingWrites st)
  ∧ pendingFlush st1 = pendingFlush st
  ∧ productName st1 = productName st
  ∧ _writeCalled st1 = _writeCalled st.
Proof. unfold account. by destruct (negb _). Qed.

Lemma drain_other m :
  (∀ r, Loop.round m ≠ Some (Loop.Settled r)) → Loop.drain m = m.
Proof.
  intros H. unfold Loop.drain. rewrite (drain_once_other m) by done.
  by apply drain_once_other.
Qed.

Lemma Flow_quiet fdv st0 content queued m :
  Loop.Flow fdv st0 content queued m →
  ∀ r, Loop.round m ≠ Some (Loop.Settled r).
Proof.
  intros (done & _ & _ & _ & _ & _ & _ & _ & _ & H) r Hr.
  by rewrite Hr in H.
Qed.

Lemma call_Flow proc fdv st0 content queued m c :
  fdv ≠ 0 →
  Loop.Flow fdv st0 content queued m →
  Loop.Flow fdv st0 content
    (queued ++ Loop.accepted proc (productName st0) c) (Loop.call proc c m).
Proof.
  intros Hne (done & HL & Hfile & Hfd & Hpf & Hname & Hlines & Hsize & Hov
              & Hround).
  unfold Loop.call, Loop.accepted. rewrite Hname.
  destruct (encode _ _ _ _ _ _) as [s|e].
  - destruct (Loop.round m) as [[fdv' p|r|r]|] eqn:Hr; try done.
    + destruct Hround as (-> & Hp & Hparked).
      exists done. unfold Loop.snapshot in *. rewrite Hr in HL. cbn.
      split_and!; try done.
      * rewrite HL. by rewrite <- !app_assoc.
      * rewrite Hparked, length_app. cbn.
        by rewrite Nat.add_1_r, replicate_S_end.
    + destruct Hround as [Hparked Hq].
      cbn [pendingFlush set_pendingWrites]. rewrite Hpf.
      unfold Loop.proceed. cbn [Loop.logger pendingWrites set_pendingWrites].
      rewrite Hq. cbn [app]. rewrite bool_decide_eq_false_2 by done.
      unfold Loop.start_round.
      cbn [Loop.logger Loop.world Loop.round Loop.parked Loop.overlapped
           Loop.in_flight pendingWrites set_pendingWrites fd].
      rewrite Hfd, (fd_truthy_Some fdv Hne), Hov.
      exists done. unfold Loop.snapshot in *. rewrite Hr in HL. cbn.
      rewrite Hq in HL. cbn in HL. rewrite app_nil_r in HL.
      split_and!; try done. by rewrite HL.
  - exists done. unfold Loop.snapshot in *. cbn. rewrite app_nil_r.
    split_and!; done.
Qed.

Lemma calls_Flow proc fdv st0 content queued m calls :
  fdv ≠ 0 →
  Loop.Flow fdv st0 content queued m →
  Loop.Flow fdv st0 content
    (queued ++ (calls ≫= Loop.accepted proc (productName st0)))
    (foldl (λ m c, Loop.call proc c m) m calls).
Proof.
  intros Hne. revert queued m.
  induction calls as [|c calls IH]; intros queued m H.
  - cbn. by rewrite app_nil_r.
  - cbn [foldl].
    change ((c :: calls) ≫= Loop.accepted proc (productName st0))
      with (Loop.accepted proc (productName st0) c
            ++ (calls ≫= Loop.accepted proc (productName st0))).
    rewrite app_assoc. by apply IH, call_Flow.
Qed.

Lemma length_bytes_mono ls1 ls2 ls3 :
  (length (bytes ls2) ≤ length (bytes (ls1 ++ ls2 ++ ls3)))%nat.
Proof. rewrite !bytes_app, !length_app. lia. Qed.

Lemma write_done_Flow env fdv st0 content queued m n :
  fdv ≠ 0 →
  write_r env = inr n →
  (length (bytes queued) ≤ n)%nat →
  lines st0 + Z.of_nat (length queued) < MAX_LOG_LINES →
  size st0 + Z.of_nat (length (bytes queued)) < MAX_LOG_FILE_SIZE →
  Loop.Flow fdv st0 content queued m →
  Loop.Flow fdv st0 content queued (Loop.drain (Loop.write_done env m)).
Proof.
  intros Hne Hw Hn Hlb Hsb HF.
  pose proof HF as (done & HL & Hfile & Hfd & Hpf & Hname & Hlines & Hsize
                    & Hov & Hround).
  unfold Loop.write_done.
  destruct (Loop.round m) as [[fdv' p|r|r]|] eqn:Hr; try done.
  2:{ rewrite drain_other; [done|]. intros r. by rewrite Hr. }
  destruct Hround as (-> & Hp & Hparked).
  unfold Loop.snapshot in HL. rewrite Hr in HL.
  assert (roundBuffer p = bytes p) as Hbuf by by apply roundBuffer_bytes.
  assert (length (bytes p) ≤ n)%nat as Hpn.
  { pose proof (length_bytes_mono done p (pendingWrites (Loop.logger m))).
    rewrite <- HL in H. lia. }
  assert (length queued
          = length done + length p + length (pendingWrites (Loop.logger m)))%nat
    as Hlen by (rewrite HL, !length_app; lia).
  assert (length (bytes queued)
          = length (bytes done) + length (bytes p)
            + length (bytes (pendingWrites (Loop.logger m))))%nat
    as Hblen by (rewrite HL, !bytes_app, !length_app; lia).
  unfold write. rewrite Hw, Hbuf, take_ge by lia.
  set (st := set__writeCalled _ _).
  pose proof (account_fields (Z.of_nat (length p)) (bytes p)
                (Z.of_nat (length (bytes p))) st) as Hacc.
  set (st1 := account _ _ _ st) in *. cbn zeta in Hacc.
  destruct Hacc as (Hfd1 & Hl1 & Hs1 & Hq1 & Hpf1 & Hn1 & _).
  rewrite Z.eqb_refl in Hq1. cbn [negb] in Hq1.
  subst st. cbn [fd lines size pendingWrites pendingFlush productName
                 set__writeCalled] in *.
  rewrite rotate_idle by lia.
  assert ((MAX_LOG_LINES <=? lines st1) || (MAX_LOG_FILE_SIZE <=? size st1)
          = false) as ->.
  { apply orb_false_iff. split; apply Z.leb_gt; lia. }
  unfold Loop.drain.
  match goal with
  | |- context [Loop.drain_once (Loop.drain_once ?x)] =>
      rewrite (drain_once_settled x (Normal None) _ eq_refl Hparked)
  end.
  cbn [Loop.logger Loop.world Loop.overlapped]. rewrite Hq1.
  case_bool_decide as Hq.
  - rewrite drain_once_other by done.
    exists (done ++ p). unfold Loop.snapshot. cbn [Loop.round Loop.logger
      Loop.world Loop.parked Loop.overlapped file set_file log].
    rewrite Hq1, Hq, Hfile, bytes_app, !length_app in *. cbn [fmap option_fmap option_map].
    rewrite <- !app_assoc.
    split_and!; try done; try congruence; lia.
  - destruct (length (pendingWrites (Loop.logger m))) eqn:Hlq.
    { by destruct (pendingWrites (Loop.logger m)). }
    unfold Loop.start_round.
    cbn [Loop.logger Loop.world Loop.round Loop.parked Loop.overlapped
         Loop.in_flight fd set_pendingWrites pendingWrites].
    rewrite Hfd1, Hfd, (fd_truthy_Some fdv Hne), Hov, Hq1.
    rewrite drain_once_other by done.
    exists (done ++ p). unfold Loop.snapshot. cbn [Loop.round Loop.logger
      Loop.world Loop.parked Loop.overlapped file set_file log orb
      pendingWrites set_pendingWrites fd pendingFlush productName lines size].
    rewrite Hfile, bytes_app, !length_app. cbn [fmap option_fmap option_map].
    rewrite <- !app_assoc, app_nil_r.
    split_and!; try done; try congruence; lia.
Qed.

Lemma offered_one proc name ev :
  Loop.offered proc name [ev]
  = match ev with
    | Loop.Tick calls => calls ≫= Loop.accepted proc name
    | _ => []
    end.
Proof. unfold Loop.offered. cbn. by rewrite app_nil_r. Qed.

Lemma offered_cons proc name ev events :
  Loop.offered proc name (ev :: events)
  = Loop.offered proc name [ev] ++ Loop.offered proc name events.
Proof. rewrite offered_one. done. Qed.

Lemma step_Flow proc fdv st0 content queued m ev total :
  fdv ≠ 0 →
  Loop.takes (length (bytes total)) ev = true →
  (∃ rest, total = queued ++ Loop.offered proc (productName st0) [ev] ++ rest) →
  lines st0 + Z.of_nat (length total) < MAX_LOG_LINES →
  size st0 + Z.of_nat (length (bytes total)) < MAX_LOG_FILE_SIZE →
  Loop.Flow fdv st0 content queued m →
  Loop.Flow fdv st0 content
    (queued ++ Loop.offered proc (productName st0) [ev]) (Loop.step proc m ev).
Proof.
  intros Hne Htk [rest Htot] Hlb Hsb HF. unfold Loop.step.
  rewrite offered_one in *.
  destruct ev as [calls|env|].
  - pose proof (calls_Flow proc fdv st0 content queued m calls Hne HF) as H.
    rewrite drain_other; [done|]. by eapply Flow_quiet.
  - rewrite app_nil_r. cbn in Htk.
    destruct (write_r env) as [e|n] eqn:Hw; [done|].
    apply bool_decide_eq_true in Htk.
    cbn [app] in Htot.
    assert (length (bytes queued) ≤ length (bytes total))%nat as Hle
      by (rewrite Htot, bytes_app, length_app; lia).
    assert (length queued ≤ length total)%nat as Hle'
      by (rewrite Htot, length_app; lia).
    apply (write_done_Flow env fdv st0 content queued m n); try done; lia.
  - rewrite app_nil_r.
    pose proof HF as (done & _ & _ & _ & _ & _ & _ & _ & _ & Hround).
    assert (Loop.truncate_done m = m) as ->.
    { unfold Loop.truncate_done.
      by destruct (Loop.round m) as [[fdv' p|r|r]|]. }
    rewrite drain_other; [done|]. by eapply Flow_quiet.
Qed.

Lemma run_Flow proc fdv st0 content events queued m total :
  fdv ≠ 0 →
  forallb (Loop.takes (length (bytes total))) events = true →
  total = queued ++ Loop.offered proc (productName st0) events →
  lines st0 + Z.of_nat (length total) < MAX_LOG_LINES →
  size st0 + Z.of_nat (length (bytes total)) < MAX_LOG_FILE_SIZE →
  Loop.Flow fdv st0 content queued m →
  Loop.Flow fdv st0 content total (Loop.run proc events m).
Proof.
  intros Hne. revert queued m.
  induction events as [|ev events IH]; intros queued m Htk Htot Hlb Hsb HF.
  - cbn in *. rewrite app_nil_r in Htot. by subst.
  - cbn [Loop.run foldl]. cbn [forallb] in Htk.
    apply andb_true_iff in Htk as [Htk1 Htk2].
    rewrite offered_cons in Htot.
    apply (IH (queued ++ Loop.offered proc (productName st0) [ev]));
      try done.
    + by rewrite <- app_assoc.
    + apply (step_Flow _ _ _ _ _ _ _ total); try done.
      by exists (Loop.offered proc (productName st0) events).
Qed.

(** X25 (_write, lines 188-221; flush, lines 223-237; _flush, lines
    239-328): on an open logger whose writes are whole and never fail,
    and as long as no truncation comes due, no schedule of calls and
    callbacks loses, repeats or reorders a line: the file is what it was,
    followed by the lines of a prefix of the calls, in the order of the
    calls and each closed by a newline; the lines after that prefix are
    the snapshot of the round in flight and then the queue; and once no
    round is in flight every line is in the file. *)
Theorem X25_lines_reach_the_file_in_call_order
    (proc : Process) (events : list Loop.Event) (st : t)
    (w : World LogError) (fdv : Z) (content : list N) :
  let queued := Loop.offered proc (productName st) events in
  let m := Loop.run proc events (Loop.idle st w) in
  fd st = Some fdv → fdv ≠ 0 →
  pendingFlush st = None → pendingWrites st = [] →
  file w = Some content →
  forallb (Loop.takes (length (bytes queued))) events = true →
  lines st + Z.of_nat (length queued) < MAX_LOG_LINES →
  size st + Z.of_nat (length (bytes queued)) < MAX_LOG_FILE_SIZE →
  ∃ done,
    queued = done ++ Loop.snapshot m ++ pendingWrites (Loop.logger m)
    ∧ file (Loop.world m) = Some (content ++ bytes done)
    ∧ (Loop.round m = None → done = queued).
Proof.
  intros queued m Hfd Hne Hpf Hq Hfile Htk Hlb Hsb.
  assert (Loop.Flow fdv st content queued m) as HF.
  { apply (run_Flow proc fdv st content events [] (Loop.idle st w));
      try done.
    exists []. unfold Loop.snapshot. cbn. rewrite Hq, app_nil_r.
    split_and!; try done; lia. }
  destruct HF as (done & HL & Hfile' & _ & _ & _ & _ & _ & _ & Hround).
  exists done. split_and!; try done.
  intros Hr. unfold Loop.snapshot in HL. rewrite Hr in HL, Hround.
  destruct Hround as [_ Hq']. rewrite Hq' in HL. cbn in HL.
  by rewrite app_nil_r in HL.
Qed.

(** ** Bursts of calls *)

(** Calls made while a round is in flight queue their lines and park. *)
Lemma calls_parked proc calls m r :
  Loop.round m = Some r →
  let ls := calls ≫= Loop.accepted proc (productName (Loop.logger m)) in
  ∃ w',
    foldl (λ m c, Loop.call proc c m) m calls
    = Loop.mk (set_pendingWrites (pendingWrites (Loop.logger m) ++ ls)
                 (Loop.logger m))
        w' (Some r) (Loop.parked m ++ replicate (length ls) Loop.AtEntry)
        (Loop.overlapped m)
    ∧ file w' = file (Loop.world m)
    ∧ trace w' = trace (Loop.world m).
Proof.
  revert m. induction calls as [|c calls IH]; intros m Hr ls.
  - exists (Loop.world m). subst ls. cbn [mbind list_bind length replicate].
    rewrite !app_nil_r. split; [|done].
    destruct m as [st w r' p ov]. cbn in *. subst. by destruct st.
  - cbn [foldl].
    assert (∃ w1,
      Loop.call proc c m
      = Loop.mk
          (set_pendingWrites
             (pendingWrites (Loop.logger m)
              ++ Loop.accepted proc (productName (Loop.logger m)) c)
             (Loop.logger m))
          w1 (Some r)
          (Loop.parked m
           ++ replicate
                (length (Loop.accepted proc (productName (Loop.logger m)) c))
                Loop.AtEntry)
          (Loop.overlapped m)
      ∧ file w1 = file (Loop.world m) ∧ trace w1 = trace (Loop.world m))
      as (w1 & Hc & Hf1 & Ht1).
    { unfold Loop.call, Loop.accepted.
      destruct (encode _ _ _ _ _ _) as [s|e]; rewrite Hr.
      - by exists (Loop.world m).
      - exists (onError
                  (WErrorExn "_write() threw an unexpected exception" e)
                  (Loop.world m)).
        cbn [length replicate]. rewrite !app_nil_r.
        split; [|done]. f_equal. by destruct (Loop.logger m). }
    rewrite Hc.
    match goal with
    | |- context [foldl _ ?m1 calls] =>
        destruct (IH m1 eq_refl) as (w' & Hrun & Hf & Ht)
    end.
    exists w'. rewrite Hrun. cbn [Loop.logger Loop.world Loop.parked
      Loop.overlapped productName pendingWrites set_pendingWrites] in *.
    subst ls.
    change ((c :: calls) ≫= Loop.accepted proc (productName (Loop.logger m)))
      with (Loop.accepted proc (productName (Loop.logger m)) c
            ++ (calls ≫= Loop.accepted proc (productName (Loop.logger m)))).
    rewrite length_app, replicate_add, <- !app_assoc.
    split; [done|]. split; congruence.
Qed.

(** The first call made while no round is in flight starts one. *)
Lemma call_starts proc c m fdv l :
  Loop.round m = None → pendingFlush (Loop.logger m) = None →
  fd (Loop.logger m) = Some fdv → fdv ≠ 0 →
  Loop.accepted proc (productName (Loop.logger m)) c = [l] →
  Loop.call proc c m
  = Loop.mk (set_pendingWrites [] (Loop.logger m)) (Loop.world m)
      (Some (Loop.Writing fdv (pendingWrites (Loop.logger m) ++ [l])))
      [Loop.Owner] (Loop.overlapped m).
Proof.
  intros Hr Hpf Hfd Hne Hl. unfold Loop.call, Loop.accepted in *.
  destruct (encode _ _ _ _ _ _) as [s|e]; [|done].
  assert (s = l) as -> by congruence. rewrite Hr.
  cbn [pendingFlush set_pendingWrites]. rewrite Hpf. unfold Loop.proceed.
  cbn [Loop.logger pendingWrites set_pendingWrites].
  rewrite bool_decide_eq_false_2 by by destruct (pendingWrites _).
  unfold Loop.start_round.
  cbn [Loop.logger Loop.world Loop.round Loop.parked Loop.overlapped
       Loop.in_flight pendingWrites set_pendingWrites fd].
  by rewrite Hfd, (fd_truthy_Some fdv Hne), orb_false_r.
Qed.

(** [fs.write] calls back with [n] bytes or the whole buffer, and no
    truncation comes due: the round resolves. *)
Lemma write_done_settles env m fdv p n :
  Loop.round m = Some (Loop.Writing fdv p) →
  write_r env = inr n →
  lines (Loop.logger m) + Z.of_nat (length p) < MAX_LOG_LINES →
  size (Loop.logger m) + Z.of_nat (length (take n (roundBuffer p)))
    < MAX_LOG_FILE_SIZE →
  ∃ st' w',
    Loop.write_done env m
    = Loop.mk st' w' (Some (Loop.Settled (Normal None))) (Loop.parked m)
        (Loop.overlapped m)
    ∧ fd st' = fd (Loop.logger m)
    ∧ pendingWrites st'
      = pendingWrites (Loop.logger m)
        ++ (if decide (length (roundBuffer p) ≤ n)%nat then [] else [NL])
    ∧ _writeCalled st' = _writeCalled (Loop.logger m) + 1
    ∧ lines st' = lines (Loop.logger m) + Z.of_nat (length p)
    ∧ size st'
      = size (Loop.logger m) + Z.of_nat (length (take n (roundBuffer p)))
    ∧ file w' = (λ c, c ++ take n (roundBuffer p)) <$> file (Loop.world m)
    ∧ trace w' = trace (Loop.world m) ++ [SysWrite fdv (roundBuffer p)]
    ∧ reported w' = reported (Loop.world m).
Proof.
  intros Hr Hw Hlb Hsb. unfold Loop.write_done. rewrite Hr.
  unfold write. rewrite Hw.
  set (st := set__writeCalled _ _).
  pose proof (account_fields (Z.of_nat (length p)) (roundBuffer p)
                (Z.of_nat (length (take n (roundBuffer p)))) st) as Hacc.
  set (st1 := account _ _ _ st) in *. cbn zeta in Hacc.
  destruct Hacc as (Hfd1 & Hl1 & Hs1 & Hq1 & Hpf1 & Hn1 & Hwc1).
  subst st. cbn [fd lines size pendingWrites pendingFlush productName
                 _writeCalled set__writeCalled] in *.
  rewrite rotate_idle by lia.
  assert ((MAX_LOG_LINES <=? lines st1) || (MAX_LOG_FILE_SIZE <=? size st1)
          = false) as ->.
  { apply orb_false_iff. split; apply Z.leb_gt; lia. }
  exists st1, (set_file
                 ((λ c, c ++ take n (roundBuffer p))
                    <$> file (log (SysWrite fdv (roundBuffer p)) (Loop.world m)))
                 (log (SysWrite fdv (roundBuffer p)) (Loop.world m))).
  split_and!; try done.
  rewrite Hq1, length_take.
  destruct (Z.eqb_spec (Z.of_nat (n `min` length (roundBuffer p)))
              (Z.of_nat (length (roundBuffer p)))); case_decide; cbn [negb];
    try lia; by rewrite ?app_nil_r.
Qed.

(** What the jobs of a resolved round leave behind on a logger that holds
    a descriptor. *)
Lemma drain_reporting st w res n ov fdv :
  fd st = Some fdv → fdv ≠ 0 →
  (n = 0%nat → pendingWrites st = []) →
  let w' := match res with Some err => onError err w | None => w end in
  Loop.drain
    (Loop.mk st w (Some (Loop.Settled (Normal res)))
       (Loop.Owner :: replicate n Loop.AtEntry) ov)
  = if bool_decide (pendingWrites st = []) then Loop.mk st w' None [] ov
    else Loop.mk (set_pendingWrites [] st) w'
           (Some (Loop.Writing fdv (pendingWrites st))) [Loop.Owner] ov.
Proof.
  intros Hfd Hne Hn w'. unfold Loop.drain.
  rewrite (drain_once_settled
             (Loop.mk st w (Some (Loop.Settled (Normal res)))
                (Loop.Owner :: replicate n Loop.AtEntry) ov)
             (Normal res) n eq_refl eq_refl).
  cbn [Loop.logger Loop.world Loop.overlapped]. fold w'.
  case_bool_decide as Hq; [by rewrite drain_once_other|].
  destruct n; [by destruct Hq; apply Hn|].
  unfold Loop.start_round.
  cbn [Loop.logger Loop.world Loop.round Loop.parked Loop.overlapped
       Loop.in_flight fd set_pendingWrites].
  rewrite Hfd, (fd_truthy_Some fdv Hne), orb_false_r.
  by rewrite drain_once_other.
Qed.

Lemma drain_resolved st w n ov fdv :
  fd st = Some fdv → fdv ≠ 0 →
  (n = 0%nat → pendingWrites st = []) →
  Loop.drain
    (Loop.mk st w (Some (Loop.Settled (Normal None)))
       (Loop.Owner :: replicate n Loop.AtEntry) ov)
  = if bool_decide (pendingWrites st = []) then Loop.mk st w None [] ov
    else Loop.mk (set_pendingWrites [] st) w
           (Some (Loop.Writing fdv (pendingWrites st))) [Loop.Owner] ov.
Proof. apply (drain_reporting st w None). Qed.

Lemma bytes_NL ls : bytes (ls ++ [NL]) = bytes ls ++ [newLineByte; newLineByte].
Proof. by rewrite bytes_app. Qed.

Lemma run_cons proc ev events m :
  Loop.run proc (ev :: events) m = Loop.run proc events (Loop.step proc m ev).
Proof. done. Qed.

(** The state after a task in which some calls are made on a quiet, open
    logger: the first line is the snapshot of a round, the others are
    queued behind calls parked at line 224. *)
Lemma burst_starts proc c cs st w fdv l :
  let ls := cs ≫= Loop.accepted proc (productName st) in
  fd st = Some fdv → fdv ≠ 0 →
  pendingFlush st = None → pendingWrites st = [] →
  Loop.accepted proc (productName st) c = [l] →
  ∃ w1,
    Loop.step proc (Loop.idle st w) (Loop.Tick (c :: cs))
    = Loop.mk (set_pendingWrites ls st) w1 (Some (Loop.Writing fdv [l]))
        (Loop.Owner :: replicate (length ls) Loop.AtEntry) false
    ∧ file w1 = file w ∧ trace w1 = trace w.
Proof.
  intros ls Hfd Hne Hpf Hq Hl. unfold Loop.step. cbn [foldl].
  rewrite (call_starts proc c (Loop.idle st w) fdv l) by done.
  cbn [Loop.idle Loop.logger Loop.world Loop.overlapped].
  rewrite Hq. cbn [app].
  edestruct (calls_parked proc cs
               (Loop.mk (set_pendingWrites [] st) w
                  (Some (Loop.Writing fdv [l])) [Loop.Owner] false)
               _ eq_refl) as (w1 & Hrun & Hf & Ht).
  cbn [Loop.logger Loop.world Loop.parked Loop.overlapped productName
       pendingWrites set_pendingWrites app] in *.
  exists w1. rewrite Hrun. split; [|done].
  by rewrite drain_other.
Qed.

Lemma burst_run
    (proc : Process) (c : Loop.Entry) (cs : list Loop.Entry) (st : t)
    (w : World LogError) (fdv : Z) (l : str) (e1 e2 : Env) (n1 n2 : nat) :
  let ls := cs ≫= Loop.accepted proc (productName st) in
  fd st = Some fdv → fdv ≠ 0 →
  pendingFlush st = None → pendingWrites st = [] →
  Loop.accepted proc (productName st) c = [l] → ls ≠ [] →
  write_r e1 = inr n1 → (length (bytes [l]) ≤ n1)%nat →
  write_r e2 = inr n2 → (length (bytes ls) ≤ n2)%nat →
  lines st + Z.of_nat (length (l :: ls)) < MAX_LOG_LINES →
  size st + Z.of_nat (length (bytes (l :: ls))) < MAX_LOG_FILE_SIZE →
  ∃ st3 w3,
    Loop.run proc [Loop.Tick (c :: cs); Loop.WriteDone e1; Loop.WriteDone e2]
      (Loop.idle st w)
    = Loop.mk st3 w3 None [] false
    ∧ trace w3 = trace w ++ [SysWrite fdv (bytes [l]); SysWrite fdv (bytes ls)]
    ∧ file w3 = (λ content, content ++ bytes (l :: ls)) <$> file w
    ∧ _writeCalled st3 = _writeCalled st + 2
    ∧ pendingWrites st3 = [].
Proof.
  intros ls Hfd Hne Hpf Hq Hl Hls Hw1 Hn1 Hw2 Hn2 Hlb Hsb.
  change (l :: ls) with ([l] ++ ls) in *.
  rewrite bytes_app, !length_app in *.
  destruct (burst_starts proc c cs st w fdv l Hfd Hne Hpf Hq Hl)
    as (w1 & Hs1 & Hf1 & Ht1).
  fold ls in Hs1. rewrite run_cons, Hs1. clear Hs1. clearbody ls.
  cbn [length] in Hlb.
  (* the first write calls back *)
  rewrite run_cons. unfold Loop.step.
  edestruct (write_done_settles e1
               (Loop.mk (set_pendingWrites ls st) w1
                  (Some (Loop.Writing fdv [l]))
                  (Loop.Owner :: replicate (length ls) Loop.AtEntry) false)
               fdv [l] n1 eq_refl Hw1)
    as (st2 & w2 & Hd & Hfd2 & Hq2 & Hwc2 & Hl2 & Hs2 & Hf2 & Ht2 & Hrep2).
  { cbn [Loop.logger lines set_pendingWrites length]. lia. }
  { cbn [Loop.logger size set_pendingWrites].
    rewrite roundBuffer_bytes, take_ge by (done || lia). lia. }
  rewrite Hd. clear Hd.
  cbn [Loop.logger Loop.world Loop.parked Loop.overlapped fd lines size
       pendingWrites _writeCalled set_pendingWrites length] in *.
  rewrite roundBuffer_bytes in * by done.
  rewrite take_ge in * by lia.
  rewrite decide_True, app_nil_r in Hq2 by lia.
  rewrite (drain_resolved st2 w2 (length ls) false fdv) by
    (try congruence; intros H0; rewrite Hq2; by destruct ls).
  rewrite bool_decide_eq_false_2 by congruence. rewrite Hq2.
  (* the second write calls back *)
  rewrite run_cons. unfold Loop.step.
  edestruct (write_done_settles e2
               (Loop.mk (set_pendingWrites [] st2) w2
                  (Some (Loop.Writing fdv ls)) [Loop.Owner] false)
               fdv ls n2 eq_refl Hw2)
    as (st3 & w3 & Hd & Hfd3 & Hq3 & Hwc3 & Hl3 & Hs3 & Hf3 & Ht3 & Hrep3).
  { cbn [Loop.logger lines set_pendingWrites length] in *. lia. }
  { cbn [Loop.logger size set_pendingWrites].
    rewrite roundBuffer_bytes, take_ge by (done || lia). lia. }
  rewrite Hd. clear Hd.
  cbn [Loop.logger Loop.world Loop.parked Loop.overlapped fd lines size
       pendingWrites _writeCalled set_pendingWrites] in *.
  rewrite roundBuffer_bytes in * by done.
  rewrite take_ge in * by lia.
  rewrite decide_True in Hq3 by lia. cbn [app] in Hq3.
  pose proof (drain_resolved st3 w3 0 false fdv) as Hdr.
  cbn [replicate] in Hdr. rewrite Hdr by (congruence || done). clear Hdr.
  rewrite bool_decide_eq_true_2 by done.
  exists st3, w3. split; [done|]. split_and!; try done.
  - rewrite Ht3, Ht2, Ht1. by rewrite <- app_assoc.
  - rewrite Hf3, Hf2, Hf1. destruct (file w); cbn; [|done].
    by rewrite <- !app_assoc.
  - lia.
Qed.

(** X26 (flush, lines 223-237; _flush, lines 239-328; _write, lines
    188-221): calls made in one run of the caller's code on a quiet, open
    logger take two calls of [fs.write], however many they are.  The
    first call starts a round that writes its own line; the lines of the
    others wait for that round and are written together, in the order of
    the calls, by the round that follows. *)
Theorem X26_a_burst_of_calls_takes_two_writes
    (proc : Process) (c : Loop.Entry) (cs : list Loop.Entry) (st : t)
    (w : World LogError) (fdv : Z) (l : str) (e1 e2 : Env) (n1 n2 : nat) :
  let ls := cs ≫= Loop.accepted proc (productName st) in
  let m :=
    Loop.run proc [Loop.Tick (c :: cs); Loop.WriteDone e1; Loop.WriteDone e2]
      (Loop.idle st w) in
  fd st = Some fdv → fdv ≠ 0 →
  pendingFlush st = None → pendingWrites st = [] →
  Loop.accepted proc (productName st) c = [l] → ls ≠ [] →
  write_r e1 = inr n1 → (length (bytes [l]) ≤ n1)%nat →
  write_r e2 = inr n2 → (length (bytes ls) ≤ n2)%nat →
  lines st + Z.of_nat (length (l :: ls)) < MAX_LOG_LINES →
  size st + Z.of_nat (length (bytes (l :: ls))) < MAX_LOG_FILE_SIZE →
  trace (Loop.world m)
  = trace w ++ [SysWrite fdv (bytes [l]); SysWrite fdv (bytes ls)]
  ∧ file (Loop.world m) = (λ content, content ++ bytes (l :: ls)) <$> file w
  ∧ _writeCalled (Loop.logger m) = _writeCalled st + 2
  ∧ Loop.round m = None
  ∧ pendingWrites (Loop.logger m) = [].
Proof.
  intros ls m Hfd Hne Hpf Hq Hl Hls Hw1 Hn1 Hw2 Hn2 Hlb Hsb.
  destruct (burst_run proc c cs st w fdv l e1 e2 n1 n2 Hfd Hne Hpf Hq Hl Hls
              Hw1 Hn1 Hw2 Hn2 Hlb Hsb) as (st3 & w3 & Hm & Ht & Hf & Hwc & Hq3).
  subst m. rewrite Hm. by cbn.
Qed.

Lemma torn_run
    (proc : Process) (c : Loop.Entry) (cs : list Loop.Entry) (st : t)
    (w : World LogError) (fdv : Z) (l : str) (e1 e2 : Env) (n1 n2 : nat) :
  let ls := cs ≫= Loop.accepted proc (productName st) in
  fd st = Some fdv → fdv ≠ 0 →
  pendingFlush st = None → pendingWrites st = [] →
  Loop.accepted proc (productName st) c = [l] → ls ≠ [] →
  write_r e1 = inr n1 → (n1 < length (bytes [l]))%nat →
  write_r e2 = inr n2 → (length (bytes ls) + 2 ≤ n2)%nat →
  lines st + Z.of_nat (length ls) + 2 < MAX_LOG_LINES →
  size st + Z.of_nat n1 + Z.of_nat (length (bytes ls)) + 2
    < MAX_LOG_FILE_SIZE →
  ∃ st3 w3,
    Loop.run proc
      [Loop.Tick [c]; Loop.Tick cs; Loop.WriteDone e1; Loop.WriteDone e2]
      (Loop.idle st w)
    = Loop.mk st3 w3 None [] false
    ∧ trace w3
      = trace w
        ++ [SysWrite fdv (bytes [l]);
            SysWrite fdv (bytes ls ++ [newLineByte; newLineByte])]
    ∧ file w3
      = (λ content,
           content ++ take n1 (bytes [l]) ++ bytes ls
           ++ [newLineByte; newLineByte]) <$> file w
    ∧ pendingWrites st3 = [].
Proof.
  intros ls Hfd Hne Hpf Hq Hl Hls Hw1 Hn1 Hw2 Hn2 Hlb Hsb.
  destruct (burst_starts proc c [] st w fdv l Hfd Hne Hpf Hq Hl)
    as (w0 & Hs0 & Hf0 & Ht0).
  cbn [mbind list_bind length replicate] in Hs0.
  rewrite run_cons, Hs0. clear Hs0.
  (* the calls made while the write is in flight *)
  rewrite run_cons. unfold Loop.step.
  edestruct (calls_parked proc cs
               (Loop.mk (set_pendingWrites [] st) w0
                  (Some (Loop.Writing fdv [l])) [Loop.Owner] false)
               _ eq_refl) as (w1 & Hrun & Hf1 & Ht1).
  cbn [Loop.logger Loop.world Loop.parked Loop.overlapped productName
       pendingWrites set_pendingWrites app] in *.
  fold ls in Hrun. rewrite Hrun. clear Hrun. clearbody ls.
  rewrite drain_other by done.
  change (set_pendingWrites ls (set_pendingWrites [] st))
    with (set_pendingWrites ls st).
  (* the first write calls back, short *)
  rewrite run_cons. unfold Loop.step.
  edestruct (write_done_settles e1
               (Loop.mk (set_pendingWrites ls st) w1
                  (Some (Loop.Writing fdv [l]))
                  (Loop.Owner :: replicate (length ls) Loop.AtEntry) false)
               fdv [l] n1 eq_refl Hw1)
    as (st2 & w2 & Hd & Hfd2 & Hq2 & Hwc2 & Hl2 & Hs2 & Hf2 & Ht2 & Hrep2).
  { cbn [Loop.logger lines set_pendingWrites length]. lia. }
  { cbn [Loop.logger size set_pendingWrites].
    rewrite roundBuffer_bytes, length_take by done. lia. }
  rewrite Hd. clear Hd.
  cbn [Loop.logger Loop.world Loop.parked Loop.overlapped fd lines size
       pendingWrites _writeCalled set_pendingWrites length] in *.
  rewrite roundBuffer_bytes in * by done.
  rewrite length_take in Hs2.
  rewrite decide_False in Hq2 by lia.
  rewrite (drain_resolved st2 w2 (length ls) false fdv) by
    (try congruence; intros H0; destruct ls; done).
  rewrite bool_decide_eq_false_2 by (rewrite Hq2; by destruct ls).
  rewrite Hq2.
  (* the second write calls back *)
  assert (ls ++ [NL] ≠ []) as Hne' by by destruct ls.
  rewrite run_cons. unfold Loop.step.
  edestruct (write_done_settles e2
               (Loop.mk (set_pendingWrites [] st2) w2
                  (Some (Loop.Writing fdv (ls ++ [NL]))) [Loop.Owner] false)
               fdv (ls ++ [NL]) n2 eq_refl Hw2)
    as (st3 & w3 & Hd & Hfd3 & Hq3 & Hwc3 & Hl3 & Hs3 & Hf3 & Ht3 & Hrep3).
  { cbn [Loop.logger lines set_pendingWrites length] in *.
    rewrite length_app. cbn [length]. lia. }
  { cbn [Loop.logger size set_pendingWrites].
    rewrite roundBuffer_bytes, bytes_NL by done.
    rewrite take_ge by (rewrite length_app; cbn [length]; lia).
    rewrite length_app. cbn [length]. lia. }
  rewrite Hd. clear Hd.
  cbn [Loop.logger Loop.world Loop.parked Loop.overlapped fd lines size
       pendingWrites _writeCalled set_pendingWrites] in *.
  rewrite roundBuffer_bytes, bytes_NL in * by done.
  assert (length (bytes ls ++ [newLineByte; newLineByte]) ≤ n2)%nat as Hn2'
    by (rewrite length_app; cbn [length]; lia).
  rewrite take_ge in * by done.
  rewrite decide_True in Hq3 by done. cbn [app] in Hq3.
  pose proof (drain_resolved st3 w3 0 false fdv) as Hdr.
  cbn [replicate] in Hdr. rewrite Hdr by (congruence || done). clear Hdr.
  rewrite bool_decide_eq_true_2 by done.
  exists st3, w3. split; [done|]. split_and!; try done.
  - rewrite Ht3, Ht2, Ht1, Ht0. by rewrite <- app_assoc.
  - rewrite Hf3, Hf2, Hf1, Hf0. destruct (file w); cbn; [|done].
    by rewrite <- !app_assoc.
Qed.

(** X27 (_flush, lines 273-282; flush, lines 223-237): the newline that
    [_flush] queues after a partial write goes behind the lines that were
    queued while the write was in flight.  When a round writes [n1] bytes
    of its line only and calls were made meanwhile, the next round writes
    their lines first and two newlines last: in the file the first of
    those lines continues the torn line. *)
Theorem X27_the_repair_newline_queues_behind_the_waiting_lines
    (proc : Process) (c : Loop.Entry) (cs : list Loop.Entry) (st : t)
    (w : World LogError) (fdv : Z) (l : str) (e1 e2 : Env) (n1 n2 : nat) :
  let ls := cs ≫= Loop.accepted proc (productName st) in
  let m :=
    Loop.run proc
      [Loop.Tick [c]; Loop.Tick cs; Loop.WriteDone e1; Loop.WriteDone e2]
      (Loop.idle st w) in
  fd st = Some fdv → fdv ≠ 0 →
  pendingFlush st = None → pendingWrites st = [] →
  Loop.accepted proc (productName st) c = [l] → ls ≠ [] →
  write_r e1 = inr n1 → (n1 < length (bytes [l]))%nat →
  write_r e2 = inr n2 → (length (bytes ls) + 2 ≤ n2)%nat →
  lines st + Z.of_nat (length ls) + 2 < MAX_LOG_LINES →
  size st + Z.of_nat n1 + Z.of_nat (length (bytes ls)) + 2
    < MAX_LOG_FILE_SIZE →
  trace (Loop.world m)
  = trace w
    ++ [SysWrite fdv (bytes [l]);
        SysWrite fdv (bytes ls ++ [newLineByte; newLineByte])]
  ∧ file (Loop.world m)
    = (λ content,
         content ++ take n1 (bytes [l]) ++ bytes ls
         ++ [newLineByte; newLineByte]) <$> file w
  ∧ Loop.round m = None
  ∧ pendingWrites (Loop.logger m) = [].
Proof.
  intros ls m Hfd Hne Hpf Hq Hl Hls Hw1 Hn1 Hw2 Hn2 Hlb Hsb.
  destruct (torn_run proc c cs st w fdv l e1 e2 n1 n2 Hfd Hne Hpf Hq Hl Hls
              Hw1 Hn1 Hw2 Hn2 Hlb Hsb) as (st3 & w3 & Hm & Ht & Hf & Hq3).
  subst m. rewrite Hm. by cbn.
Qed.

(** [fs.write] calls back with an error: the round resolves with it. *)
Lemma write_done_fails env m fdv p code :
  Loop.round m = Some (Loop.Writing fdv p) →
  write_r env = inl code →
  Loop.write_done env m
  = Loop.mk (set__writeCalled (_writeCalled (Loop.logger m) + 1) (Loop.logger m))
      (log (SysWrite fdv (roundBuffer p)) (Loop.world m))
      (Some (Loop.Settled
         (Normal (Some (WError "_write() could not write(fd)" code)))))
      (Loop.parked m) (Loop.overlapped m).
Proof.
  intros Hr Hw. unfold Loop.write_done. rewrite Hr. unfold write.
  by rewrite Hw.
Qed.

Lemma failed_run
    (proc : Process) (c : Loop.Entry) (cs : list Loop.Entry) (st : t)
    (w : World LogError) (fdv : Z) (l : str) (e1 e2 : Env) (code : Errno)
    (n2 : nat) :
  let ls := cs ≫= Loop.accepted proc (productName st) in
  fd st = Some fdv → fdv ≠ 0 →
  pendingFlush st = None → pendingWrites st = [] →
  Loop.accepted proc (productName st) c = [l] → ls ≠ [] →
  write_r e1 = inl code →
  write_r e2 = inr n2 → (length (bytes ls) ≤ n2)%nat →
  lines st + Z.of_nat (length ls) < MAX_LOG_LINES →
  size st + Z.of_nat (length (bytes ls)) < MAX_LOG_FILE_SIZE →
  ∃ st3 w3,
    Loop.run proc [Loop.Tick (c :: cs); Loop.WriteDone e1; Loop.WriteDone e2]
      (Loop.idle st w)
    = Loop.mk st3 w3 None [] false
    ∧ trace w3 = trace w ++ [SysWrite fdv (bytes [l]); SysWrite fdv (bytes ls)]
    ∧ file w3 = (λ content, content ++ bytes ls) <$> file w
    ∧ WError "_write() could not write(fd)" code ∈ reported w3
    ∧ lines st3 = lines st + Z.of_nat (length ls)
    ∧ _writeCalled st3 = _writeCalled st + 2
    ∧ pendingWrites st3 = [].
Proof.
  intros ls Hfd Hne Hpf Hq Hl Hls Hw1 Hw2 Hn2 Hlb Hsb.
  destruct (burst_starts proc c cs st w fdv l Hfd Hne Hpf Hq Hl)
    as (w1 & Hs1 & Hf1 & Ht1).
  fold ls in Hs1. rewrite run_cons, Hs1. clear Hs1. clearbody ls.
  (* the first write calls back with an error *)
  rewrite run_cons. unfold Loop.step.
  match goal with
  | |- context [Loop.write_done e1 ?m1] =>
      rewrite (write_done_fails e1 m1 fdv [l] code eq_refl Hw1)
  end.
  cbn [Loop.logger Loop.world Loop.parked Loop.overlapped].
  rewrite roundBuffer_bytes by done.
  match goal with
  | |- context [Loop.drain (Loop.mk ?s2 ?w2 (Some (Loop.Settled (Normal ?res)))
                              _ _)] =>
      rewrite (drain_reporting s2 w2 res (length ls) false fdv) by
        (try done; intros H0; by destruct ls)
  end.
  cbn [pendingWrites set__writeCalled set_pendingWrites].
  rewrite bool_decide_eq_false_2 by done.
  (* the second write calls back *)
  rewrite run_cons. unfold Loop.step.
  match goal with
  | |- context [Loop.write_done e2 ?m2] =>
      edestruct (write_done_settles e2 m2 fdv ls n2 eq_refl Hw2)
        as (st3 & w3 & Hd & Hfd3 & Hq3 & Hwc3 & Hl3 & Hs3 & Hf3 & Ht3 & Hrep3)
  end.
  { cbn [Loop.logger lines set_pendingWrites set__writeCalled]. lia. }
  { cbn [Loop.logger size set_pendingWrites set__writeCalled].
    rewrite roundBuffer_bytes, take_ge by (done || lia). lia. }
  rewrite Hd. clear Hd.
  cbn [Loop.logger Loop.world Loop.parked Loop.overlapped fd lines size
       pendingWrites _writeCalled set_pendingWrites set__writeCalled
       reported trace file onError log] in *.
  rewrite roundBuffer_bytes in * by done.
  rewrite take_ge in * by lia.
  rewrite decide_True in Hq3 by lia. cbn [app] in Hq3.
  pose proof (drain_resolved st3 w3 0 false fdv) as Hdr.
  cbn [replicate] in Hdr. rewrite Hdr by (congruence || done). clear Hdr.
  rewrite bool_decide_eq_true_2 by done.
  exists st3, w3. split; [done|]. split_and!; try done.
  - rewrite Ht3, Ht1. by rewrite <- app_assoc.
  - by rewrite Hf3, Hf1.
  - rewrite Hrep3. apply elem_of_app. right. by apply list_elem_of_singleton.
  - lia.
Qed.

(** X29 (_flush, lines 256-271; flush, lines 223-237): a failed write
    loses the lines of its own round only.  When [fs.write] fails for the
    round of the first call of a burst, that line never reaches the file
    and is not written again, the error is handed to [onError], and the
    lines that were waiting are written by the next round as if nothing
    had happened; [lines] counts those only. *)
Theorem X29_a_failed_write_loses_its_own_lines_only
    (proc : Process) (c : Loop.Entry) (cs : list Loop.Entry) (st : t)
    (w : World LogError) (fdv : Z) (l : str) (e1 e2 : Env) (code : Errno)
    (n2 : nat) :
  let ls := cs ≫= Loop.accepted proc (productName st) in
  let m :=
    Loop.run proc [Loop.Tick (c :: cs); Loop.WriteDone e1; Loop.WriteDone e2]
      (Loop.idle st w) in
  fd st = Some fdv → fdv ≠ 0 →
  pendingFlush st = None → pendingWrites st = [] →
  Loop.accepted proc (productName st) c = [l] → ls ≠ [] →
  write_r e1 = inl code →
  write_r e2 = inr n2 → (length (bytes ls) ≤ n2)%nat →
  lines st + Z.of_nat (length ls) < MAX_LOG_LINES →
  size st + Z.of_nat (length (bytes ls)) < MAX_LOG_FILE_SIZE →
  trace (Loop.world m)
  = trace w ++ [SysWrite fdv (bytes [l]); SysWrite fdv (bytes ls)]
  ∧ file (Loop.world m) = (λ content, content ++ bytes ls) <$> file w
  ∧ WError "_write() could not write(fd)" code ∈ reported (Loop.world m)
  ∧ lines (Loop.logger m) = lines st + Z.of_nat (length ls)
  ∧ Loop.round m = None
  ∧ pendingWrites (Loop.logger m) = [].
Proof.
  intros ls m Hfd Hne Hpf Hq Hl Hls Hw1 Hw2 Hn2 Hlb Hsb.
  destruct (failed_run proc c cs st w fdv l e1 e2 code n2 Hfd Hne Hpf Hq Hl
              Hls Hw1 Hw2 Hn2 Hlb Hsb)
    as (st3 & w3 & Hm & Ht & Hf & Hrep & Hl3 & Hwc & Hq3).
  subst m. rewrite Hm. by cbn.
Qed.

(** ** One call at a time *)

Lemma open_pendingFlush env st w :
  pendingFlush (open env st w).1.2 = pendingFlush st.
Proof.
  unfold open, open_descriptor, mkdir, readFile, FS.open.
  destruct (fd_truthy (fd st)); [done|].
  destruct (mkdir_r env); [done|]. cbn.
  destruct (readFile_r env); cbn.
  - destruct (negb _); [done|]. by destruct (open_r env).
  - destruct (file w); cbn; by destruct (open_r env).
Qed.

Lemma _truncate_pendingFlush env pos idx st w :
  pendingFlush (_truncate env pos idx st w).1.2 = pendingFlush st.
Proof.
  unfold _truncate. destruct pos as [pos|]; [|done].
  destruct (pos <? 0); [done|]. unfold pipeline. cbn.
  destruct (pipeline_r env); [done|].
  destruct (file w); [|done]. cbn. unfold rename. cbn.
  destruct (rename_r env); [done|]. cbn.
  destruct (idx =? -1); cbn.
  - destruct (fd st); [|done]. unfold close.
    destruct (close_r env); [done|].
    match goal with |- context [open env ?s ?w0] =>
      pose proof (open_pendingFlush env s w0) as H;
      destruct (open env s w0) as [[r st'] w']
    end. done.
  - unfold FS.open. cbn. destruct (open_r env); [done|]. cbn.
    destruct (fd st); [|done]. unfold close.
    by destruct (close_r env).
Qed.

Lemma rotate_pendingFlush env st w :
  pendingFlush (rotate env st w).1.2 = pendingFlush st.
Proof.
  unfold rotate. destruct (_ <=? _); [apply _truncate_pendingFlush|].
  destruct (_ <=? _); [|done].
  destruct (findCut _ _). apply _truncate_pendingFlush.
Qed.

Lemma set_pendingFlush_same st x :
  pendingFlush st = x → set_pendingFlush x st = st.
Proof. intros <-. by destruct st. Qed.

(** The jobs of a round that only the call that started it waits for. *)
Lemma drain_alone st w r :
  Loop.drain (Loop.mk st w (Some (Loop.Settled r)) [Loop.Owner] false)
  = match r with
    | Throw e => Loop.mk (set_pendingFlush (Some e) st) w None [] false
    | Normal (Some err) => Loop.mk st (onError err w) None [] false
    | Normal None => Loop.mk st w None [] false
    end.
Proof.
  unfold Loop.drain.
  rewrite (drain_once_settled
             (Loop.mk st w (Some (Loop.Settled r)) [Loop.Owner] false)
             r 0 eq_refl eq_refl).
  destruct r as [[err|]|e]; cbn [Loop.logger Loop.world Loop.overlapped];
    try case_bool_decide; by rewrite drain_once_other.
Qed.

Lemma sequential_call proc env c st w :
  let m :=
    Loop.run proc [Loop.Tick [c]; Loop.WriteDone env; Loop.TruncateDone]
      (Loop.idle st w) in
  let r :=
    _write proc env (Loop.e_level c) (Loop.e_msg c) (Loop.e_info c)
      (Loop.e_time c) st w in
  m = Loop.mk r.1.2 r.2 None [] false.
Proof.
  cbn zeta. rewrite run_cons. unfold Loop.step at 1. cbn [foldl].
  unfold Loop.call, _write. cbn [Loop.idle Loop.logger Loop.world Loop.round
    Loop.parked Loop.overlapped].
  destruct (encode _ _ _ _ _ _) as [s|e].
  2:{ rewrite drain_other by done. rewrite run_cons.
      unfold Loop.step at 1, Loop.write_done. cbn [Loop.round].
      rewrite drain_other by done. rewrite run_cons.
      unfold Loop.step, Loop.truncate_done. cbn [Loop.round].
      by rewrite drain_other. }
  unfold flush. cbn [pendingFlush pendingWrites set_pendingWrites].
  destruct (pendingFlush st) as [e|] eqn:Hpf.
  { rewrite drain_other by done. rewrite run_cons.
    unfold Loop.step at 1, Loop.write_done. cbn [Loop.round].
    rewrite drain_other by done. rewrite run_cons.
    unfold Loop.step, Loop.truncate_done. cbn [Loop.round].
    by rewrite drain_other. }
  unfold Loop.proceed. cbn [Loop.logger pendingWrites set_pendingWrites].
  rewrite !bool_decide_eq_false_2 by by destruct (pendingWrites st).
  unfold Loop.start_round, _flush.
  cbn [Loop.logger Loop.world Loop.round Loop.parked Loop.overlapped
       Loop.in_flight pendingWrites set_pendingWrites fd orb].
  set (pending := pendingWrites st ++ [s]).
  destruct (fd st) as [fdv|] eqn:Hfd.
  2:{ rewrite drain_alone. rewrite run_cons.
      unfold Loop.step at 1, Loop.write_done. cbn [Loop.round].
      rewrite drain_other by done. rewrite run_cons.
      unfold Loop.step, Loop.truncate_done. cbn [Loop.round].
      rewrite drain_other by done. cbn [fst snd Loop.run foldl]. f_equal.
      symmetry. by apply set_pendingFlush_same. }
  destruct (fd_truthy (Some fdv)) eqn:Htr; cbn [negb].
  2:{ rewrite drain_alone. rewrite run_cons.
      unfold Loop.step at 1, Loop.write_done. cbn [Loop.round].
      rewrite drain_other by done. rewrite run_cons.
      unfold Loop.step, Loop.truncate_done. cbn [Loop.round].
      rewrite drain_other by done. cbn [fst snd Loop.run foldl]. f_equal.
      symmetry. by apply set_pendingFlush_same. }
  rewrite drain_other by done. rewrite run_cons.
  unfold Loop.step at 1, Loop.write_done.
  cbn [Loop.logger Loop.world Loop.round Loop.parked Loop.overlapped].
  destruct (write env fdv (roundBuffer pending) w) as [[e|written] w1].
  { rewrite drain_alone. rewrite run_cons.
    unfold Loop.step, Loop.truncate_done. cbn [Loop.round].
    rewrite drain_other by done. cbn [fst snd Loop.run foldl]. f_equal.
    symmetry. by apply set_pendingFlush_same. }
  match goal with
  | |- context [rotate env ?s ?w0] =>
      pose proof (rotate_pendingFlush env s w0) as Hrot;
      destruct (rotate env s w0) as [[res st'] w'] eqn:Hr;
      destruct ((MAX_LOG_LINES <=? lines s) || (MAX_LOG_FILE_SIZE <=? size s))
  end.
  all: cbn [fst snd] in Hrot.
  all: assert (pendingFlush st' = None) as Hpf'
         by (rewrite Hrot; unfold account; by destruct (negb _)).
  all: clear Hrot Hr.
  - destruct res as [res|[]].
    all: try (rewrite drain_other by done; rewrite run_cons;
              unfold Loop.step, Loop.truncate_done; cbn [Loop.round Loop.logger
                Loop.world Loop.parked Loop.overlapped];
              rewrite drain_alone).
    all: try (rewrite drain_alone; rewrite run_cons;
              unfold Loop.step, Loop.truncate_done; cbn [Loop.round];
              rewrite drain_other by done).
    all: try destruct res as [err|]; cbn [fst snd Loop.run foldl]; f_equal;
      try done; symmetry; by apply set_pendingFlush_same.
  - rewrite drain_alone. rewrite run_cons.
    unfold Loop.step, Loop.truncate_done.
    destruct res as [[err|]|e]; cbn [Loop.round]; rewrite drain_other by done;
      cbn [fst snd Loop.run foldl]; f_equal; try done;
      symmetry; by apply set_pendingFlush_same.
Qed.

(** X28 (_write, lines 188-221; flush, lines 223-237; _flush, lines
    239-328): a call of [_write] that no other call overlaps (the task
    that makes it, then the callbacks of its round) leaves the logger and
    the file system exactly as [_write] run to completion does, whatever
    the state of the logger and the answers of the file system; no round
    and no parked call is left. *)
Theorem X28_a_call_that_nothing_overlaps_runs_to_completion
    (proc : Process) (env : Env) (c : Loop.Entry) (st : t)
    (w : World LogError) :
  let m :=
    Loop.run proc [Loop.Tick [c]; Loop.WriteDone env; Loop.TruncateDone]
      (Loop.idle st w) in
  let r :=
    _write proc env (Loop.e_level c) (Loop.e_msg c) (Loop.e_info c)
      (Loop.e_time c) st w in
  Loop.logger m = r.1.2
  ∧ Loop.world m = r.2
  ∧ Loop.round m = None
  ∧ Loop.parked m = []
  ∧ Loop.overlapped m = false.
Proof.
  intros m r. subst m r. by rewrite sequential_call.
Qed.

(** ** The theorems on concrete schedules *)

(** X25 on [Bursts.staggered]: two lines are in the file, and the third
    is the snapshot of the round in flight. *)
Lemma X25_witness :
  let queued := Loop.offered Ex.proc (productName Bursts.opened)
                  Bursts.staggered in
  let m :=
    Loop.run Ex.proc Bursts.staggered (Loop.idle Bursts.opened Bursts.disk) in
  (fd Bursts.opened = Some 7
   ∧ pendingFlush Bursts.opened = None
   ∧ pendingWrites Bursts.opened = []
   ∧ file Bursts.disk = Some Ex.two_lines
   ∧ forallb (Loop.takes (length (bytes queued))) Bursts.staggered = true
   ∧ lines Bursts.opened + Z.of_nat (length queued) < MAX_LOG_LINES
   ∧ size Bursts.opened + Z.of_nat (length (bytes queued))
     < MAX_LOG_FILE_SIZE)
  ∧ Loop.snapshot m = [Bursts.line]
  ∧ ∃ done,
      queued = done ++ Loop.snapshot m ++ pendingWrites (Loop.logger m)
      ∧ file (Loop.world m) = Some (Ex.two_lines ++ bytes done)
      ∧ (Loop.round m = None → done = queued).
Proof.
  intros queued m.
  assert (fd Bursts.opened = Some 7) as H1 by (vm_compute; reflexivity).
  assert ((7 : Z) ≠ 0) as H2 by discriminate.
  assert (pendingFlush Bursts.opened = None) as H3
    by (vm_compute; reflexivity).
  assert (pendingWrites Bursts.opened = []) as H4
    by (vm_compute; reflexivity).
  assert (file Bursts.disk = Some Ex.two_lines) as H5
    by (vm_compute; reflexivity).
  assert (forallb (Loop.takes (length (bytes queued))) Bursts.staggered
          = true) as H6 by (vm_compute; reflexivity).
  assert (lines Bursts.opened + Z.of_nat (length queued) < MAX_LOG_LINES)
    as H7 by (vm_compute; reflexivity).
  assert (size Bursts.opened + Z.of_nat (length (bytes queued))
          < MAX_LOG_FILE_SIZE) as H8 by (vm_compute; reflexivity).
  split; [exact (conj H1 (conj H3 (conj H4 (conj H5 (conj H6 (conj H7 H8))))))|].
  split; [vm_compute; reflexivity|].
  exact (X25_lines_reach_the_file_in_call_order Ex.proc Bursts.staggered
           Bursts.opened Bursts.disk 7 Ex.two_lines H1 H2 H3 H4 H5 H6 H7 H8).
Defined.

(** X26 on [Bursts.batched], the schedule of the test 'concurrent writes
    are batched': five calls, two writes. *)
Lemma X26_witness :
  let ls :=
    replicate 4 Bursts.entry
      ≫= Loop.accepted Ex.proc (productName Bursts.opened) in
  let m :=
    Loop.run Ex.proc
      [Loop.Tick (Bursts.entry :: replicate 4 Bursts.entry);
       Loop.WriteDone Ex.ok; Loop.WriteDone Ex.ok]
      (Loop.idle Bursts.opened Bursts.disk) in
  (fd Bursts.opened = Some 7
   ∧ pendingFlush Bursts.opened = None
   ∧ pendingWrites Bursts.opened = []
   ∧ Loop.accepted Ex.proc (productName Bursts.opened) Bursts.entry
     = [Bursts.line]
   ∧ ls = replicate 4 Bursts.line
   ∧ write_r Ex.ok = inr 4096%nat
   ∧ (length (bytes [Bursts.line]) ≤ 4096)%nat
   ∧ (length (bytes ls) ≤ 4096)%nat
   ∧ lines Bursts.opened + Z.of_nat (length (Bursts.line :: ls))
     < MAX_LOG_LINES
   ∧ size Bursts.opened + Z.of_nat (length (bytes (Bursts.line :: ls)))
     < MAX_LOG_FILE_SIZE)
  ∧ m = Loop.run Ex.proc Bursts.batched (Loop.idle Bursts.opened Bursts.disk)
  ∧ getWriteCalledCounter (Loop.logger m) = 2
  ∧ trace (Loop.world m)
    = trace Bursts.disk
      ++ [SysWrite 7 (bytes [Bursts.line]); SysWrite 7 (bytes ls)]
  ∧ file (Loop.world m)
    = (λ content, content ++ bytes (Bursts.line :: ls)) <$> file Bursts.disk
  ∧ _writeCalled (Loop.logger m) = _writeCalled Bursts.opened + 2
  ∧ Loop.round m = None
  ∧ pendingWrites (Loop.logger m) = [].
Proof.
  intros ls m.
  assert (fd Bursts.opened = Some 7) as H1 by (vm_compute; reflexivity).
  assert ((7 : Z) ≠ 0) as H2 by discriminate.
  assert (pendingFlush Bursts.opened = None) as H3
    by (vm_compute; reflexivity).
  assert (pendingWrites Bursts.opened = []) as H4
    by (vm_compute; reflexivity).
  assert (Loop.accepted Ex.proc (productName Bursts.opened) Bursts.entry
          = [Bursts.line]) as H5 by (vm_compute; reflexivity).
  assert (ls = replicate 4 Bursts.line) as H6 by (vm_compute; reflexivity).
  assert (ls ≠ []) as H6' by (rewrite H6; discriminate).
  assert (write_r Ex.ok = inr 4096%nat) as H7 by reflexivity.
  assert (length (bytes [Bursts.line]) ≤ 4096)%nat as H8
    by (vm_compute; lia).
  assert (length (bytes ls) ≤ 4096)%nat as H9 by (vm_compute; lia).
  assert (lines Bursts.opened + Z.of_nat (length (Bursts.line :: ls))
          < MAX_LOG_LINES) as H10 by (vm_compute; reflexivity).
  assert (size Bursts.opened + Z.of_nat (length (bytes (Bursts.line :: ls)))
          < MAX_LOG_FILE_SIZE) as H11 by (vm_compute; reflexivity).
  split.
  { exact (conj H1 (conj H3 (conj H4 (conj H5 (conj H6 (conj H7 (conj H8
             (conj H9 (conj H10 H11))))))))). }
  split; [reflexivity|].
  split; [vm_compute; reflexivity|].
  exact (X26_a_burst_of_calls_takes_two_writes Ex.proc Bursts.entry
           (replicate 4 Bursts.entry) Bursts.opened Bursts.disk 7 Bursts.line
           Ex.ok Ex.ok 4096 4096 H1 H2 H3 H4 H5 H6' H7 H8 H7 H9 H10 H11).
Defined.

(** X27 on [Bursts.torn]: ten bytes of the first line, then the two lines
    that were waiting, then two newlines. *)
Lemma X27_witness :
  let ls :=
    [Bursts.entry; Bursts.entry]
      ≫= Loop.accepted Ex.proc (productName Bursts.opened) in
  let m :=
    Loop.run Ex.proc
      [Loop.Tick [Bursts.entry]; Loop.Tick [Bursts.entry; Bursts.entry];
       Loop.WriteDone (Ex.short_write 10); Loop.WriteDone Ex.ok]
      (Loop.idle Bursts.opened Bursts.disk) in
  (fd Bursts.opened = Some 7
   ∧ pendingFlush Bursts.opened = None
   ∧ pendingWrites Bursts.opened = []
   ∧ Loop.accepted Ex.proc (productName Bursts.opened) Bursts.entry
     = [Bursts.line]
   ∧ ls = [Bursts.line; Bursts.line]
   ∧ write_r (Ex.short_write 10) = inr 10%nat
   ∧ (10 < length (bytes [Bursts.line]))%nat
   ∧ write_r Ex.ok = inr 4096%nat
   ∧ (length (bytes ls) + 2 ≤ 4096)%nat
   ∧ lines Bursts.opened + Z.of_nat (length ls) + 2 < MAX_LOG_LINES
   ∧ size Bursts.opened + Z.of_nat 10 + Z.of_nat (length (bytes ls)) + 2
     < MAX_LOG_FILE_SIZE)
  ∧ m = Loop.run Ex.proc Bursts.torn (Loop.idle Bursts.opened Bursts.disk)
  ∧ trace (Loop.world m)
    = trace Bursts.disk
      ++ [SysWrite 7 (bytes [Bursts.line]);
          SysWrite 7 (bytes ls ++ [newLineByte; newLineByte])]
  ∧ file (Loop.world m)
    = (λ content,
         content ++ take 10 (bytes [Bursts.line]) ++ bytes ls
         ++ [newLineByte; newLineByte]) <$> file Bursts.disk
  ∧ Loop.round m = None
  ∧ pendingWrites (Loop.logger m) = [].
Proof.
  intros ls m.
  assert (fd Bursts.opened = Some 7) as H1 by (vm_compute; reflexivity).
  assert ((7 : Z) ≠ 0) as H2 by discriminate.
  assert (pendingFlush Bursts.opened = None) as H3
    by (vm_compute; reflexivity).
  assert (pendingWrites Bursts.opened = []) as H4
    by (vm_compute; reflexivity).
  assert (Loop.accepted Ex.proc (productName Bursts.opened) Bursts.entry
          = [Bursts.line]) as H5 by (vm_compute; reflexivity).
  assert (ls = [Bursts.line; Bursts.line]) as H6
    by (vm_compute; reflexivity).
  assert (ls ≠ []) as H6' by (rewrite H6; discriminate).
  assert (write_r (Ex.short_write 10) = inr 10%nat) as H7 by reflexivity.
  assert (10 < length (bytes [Bursts.line]))%nat as H8 by (vm_compute; lia).
  assert (write_r Ex.ok = inr 4096%nat) as H9 by reflexivity.
  assert (length (bytes ls) + 2 ≤ 4096)%nat as H10 by (vm_compute; lia).
  assert (lines Bursts.opened + Z.of_nat (length ls) + 2 < MAX_LOG_LINES)
    as H11 by (vm_compute; reflexivity).
  assert (size Bursts.opened + Z.of_nat 10 + Z.of_nat (length (bytes ls)) + 2
          < MAX_LOG_FILE_SIZE) as H12 by (vm_compute; reflexivity).
  split.
  { exact (conj H1 (conj H3 (conj H4 (conj H5 (conj H6 (conj H7 (conj H8
             (conj H9 (conj H10 (conj H11 H12)))))))))). }
  split; [reflexivity|].
  exact (X27_the_repair_newline_queues_behind_the_waiting_lines Ex.proc
           Bursts.entry [Bursts.entry; Bursts.entry] Bursts.opened Bursts.disk
           7 Bursts.line (Ex.short_write 10) Ex.ok 10 4096
           H1 H2 H3 H4 H5 H6' H7 H8 H9 H10 H11 H12).
Defined.

(** X29 on [Bursts.failing]: the first line is lost, the other two are
    written, and the error is reported. *)
Lemma X29_witness :
  let ls :=
    replicate 2 Bursts.entry
      ≫= Loop.accepted Ex.proc (productName Bursts.opened) in
  let m :=
    Loop.run Ex.proc
      [Loop.Tick (Bursts.entry :: replicate 2 Bursts.entry);
       Loop.WriteDone Ex.write_fails; Loop.WriteDone Ex.ok]
      (Loop.idle Bursts.opened Bursts.disk) in
  (fd Bursts.opened = Some 7
   ∧ pendingFlush Bursts.opened = None
   ∧ pendingWrites Bursts.opened = []
   ∧ Loop.accepted Ex.proc (productName Bursts.opened) Bursts.entry
     = [Bursts.line]
   ∧ ls = [Bursts.line; Bursts.line]
   ∧ write_r Ex.write_fails = inl "EBADF"%string
   ∧ write_r Ex.ok = inr 4096%nat
   ∧ (length (bytes ls) ≤ 4096)%nat
   ∧ lines Bursts.opened + Z.of_nat (length ls) < MAX_LOG_LINES
   ∧ size Bursts.opened + Z.of_nat (length (bytes ls)) < MAX_LOG_FILE_SIZE)
  ∧ m = Loop.run Ex.proc Bursts.failing (Loop.idle Bursts.opened Bursts.disk)
  ∧ trace (Loop.world m)
    = trace Bursts.disk
      ++ [SysWrite 7 (bytes [Bursts.line]); SysWrite 7 (bytes ls)]
  ∧ file (Loop.world m) = (λ content, content ++ bytes ls) <$> file Bursts.disk
  ∧ WError "_write() could not write(fd)" "EBADF" ∈ reported (Loop.world m)
  ∧ lines (Loop.logger m) = lines Bursts.opened + Z.of_nat (length ls)
  ∧ Loop.round m = None
  ∧ pendingWrites (Loop.logger m) = [].
Proof.
  intros ls m.
  assert (fd Bursts.opened = Some 7) as H1 by (vm_compute; reflexivity).
  assert ((7 : Z) ≠ 0) as H2 by discriminate.
  assert (pendingFlush Bursts.opened = None) as H3
    by (vm_compute; reflexivity).
  assert (pendingWrites Bursts.opened = []) as H4
    by (vm_compute; reflexivity).
  assert (Loop.accepted Ex.proc (productName Bursts.opened) Bursts.entry
          = [Bursts.line]) as H5 by (vm_compute; reflexivity).
  assert (ls = [Bursts.line; Bursts.line]) as H6
    by (vm_compute; reflexivity).
  assert (ls ≠ []) as H6' by (rewrite H6; discriminate).
  assert (write_r Ex.write_fails = inl "EBADF"%string) as H7 by reflexivity.
  assert (write_r Ex.ok = inr 4096%nat) as H9 by reflexivity.
  assert (length (bytes ls) ≤ 4096)%nat as H10 by (vm_compute; lia).
  assert (lines Bursts.opened + Z.of_nat (length ls) < MAX_LOG_LINES)
    as H11 by (vm_compute; reflexivity).
  assert (size Bursts.opened + Z.of_nat (length (bytes ls))
          < MAX_LOG_FILE_SIZE) as H12 by (vm_compute; reflexivity).
  split.
  { exact (conj H1 (conj H3 (conj H4 (conj H5 (conj H6 (conj H7 (conj H9
             (conj H10 (conj H11 H12))))))))). }
  split; [reflexivity|].
  exact (X29_a_failed_write_loses_its_own_lines_only Ex.proc Bursts.entry
           (replicate 2 Bursts.entry) Bursts.opened Bursts.disk 7 Bursts.line
           Ex.write_fails Ex.ok "EBADF" 4096
           H1 H2 H3 H4 H5 H6' H7 H9 H10 H11 H12).
Defined.

(** ** No line is left behind *)

Lemma call_Attended proc c m :
  Loop.Attended m → Loop.Attended (Loop.call proc c m).
Proof.
  unfold Loop.Attended, Loop.call. intros H.
  destruct (encode _ _ _ _ _ _) as [s|e]; [|done].
  destruct (Loop.round m) as [r|] eqn:Hr.
  - destruct H as (n & Hp & _). cbn [Loop.round Loop.parked Loop.logger].
    exists (S n). rewrite Hp. split; [by rewrite replicate_S_end|done].
  - cbn [pendingFlush set_pendingWrites].
    destruct (pendingFlush (Loop.logger m)) eqn:Hpf;
      [cbn; by rewrite Hpf|].
    unfold Loop.proceed. cbn [Loop.logger pendingWrites set_pendingWrites].
    rewrite bool_decide_eq_false_2 by by destruct (pendingWrites _).
    unfold Loop.start_round. cbn. exists 0%nat. split; [done|].
    intros _. constructor.
Qed.

Lemma calls_Attended proc calls m :
  Loop.Attended m → Loop.Attended (foldl (λ m c, Loop.call proc c m) m calls).
Proof.
  revert m. induction calls as [|c calls IH]; intros m H; [done|].
  cbn. by apply IH, call_Attended.
Qed.

Lemma write_done_Attended env m :
  Loop.Attended m → Loop.Attended (Loop.write_done env m).
Proof.
  intros H. unfold Loop.write_done.
  destruct (Loop.round m) as [[fdv pending|r|r]|] eqn:Hr; try done.
  unfold Loop.Attended in H. rewrite Hr in H. destruct H as (n & Hp & Hq).
  destruct (write _ _ _ _) as [[e|written] w].
  { exists n. by cbn. }
  match goal with
  | |- context [rotate env ?s ?w0] =>
      pose proof (rotate_frame env s w0) as Hrot;
      pose proof (account_fields (Z.of_nat (length pending))
                    (roundBuffer pending) written
                    (set__writeCalled (_writeCalled (Loop.logger m) + 1)
                       (Loop.logger m))) as Hacc;
      destruct (rotate env s w0) as [[res st'] w']
  end.
  cbn zeta in Hacc. destruct Hrot as (_ & Hq' & _).
  destruct Hacc as (_ & _ & _ & Hq1 & _).
  cbn [pendingWrites set__writeCalled] in Hq1.
  exists n. cbn [Loop.parked Loop.logger]. split; [done|].
  intros Hn. rewrite Hq', Hq1.
  destruct (negb _); [|by apply Hq].
  apply Forall_app. split; [by apply Hq|]. by constructor.
Qed.

Lemma truncate_done_Attended m :
  Loop.Attended m → Loop.Attended (Loop.truncate_done m).
Proof.
  intros H. unfold Loop.truncate_done.
  destruct (Loop.round m) as [[fdv pending|r|r]|] eqn:Hr; try done.
  unfold Loop.Attended in *. by rewrite Hr in H.
Qed.

Lemma drain_once_Attended m :
  Loop.Attended m →
  Loop.Attended (Loop.drain_once m)
  ∧ ∀ r, Loop.round (Loop.drain_once m) = Some (Loop.Settled r) →
         Loop.parked (Loop.drain_once m) = [Loop.Owner]
         ∧ pendingWrites (Loop.logger (Loop.drain_once m)) = []
         ∧ ∃ res, r = Normal res.
Proof.
  intros H.
  destruct (Loop.round m) as [[fdv pending|r|r]|] eqn:Hr;
    try (rewrite drain_once_other by (intros r'; by rewrite Hr);
         split; [done|]; intros r'; by rewrite Hr).
  unfold Loop.Attended in H. rewrite Hr in H. destruct H as (n & Hp & Hq).
  rewrite (drain_once_settled m r n Hr Hp).
  destruct r as [res|e].
  2:{ split; [|done]. unfold Loop.Attended. by cbn. }
  cbn zeta. case_bool_decide as Hq0.
  { split; [|done]. unfold Loop.Attended. cbn. intros _. rewrite Hq0.
    constructor. }
  destruct n as [|n].
  { split; [|done]. unfold Loop.Attended. cbn. intros _. by apply Hq. }
  unfold Loop.start_round.
  cbn [Loop.logger Loop.world Loop.round Loop.parked Loop.overlapped].
  split.
  - unfold Loop.Attended. cbn. exists 0%nat. split; [done|].
    intros _. constructor.
  - intros r. cbn [Loop.round Loop.parked Loop.logger pendingWrites
      set_pendingWrites fd]. intros Hs. split_and!; try done.
    destruct (fd (Loop.logger m)) as [fdv|]; [|naive_solver].
    destruct (fd_truthy (Some fdv)); naive_solver.
Qed.

Lemma drain_Attended m : Loop.Attended m → Loop.Attended (Loop.drain m).
Proof.
  intros H. destruct (drain_once_Attended m H) as [H1 H2]. unfold Loop.drain.
  set (m1 := Loop.drain_once m) in *. clearbody m1.
  destruct (Loop.round m1) as [[fdv pending|r|r]|] eqn:Hr;
    try (by rewrite drain_once_other by (intros r'; by rewrite Hr)).
  destruct (H2 r eq_refl) as (Hp & Hq & res & ->).
  rewrite (drain_once_settled m1 (Normal res) 0 Hr Hp).
  cbn zeta. rewrite bool_decide_eq_true_2 by done.
  unfold Loop.Attended. cbn. intros _. rewrite Hq. constructor.
Qed.

Lemma run_Attended proc events m :
  Loop.Attended m → Loop.Attended (Loop.run proc events m).
Proof.
  revert m. induction events as [|ev events IH]; intros m H; [done|].
  cbn [Loop.run foldl]. apply IH. unfold Loop.step. apply drain_Attended.
  destruct ev as [calls|env|].
  - by apply calls_Attended.
  - by apply write_done_Attended.
  - by apply truncate_done_Attended.
Qed.

(** X30 (flush, lines 223-237; _flush, lines 239-328; _write, lines
    188-221): no call leaves its line behind.  Whatever the schedule and
    whatever the file system answers (short writes, failed writes, failed
    truncations), whenever no round is in flight and no round has thrown,
    the queue holds nothing but the newlines that [_flush] queues after a
    partial write: every line a call has queued has been taken by a
    round. *)
Theorem X30_no_line_is_left_in_the_queue
    (proc : Process) (events : list Loop.Event) (st : t)
    (w : World LogError) :
  let m := Loop.run proc events (Loop.idle st w) in
  pendingWrites st = [] →
  Loop.round m = None →
  pendingFlush (Loop.logger m) = None →
  Forall (λ l, l = NL) (pendingWrites (Loop.logger m)).
Proof.
  intros m Hq Hr Hpf.
  assert (Loop.Attended m) as H.
  { apply run_Attended. unfold Loop.Attended. cbn. intros _. rewrite Hq.
    constructor. }
  unfold Loop.Attended in H. rewrite Hr in H. by apply H.
Qed.

(** X30 on [Bursts.short]: the round is over and the queue holds the
    repair newline. *)
Lemma X30_witness :
  let m := Loop.run Ex.proc Bursts.short (Loop.idle Bursts.opened Bursts.disk) in
  (pendingWrites Bursts.opened = []
   ∧ Loop.round m = None
   ∧ pendingFlush (Loop.logger m) = None)
  ∧ pendingWrites (Loop.logger m) = [NL]
  ∧ Forall (λ l, l = NL) (pendingWrites (Loop.logger m)).
Proof.
  intros m.
  assert (pendingWrites Bursts.opened = []) as H1 by (vm_compute; reflexivity).
  assert (Loop.round m = None) as H2 by (vm_compute; reflexivity).
  assert (pendingFlush (Loop.logger m) = None) as H3
    by (vm_compute; reflexivity).
  split; [exact (conj H1 (conj H2 H3))|].
  split; [vm_compute; reflexivity|].
  exact (X30_no_line_is_left_in_the_queue Ex.proc Bursts.short Bursts.opened
           Bursts.disk H1 H2 H3).
Defined.
